(** * hardlinkable: the per-device inode consolidation engine

    A shallow embedding of the Go sources of hardlinkable, and the
    theorems that settle the specification's claims about them.

    Conventions.
    - Go's fixed-width integers are [Z] with the wrap-around written out
      ([wrap 32], [wrap 64]); a conversion [uint64(x)] is [wrap 64 x].
    - A Go [map[K]V] is a [gmap K V]; the set type [InoSet]
      ([map[Ino]struct{}]) is a [gset Z].  Go leaves the iteration order
      of a map unspecified: every [range] over a map goes through an
      order ([SliceOrder], [RangeOrder]) the theorems quantify over.
    - A function that can panic returns an [Outcome].
    - Package-level mutable state ([Stats]) is threaded explicitly. *)

From Stdlib Require Import ZArith Lia.
From stdpp Require Import gmap strings list fin_maps sorting.

#[local] Open Scope Z_scope.

(** ** Machine integers *)

Definition wrap (w : Z) (x : Z) : Z := x mod 2 ^ w.

(** [x + 1] on an [int64] counter. *)
Definition inc64 (x : Z) : Z := (x + 1 + 2 ^ 63) mod 2 ^ 64 - 2 ^ 63.

(** ** Results of functions that may panic *)

Inductive Outcome (A : Type) : Type :=
| Done (a : A)
| Panic (msg : string)
| OutOfFuel.
Arguments Done {A} a.
Arguments Panic {A} msg.
Arguments OutOfFuel {A}.

#[global] Instance Outcome_bind : MBind Outcome := λ A B k o,
  match o with
  | Done a => k a
  | Panic m => Panic m
  | OutOfFuel => OutOfFuel
  end.

(** ** Iteration orders of Go maps *)

(** [InoSet.AsSlice], and every [for k := range set]: some enumeration
    of the set's members, each once. *)
Record SliceOrder := {
  asSlice :> gset Z → list Z;
  asSlice_perm : ∀ s, asSlice s ≡ₚ elements s
}.

(** [for k, v := range m] over a [map[string]V]. *)
Record RangeOrder := {
  rangeOf : ∀ {V : Type}, gmap string V → list (string * V);
  rangeOf_perm : ∀ V (m : gmap string V), rangeOf m ≡ₚ map_to_list m
}.

Definition canonicalSlice : SliceOrder :=
  {| asSlice := elements; asSlice_perm := λ s, reflexivity _ |}.

Definition canonicalRange : RangeOrder :=
  {| rangeOf := λ V m, map_to_list m; rangeOf_perm := λ V m, reflexivity _ |}.

(** ** Paths and stat results *)

Record Pathsplit := { Dirname : string; Filename : string }.

#[global] Instance Pathsplit_eq_dec : EqDecision Pathsplit.
Proof. solve_decision. Defined.

(** The fields of [syscall.Stat_t] the program keeps (package inode,
    [Info]).  [Mode] is an [os.FileMode]. *)
Record StatInfo := {
  Size : Z; Ino : Z; Sec : Z; Nsec : Z;
  Nlink : Z; Uid : Z; Gid : Z; Mode : Z
}.

#[global] Instance StatInfo_eq_dec : EqDecision StatInfo.
Proof. solve_decision. Defined.

(** The zero value Go yields when a map has no entry. *)
Definition zeroStatInfo : StatInfo :=
  {| Size := 0; Ino := 0; Sec := 0; Nsec := 0;
     Nlink := 0; Uid := 0; Gid := 0; Mode := 0 |}.

Record PathStat := { psPath : Pathsplit; psStat : StatInfo }.

Record DevStatInfo := { dsDev : Z; dsStat : StatInfo }.

(** [os.FileMode.Perm]: the permission bits, [m & 0777]. *)
Definition Perm (mode : Z) : Z := Z.land mode 511.

(** ** hash/fnv, 32-bit FNV-1a (Go standard library) *)

Definition offset32 : Z := 2166136261.
Definition prime32 : Z := 16777619.

Definition fnv32a_byte (h : Z) (c : Byte.byte) : Z :=
  wrap 32 (Z.lxor h (Z.of_N (Byte.to_N c)) * prime32).

(** [h := fnv.New32a(); h.Write(data); h.Sum32()]. *)
Definition fnv32a (data : list Byte.byte) : Z := fold_left fnv32a_byte data offset32.

(** ** inode.HashIno (internal/inode/inohash.go) *)

Module Inode.

(** [time.Time.UnixNano] of the mtime [(sec, nsec)], as the [uint64]
    the hash converts it to. *)
Definition UnixNano64 (si : StatInfo) : Z :=
  wrap 64 (Sec si * 1000000000 + Nsec si).

Definition HashIno (si : StatInfo) (ignoreTime ignorePerm ignoreOwner : bool) : Z :=
  let h := wrap 64 (Size si) in
  let h := if negb ignoreTime then Z.lxor h (UnixNano64 si) else h in
  let h := if negb ignorePerm then Z.lxor h (wrap 64 (Perm (Mode si))) else h in
  let h := if negb ignoreOwner
           then Z.lxor h (Z.lor (wrap 64 (Z.shiftl (wrap 64 (Uid si)) 32))
                                (wrap 64 (Gid si)))
           else h in
  h.

End Inode.

(** ** Package main: statistics (stats.go) *)

Record ExistingLink := {
  elSrc : Pathsplit; elDst : Pathsplit; elStat : StatInfo
}.

(** The counters of [LinkingStats] that ingestion touches.  The walk's
    own counters ([numDirs], [numFiles], ...) are left out: nothing below
    reads or writes them. *)
Record LinkingStats := mkStats {
  numInodes : Z;
  numComparisons : Z;
  numEqualComparisons : Z;
  numMissedHashes : Z;
  numFoundHashes : Z;
  numInoSeqSearches : Z;
  numInoSeqIterations : Z;
  numHashMismatches : Z;
  numDigestsComputed : Z;
  numMismatchedMtime : Z;
  numMismatchedMode : Z;
  numMismatchedUid : Z;
  numMismatchedGid : Z;
  numMismatchedXattr : Z;
  existingHardlinks : list ExistingLink
}.

Definition NewLinkingStats : LinkingStats :=
  mkStats 0 0 0 0 0 0 0 0 0 0 0 0 0 0 [].

Definition FoundInode (s : LinkingStats) : LinkingStats :=
  let 'mkStats ino cmp eqc mh fh ss si hm dg mt mm mu mg mx ex := s in
  mkStats (inc64 ino) cmp eqc mh fh ss si hm dg mt mm mu mg mx ex.

Definition DidComparison (s : LinkingStats) : LinkingStats :=
  let 'mkStats ino cmp eqc mh fh ss si hm dg mt mm mu mg mx ex := s in
  mkStats ino (inc64 cmp) eqc mh fh ss si hm dg mt mm mu mg mx ex.

Definition FoundEqualFiles (s : LinkingStats) : LinkingStats :=
  let 'mkStats ino cmp eqc mh fh ss si hm dg mt mm mu mg mx ex := s in
  mkStats ino cmp (inc64 eqc) mh fh ss si hm dg mt mm mu mg mx ex.

Definition MissedHash (s : LinkingStats) : LinkingStats :=
  let 'mkStats ino cmp eqc mh fh ss si hm dg mt mm mu mg mx ex := s in
  mkStats ino cmp eqc (inc64 mh) fh ss si hm dg mt mm mu mg mx ex.

Definition FoundHash (s : LinkingStats) : LinkingStats :=
  let 'mkStats ino cmp eqc mh fh ss si hm dg mt mm mu mg mx ex := s in
  mkStats ino cmp eqc mh (inc64 fh) ss si hm dg mt mm mu mg mx ex.

Definition SearchedInoSeq (s : LinkingStats) : LinkingStats :=
  let 'mkStats ino cmp eqc mh fh ss si hm dg mt mm mu mg mx ex := s in
  mkStats ino cmp eqc mh fh (inc64 ss) si hm dg mt mm mu mg mx ex.

Definition IncInoSeqIterations (s : LinkingStats) : LinkingStats :=
  let 'mkStats ino cmp eqc mh fh ss si hm dg mt mm mu mg mx ex := s in
  mkStats ino cmp eqc mh fh ss (inc64 si) hm dg mt mm mu mg mx ex.

Definition NoHashMatch (s : LinkingStats) : LinkingStats :=
  let 'mkStats ino cmp eqc mh fh ss si hm dg mt mm mu mg mx ex := s in
  mkStats ino cmp eqc mh fh ss si (inc64 hm) dg mt mm mu mg mx ex.

(** [Results.computedDigest]: [DigestComputedCount += 1]. *)
Definition computedDigest (s : LinkingStats) : LinkingStats :=
  let 'mkStats ino cmp eqc mh fh ss si hm dg mt mm mu mg mx ex := s in
  mkStats ino cmp eqc mh fh ss si hm (inc64 dg) mt mm mu mg mx ex.

(** Modelled from the spec: the five [FoundMismatched...] methods and
    [FoundExistingLink] of the statistics are called by fsdev.go but are
    not among the sources; each is taken to bump its counter (§4.4, §4.8),
    and an existing link to be recorded in discovery order. *)
Definition FoundMismatchedMtime (s : LinkingStats) : LinkingStats :=
  let 'mkStats ino cmp eqc mh fh ss si hm dg mt mm mu mg mx ex := s in
  mkStats ino cmp eqc mh fh ss si hm dg (inc64 mt) mm mu mg mx ex.

Definition FoundMismatchedMode (s : LinkingStats) : LinkingStats :=
  let 'mkStats ino cmp eqc mh fh ss si hm dg mt mm mu mg mx ex := s in
  mkStats ino cmp eqc mh fh ss si hm dg mt (inc64 mm) mu mg mx ex.

Definition FoundMismatchedUid (s : LinkingStats) : LinkingStats :=
  let 'mkStats ino cmp eqc mh fh ss si hm dg mt mm mu mg mx ex := s in
  mkStats ino cmp eqc mh fh ss si hm dg mt mm (inc64 mu) mg mx ex.

Definition FoundMismatchedGid (s : LinkingStats) : LinkingStats :=
  let 'mkStats ino cmp eqc mh fh ss si hm dg mt mm mu mg mx ex := s in
  mkStats ino cmp eqc mh fh ss si hm dg mt mm mu (inc64 mg) mx ex.

Definition FoundMismatchedXattr (s : LinkingStats) : LinkingStats :=
  let 'mkStats ino cmp eqc mh fh ss si hm dg mt mm mu mg mx ex := s in
  mkStats ino cmp eqc mh fh ss si hm dg mt mm mu mg (inc64 mx) ex.

Definition FoundExistingLink (e : ExistingLink) (s : LinkingStats) : LinkingStats :=
  let 'mkStats ino cmp eqc mh fh ss si hm dg mt mm mu mg mx ex := s in
  mkStats ino cmp eqc mh fh ss si hm dg mt mm mu mg mx (ex ++ [e]).

(** ** Package main: options and the outside world *)

(** Modelled from the spec: the [Options] struct of package main is not
    among the sources; these are the fields fsdev.go reads from
    [MyOptions] (§6: the ignore flags, [ContentOnly], the search
    threshold, an [int], -1 disabling digests). *)
Record MainOptions := {
  IgnoreTime : bool;
  IgnorePerms : bool;
  IgnoreOwner : bool;
  IgnoreXattr : bool;
  ContentOnly : bool;
  LinearSearchThresh : Z
}.

(** What the run depends on and does not change: the options, the
    iteration orders of the Go runtime, and the file system.
    [areFileContentsEqual], [equalXAttrs], [SplitPathname] and
    [Pathsplit.Join] are functions of the repository that are not among
    the sources; they are parameters here.  [equalXAttrs] returns the
    comparison and whether it failed ([err != nil]). *)
Record Env := {
  MyOptions : MainOptions;
  order : SliceOrder;
  ranges : RangeOrder;
  os_Open : string → option (list Byte.byte);
  areFileContentsEqual : string → string → bool;
  equalXAttrs : string → string → bool * bool;
  SplitPathname : string → Pathsplit;
  Join : Pathsplit → string
}.

(** ** Package main: the content digest (digest.go) *)

Definition bufSize : nat := Z.to_nat 8192.

(** [f.Read(buf)] on a regular file just opened: [io.EOF] when the file
    is empty, else the first [min (len buf) (len content)] bytes land at
    the start of [buf] and the rest of [buf] is untouched. *)
Definition file_Read (content buf : list Byte.byte) : option (nat * list Byte.byte) :=
  match content with
  | [] => None
  | _ => let n := Nat.min (length buf) (length content) in
         Some (n, take n content ++ drop n buf)
  end.

Definition contentDigest (E : Env) (pathname : string) (st : LinkingStats)
  : option Z * LinkingStats :=
  match os_Open E pathname with
  | None => (None, st)
  | Some content =>
    let buf := replicate bufSize Byte.x00 in
    match file_Read content buf with
    | None => (None, st)
    | Some (_, buf) =>
      let st := computedDigest st in
      (Some (fnv32a buf), st)
    end
  end.

(** ** Package main: the per-device state (fsdev.go) *)

Record FSDev := mkFSDev {
  Dev : Z;
  MaxNLinks : Z;
  InoHashes : gmap Z (gset Z);
  InoStatInfo : gmap Z StatInfo;
  InoPaths : gmap Z (gmap string (list Pathsplit));
  LinkedInos : gmap Z (gset Z);
  DigestIno : gmap Z (gset Z);
  InosWithDigest : gset Z
}.

Definition NewFSDev (dev maxNLinks : Z) : FSDev :=
  mkFSDev dev maxNLinks ∅ ∅ ∅ ∅ ∅ ∅.

Definition set_InoHashes (v : gmap Z (gset Z)) (f : FSDev) : FSDev :=
  mkFSDev (Dev f) (MaxNLinks f) v (InoStatInfo f) (InoPaths f)
          (LinkedInos f) (DigestIno f) (InosWithDigest f).

Definition set_InoStatInfo (v : gmap Z StatInfo) (f : FSDev) : FSDev :=
  mkFSDev (Dev f) (MaxNLinks f) (InoHashes f) v (InoPaths f)
          (LinkedInos f) (DigestIno f) (InosWithDigest f).

Definition set_InoPaths (v : gmap Z (gmap string (list Pathsplit))) (f : FSDev) : FSDev :=
  mkFSDev (Dev f) (MaxNLinks f) (InoHashes f) (InoStatInfo f) v
          (LinkedInos f) (DigestIno f) (InosWithDigest f).

Definition set_LinkedInos (v : gmap Z (gset Z)) (f : FSDev) : FSDev :=
  mkFSDev (Dev f) (MaxNLinks f) (InoHashes f) (InoStatInfo f) (InoPaths f)
          v (DigestIno f) (InosWithDigest f).

Definition set_Digests (d : gmap Z (gset Z)) (w : gset Z) (f : FSDev) : FSDev :=
  mkFSDev (Dev f) (MaxNLinks f) (InoHashes f) (InoStatInfo f) (InoPaths f)
          (LinkedInos f) d w.

(** [m[k]] on a map of sets: the nil set when there is no entry. *)
Definition setAt (m : gmap Z (gset Z)) (k : Z) : gset Z := default ∅ (m !! k).

(** [f.InoStatInfo[ino]]: the zero value when there is no entry. *)
Definition statAt (f : FSDev) (ino : Z) : StatInfo :=
  default zeroStatInfo (InoStatInfo f !! ino).

(** ** InoHash *)

Definition InoHash (stat : StatInfo) (opt : MainOptions) : Z :=
  let size := wrap 64 (Size stat) in
  if IgnoreTime opt || ContentOnly opt then size
  else Z.lxor (Z.lxor size (wrap 64 (Sec stat))) (wrap 64 (Nsec stat)).

Definition EqualTime (s1 s2 : PathStat) : bool :=
  (Sec (psStat s1) =? Sec (psStat s2)) && (Nsec (psStat s1) =? Nsec (psStat s2)).

Definition EqualMode (s1 s2 : PathStat) : bool :=
  Mode (psStat s1) =? Mode (psStat s2).

Definition EqualOwnership (s1 s2 : PathStat) : bool :=
  (Uid (psStat s1) =? Uid (psStat s2)) && (Gid (psStat s1) =? Gid (psStat s2)).

(** ** Digest bookkeeping *)

Definition helperPathStatDigest (fs : FSDev) (ps : PathStat) (digest : Z) : FSDev :=
  let ino := Ino (psStat ps) in
  let d := match DigestIno fs !! digest with
           | None => <[digest := {[ino]}]> (DigestIno fs)
           | Some set => <[digest := set ∪ {[ino]}]> (DigestIno fs)
           end in
  set_Digests d (InosWithDigest fs ∪ {[ino]}) fs.

Definition addPathStatDigest (fs : FSDev) (ps : PathStat) (digest : Z) : FSDev :=
  if decide (Ino (psStat ps) ∈ InosWithDigest fs) then fs
  else helperPathStatDigest fs ps digest.

Definition newPathStatDigest (E : Env) (fs : FSDev) (st : LinkingStats) (ps : PathStat)
  : FSDev * LinkingStats :=
  if decide (Ino (psStat ps) ∈ InosWithDigest fs) then (fs, st)
  else
    let pathname := Join E (psPath ps) in
    match contentDigest E pathname st with
    | (Some digest, st) => (helperPathStatDigest fs ps digest, st)
    | (None, st) => (fs, st)
    end.

(** ** Paths of an inode *)

Definition pathsAt (f : FSDev) (ino : Z) : gmap string (list Pathsplit) :=
  default ∅ (InoPaths f !! ino).

Definition ArbitraryPath (E : Env) (f : FSDev) (ino : Z) : Outcome Pathsplit :=
  match rangeOf (ranges E) (pathsAt f ino) with
  | (_, v) :: _ =>
    match v with
    | p :: _ => Done p
    | [] => Panic "index out of range"
    end
  | [] => Panic "Unexpected empty filenamePaths in ArbitraryPath()"
  end.

Definition ArbitraryFilenamePath (f : FSDev) (ino : Z) (filename : string)
  : Outcome Pathsplit :=
  match default [] (pathsAt f ino !! filename) with
  | p :: _ => Done p
  | [] => Panic "index out of range"
  end.

Definition InoAppendPathname (f : FSDev) (ino : Z) (pathsplit : Pathsplit) : FSDev :=
  let filename := Filename pathsplit in
  let filenamePaths := pathsAt f ino in
  let paths := default [] (filenamePaths !! filename) in
  let paths := paths ++ [pathsplit] in
  let filenamePaths := <[filename := paths]> filenamePaths in
  set_InoPaths (<[ino := filenamePaths]> (InoPaths f)) f.

Definition PathStatFromIno (E : Env) (f : FSDev) (ino : Z) : Outcome PathStat :=
  pathsplit ← ArbitraryPath E f ino;
  Done {| psPath := pathsplit; psStat := statAt f ino |}.

(** ** The graph of linkable inodes *)

Definition addLinked (m : gmap Z (gset Z)) (ino1 ino2 : Z) : gmap Z (gset Z) :=
  match m !! ino1 with
  | None => <[ino1 := {[ino2]}]> m
  | Some inoSet1 => <[ino1 := inoSet1 ∪ {[ino2]}]> m
  end.

Definition addLinkableInos (f : FSDev) (ino1 ino2 : Z) : FSDev :=
  set_LinkedInos (addLinked (addLinked (LinkedInos f) ino1 ino2) ino2 ino1) f.

(** [pending[len(pending)-1]] and [pending[:len(pending)-1]]. *)
Definition popLast {A} (l : list A) : option (list A * A) :=
  match last l with
  | Some x => Some (removelast l, x)
  | None => None
  end.

(** The worklist loop of [linkedInoSet].  Every turn pops one pending
    inode; [fuel] bounds the turns. *)
Fixpoint linkedLoop (o : SliceOrder) (fuel : nat) (remainingInos : gmap Z (gset Z))
    (pending : list Z) (resultSet : gset Z) : Outcome (gset Z) :=
  match popLast pending with
  | None => Done resultSet
  | Some (pending, ino) =>
    match fuel with
    | O => OutOfFuel
    | S fuel =>
      let resultSet := resultSet ∪ {[ino]} in
      match remainingInos !! ino with
      | Some linkedInos =>
        linkedLoop o fuel (delete ino remainingInos) (pending ++ o linkedInos) resultSet
      | None => linkedLoop o fuel remainingInos pending resultSet
      end
    end
  end.

(** One turn per pending inode; an inode's neighbours are pushed once,
    when its entry is deleted. *)
Definition linkWork (m : gmap Z (gset Z)) : nat :=
  sum_list_with (λ kv, S (size kv.2)) (map_to_list m).

Definition linkedInoSet (E : Env) (f : FSDev) (ino : Z) : Outcome (gset Z) :=
  match LinkedInos f !! ino with
  | None => Done {[ino]}
  | Some _ =>
    linkedLoop (order E) (S (linkWork (LinkedInos f))) (LinkedInos f) [ino] ∅
  end.

(** ** The hardlinkability predicate *)

Definition areFilesHardlinkable (E : Env) (fs : FSDev) (st : LinkingStats)
    (ps1 ps2 : PathStat) (useDigest : bool) : bool * FSDev * LinkingStats :=
  let opt := MyOptions E in
  let s1 := psStat ps1 in
  let s2 := psStat ps2 in
  let p1 := Join E (psPath ps1) in
  let p2 := Join E (psPath ps2) in
  if Ino s1 =? Ino s2 then (false, fs, st)
  else if negb (Size s1 =? Size s2) then (false, fs, st)
  else if negb (ContentOnly opt) &&
          (negb (IgnoreTime opt) && negb (EqualTime ps1 ps2)) then (false, fs, st)
  else if negb (ContentOnly opt) &&
          (negb (IgnorePerms opt) && negb (EqualMode ps1 ps2)) then (false, fs, st)
  else if negb (ContentOnly opt) &&
          (negb (IgnoreOwner opt) && negb (EqualOwnership ps1 ps2)) then (false, fs, st)
  else if negb (ContentOnly opt) &&
          (negb (IgnoreXattr opt) && negb (equalXAttrs E p1 p2).1) then (false, fs, st)
  else
    let '(fs, st) :=
      if useDigest then
        let '(fs, st) := newPathStatDigest E fs st ps1 in
        newPathStatDigest E fs st ps2
      else (fs, st) in
    let st := DidComparison st in
    let eq := areFileContentsEqual E p1 p2 in
    if eq then
      let st := FoundEqualFiles st in
      let st := if negb ((Sec s1 =? Sec s2) && (Nsec s1 =? Nsec s2))
                then FoundMismatchedMtime st else st in
      let st := if negb (Perm (Mode s1) =? Perm (Mode s2))
                then FoundMismatchedMode st else st in
      let st := if negb (Uid s1 =? Uid s2) then FoundMismatchedUid st else st in
      let st := if negb (Gid s1 =? Gid s2) then FoundMismatchedGid st else st in
      let '(eqx, err) := equalXAttrs E p1 p2 in
      let st := if negb err && negb eqx then FoundMismatchedXattr st else st in
      (true, fs, st)
    else (false, fs, st).

(** ** Ingestion: findIdenticalFiles *)

(** [BugIf(cond, msg)]: an assertion, it panics when [cond] holds. *)
Definition BugIf (cond : bool) (msg : string) : Outcome unit :=
  if cond then Panic msg else Done tt.

(** [useDigest]: digests are enabled and the bucket is long enough. *)
Definition useDigestFor (E : Env) (cachedInoSeq : list Z) : bool :=
  (0 <=? LinearSearchThresh (MyOptions E)) &&
  (LinearSearchThresh (MyOptions E) <? Z.of_nat (length cachedInoSeq)).

(** The three sets the escalation splits the bucket into, in the order
    (sameDigestSet, noDigestSet, differentDigestSet). *)
Definition digestSets (f : FSDev) (cachedInoSet : gset Z) (digest : Z)
  : gset Z * gset Z * gset Z :=
  let noDigestSet := cachedInoSet ∖ InosWithDigest f in
  let sameDigestSet := cachedInoSet ∩ setAt (DigestIno f) digest in
  let differentDigestSet := (cachedInoSet ∖ sameDigestSet) ∖ noDigestSet in
  (sameDigestSet, noDigestSet, differentDigestSet).

(** Lines 139-166: the sequence of bucket inodes to search, after the
    escalation to digests when it applies.  Returns the state, the
    sequence and [useDigest]. *)
Definition searchSeq (E : Env) (f : FSDev) (st : LinkingStats)
    (curPathStat : PathStat) (cachedInoSet : gset Z)
  : Outcome (FSDev * LinkingStats * list Z * bool) :=
  let cachedInoSeq := order E cachedInoSet in
  let useDigest := useDigestFor E cachedInoSeq in
  if useDigest then
    match contentDigest E (Join E (psPath curPathStat)) st with
    | (Some digest, st) =>
      let f := addPathStatDigest f curPathStat digest in
      let '(sameDigestSet, noDigestSet, differentDigestSet) :=
        digestSets f cachedInoSet digest in
      let cachedInoSeq := order E sameDigestSet ++ order E noDigestSet in
      _ ← BugIf (bool_decide (Ino (psStat curPathStat) ∈ noDigestSet))
                "New Ino found in noDigestSet";
      _ ← BugIf (bool_decide
                   (sameDigestSet ∩ differentDigestSet ∩ noDigestSet ≠ ∅))
                "Overlapping digest sets";
      Done (f, st, cachedInoSeq, useDigest)
    | (None, st) => Done (f, st, cachedInoSeq, useDigest)
    end
  else Done (f, st, cachedInoSeq, useDigest).

(** Lines 167-176: the search loop.  Returns [loopEndedEarly]. *)
Fixpoint searchLoop (E : Env) (f : FSDev) (st : LinkingStats)
    (cachedInoSeq : list Z) (curPathStat : PathStat) (useDigest : bool)
  : Outcome (bool * FSDev * LinkingStats) :=
  match cachedInoSeq with
  | [] => Done (false, f, st)
  | cachedIno :: rest =>
    let st := IncInoSeqIterations st in
    cachedPathStat ← PathStatFromIno E f cachedIno;
    let '(eq, f, st) := areFilesHardlinkable E f st cachedPathStat curPathStat useDigest in
    if eq then
      Done (true,
            addLinkableInos f (Ino (psStat cachedPathStat)) (Ino (psStat curPathStat)),
            st)
    else searchLoop E f st rest curPathStat useDigest
  end.

Definition findIdenticalFiles (E : Env) (f : FSDev) (st : LinkingStats)
    (devStatInfo : DevStatInfo) (pathname : string)
  : Outcome (FSDev * LinkingStats) :=
  if negb (Dev f =? dsDev devStatInfo) then Panic "Mismatched Dev" else
  let statInfo := dsStat devStatInfo in
  let curPath := SplitPathname E pathname in
  let curPathStat := {| psPath := curPath; psStat := statInfo |} in
  let st := match InoStatInfo f !! Ino statInfo with
            | None => FoundInode st
            | Some _ => st
            end in
  let inoHash := InoHash statInfo (MyOptions E) in
  '(f, st) ←
    match InoHashes f !! inoHash with
    | None =>
      let st := MissedHash st in
      Done (set_InoHashes (<[inoHash := {[Ino statInfo]}]> (InoHashes f)) f, st)
    | Some hashedInos =>
      let st := FoundHash st in
      st ← match InoStatInfo f !! Ino statInfo with
           | Some prevStatinfo =>
             prevPath ← ArbitraryPath E f (Ino statInfo);
             Done (FoundExistingLink
                     {| elSrc := prevPath; elDst := curPath; elStat := prevStatinfo |} st)
           | None => Done st
           end;
      linkedInos ← linkedInoSet E f (Ino statInfo);
      let linkedHashedInos := linkedInos ∩ hashedInos in
      let foundLinkedHashedInos := bool_decide (linkedHashedInos ≠ ∅) in
      if negb foundLinkedHashedInos then
        let st := SearchedInoSeq st in
        let cachedInoSet := hashedInos in
        '(f, st, cachedInoSeq, useDigest) ← searchSeq E f st curPathStat cachedInoSet;
        '(loopEndedEarly, f, st) ← searchLoop E f st cachedInoSeq curPathStat useDigest;
        if negb loopEndedEarly then
          let st := NoHashMatch st in
          let f := set_InoHashes
                     (<[inoHash := setAt (InoHashes f) inoHash ∪ {[Ino statInfo]}]>
                        (InoHashes f)) f in
          let f := set_InoStatInfo (<[Ino statInfo := statInfo]> (InoStatInfo f)) f in
          Done (f, st)
        else Done (f, st)
      else Done (f, st)
    end;
  let f := set_InoStatInfo (<[Ino statInfo := statInfo]> (InoStatInfo f)) f in
  Done (InoAppendPathname f (Ino statInfo) (SplitPathname E pathname), st).

(** ** Package hardlinkable: options (options.go) *)

Module Hardlinkable.

Record Options := mkOptions {
  SameName : bool;
  IgnoreTime : bool;
  IgnorePerm : bool;
  IgnoreOwner : bool;
  IgnoreXAttr : bool;
  LinkingEnabled : bool;
  MinFileSize : Z;
  MaxFileSize : Z;
  DebugLevel : Z;
  UseNewestLink : bool;
  FileIncludes : list string;
  FileExcludes : list string;
  DirExcludes : list string;
  StoreExistingLinkResults : bool;
  StoreNewLinkResults : bool;
  ShowExtendedRunStats : bool;
  ShowRunStats : bool;
  IgnoreWalkErrors : bool;
  IgnoreLinkErrors : bool;
  CheckQuiescence : bool;
  SearchThresh : Z
}.

(** The error [Validate] builds with [fmt.Errorf]: it carries the two
    sizes it prints. *)
Inductive ValidateError :=
| MinLargerThanMax (minFileSize maxFileSize : Z).

(** [Validate] has a pointer receiver: it returns its error and leaves
    the options it was called on in the second component. *)
Definition Validate (o : Options) : option ValidateError * Options :=
  if (0 <? MaxFileSize o) && (MaxFileSize o <? MinFileSize o) then
    (Some (MinLargerThanMax (MinFileSize o) (MaxFileSize o)), o)
  else
    let 'mkOptions sn it ip io ix le mn mx dl un fi fe de se sl sx sr iw il cq th := o in
    let sr := if sx then true else sr in
    let cq := if le then true else cq in
    (None, mkOptions sn it ip io ix le mn mx dl un fi fe de se sl sx sr iw il cq th).

(** A [uint64] field holds a value in range. *)
Definition sizesInRange (o : Options) : Prop :=
  0 ≤ MinFileSize o < 2 ^ 64 ∧ 0 ≤ MaxFileSize o < 2 ^ 64.

(** ** Package hardlinkable: results (results.go) *)

(** The fields of [Results] the planner writes, with the option
    ([Opts.newLinkStatsEnabled]) that gates the storing of new links. *)
Record Results := mkResults {
  newLinkStatsEnabled : bool;
  LinkPaths : list (list string);
  NewLinkCount : Z;
  InodeRemovedByteAmount : Z;
  InodeRemovedCount : Z
}.

Definition newResults (newLinkStats : bool) : Results :=
  mkResults newLinkStats [] 0 0 0.

Definition foundNewLink (join : Pathsplit → string) (r : Results) (srcP dstP : Pathsplit)
  : Outcome Results :=
  paths ←
    (if newLinkStatsEnabled r then
       let src := join srcP in
       let dst := join dstP in
       match popLast (LinkPaths r) with
       | None => Done [[src; dst]]
       | Some (init, lastGroup) =>
         match lastGroup with
         | [] => Panic "index out of range"
         | prevSrc :: _ =>
           if String.eqb src prevSrc then Done (init ++ [lastGroup ++ [dst]])
           else Done (LinkPaths r ++ [[src; dst]])
         end
       end
     else Done (LinkPaths r));
  Done (mkResults (newLinkStatsEnabled r) paths (inc64 (NewLinkCount r))
                  (InodeRemovedByteAmount r) (InodeRemovedCount r)).

Definition foundRemovedInode (r : Results) (size : Z) : Results :=
  mkResults (newLinkStatsEnabled r) (LinkPaths r) (NewLinkCount r)
            (wrap 64 (InodeRemovedByteAmount r + size)) (inc64 (InodeRemovedCount r)).

(** ** Package hardlinkable: the link planner (linkedinos.go) *)

Record inoNlink := { inIno : Z; inNlink : Z }.

Definition byNlink_Less (a b : inoNlink) : bool :=
  (inNlink a <? inNlink b) || ((inNlink a =? inNlink b) && (inIno b <? inIno a)).

(** [sort.Reverse]: the order with [Less] flipped. *)
Definition sort_Reverse {A} (less : A → A → bool) : A → A → bool :=
  λ i j, less j i.

(** [sort.Sort] (Go standard library): ascending by [less], that is, no
    element is [less] than one before it.  Go's algorithm is not stable;
    a merge sort stands for it, and [sorted_by_less_unique] below shows
    that under [byNlink]'s order every sorting algorithm returns the same
    sequence. *)
Definition notAfter {A} (less : A → A → bool) : relation A :=
  λ x y, less y x = false.

#[global] Instance notAfter_dec {A} (less : A → A → bool) x y :
  Decision (notAfter less x y).
Proof. unfold notAfter. apply _. Defined.

Definition sort_Sort {A} (less : A → A → bool) (l : list A) : list A :=
  merge_sort (notAfter less) l.

Definition sortSetByNlink (o : SliceOrder) (f : FSDev) (inoSet : gset Z) : list Z :=
  let seq := (λ ino, {| inIno := ino; inNlink := Nlink (statAt f ino) |}) <$> o inoSet in
  let seq := sort_Sort (sort_Reverse byNlink_Less) seq in
  inIno <$> seq.

(** Reverse fromS and append to toS. *)
Definition appendReversedInos (toS fromS : list Z) : list Z := toS ++ rev fromS.

Record PathInfoPair := { Src : PathStat; Dst : PathStat }.

(** [allInoPaths]: the paths of [ino] at the time of the call, filename
    by filename. *)
Definition allInoPaths (E : Env) (f : FSDev) (ino : Z) : list Pathsplit :=
  mjoin (snd <$> rangeOf (ranges E) (pathsAt f ino)).

(** Remove the first [ps == dstPath] of [p]. *)
Fixpoint removeFirst (dstPath : Pathsplit) (p : list Pathsplit) : list Pathsplit :=
  match p with
  | [] => []
  | ps :: rest => if decide (ps = dstPath) then rest else ps :: removeFirst dstPath rest
  end.

Definition moveLinkedPath (fs : FSDev) (dstPath : Pathsplit) (srcIno dstIno : Z) : FSDev :=
  let p := default [] (pathsAt fs dstIno !! Filename dstPath) in
  let p := removeFirst dstPath p in
  let fs :=
    if (length p =? 0)%nat
    then set_InoPaths (alter (delete (Filename dstPath)) dstIno (InoPaths fs)) fs
    else set_InoPaths (alter (<[Filename dstPath := p]>) dstIno (InoPaths fs)) fs in
  InoAppendPathname fs srcIno dstPath.

Definition setNlink (si : StatInfo) (n : Z) : StatInfo :=
  {| Size := Size si; Ino := Ino si; Sec := Sec si; Nsec := Nsec si;
     Nlink := n; Uid := Uid si; Gid := Gid si; Mode := Mode si |}.

(** Lines 113-145: the loop over the paths of the destination inode.
    [srcSI] and [dstSI] are the loop's local copies of the two stat
    records. *)
Fixpoint linkDstPaths (E : Env) (sameName : bool) (srcIno dstIno : Z)
    (dstPaths : list Pathsplit) (srcSI dstSI : StatInfo)
    (f : FSDev) (r : Results) (out : list PathInfoPair)
  : Outcome (FSDev * Results * list PathInfoPair) :=
  match dstPaths with
  | [] => Done (f, r, out)
  | dstPath :: rest =>
    choice ←
      (if sameName then
         let srcPaths := pathsAt f srcIno in
         let dstFilename := Filename dstPath in
         match srcPaths !! dstFilename with
         | None => Done None
         | Some _ =>
           srcPath ← ArbitraryFilenamePath f srcIno dstFilename; Done (Some srcPath)
         end
       else srcPath ← ArbitraryPath E f srcIno; Done (Some srcPath));
    match choice with
    | None => linkDstPaths E sameName srcIno dstIno rest srcSI dstSI f r out
    | Some srcPath =>
      let srcPathInfo := {| psPath := srcPath; psStat := srcSI |} in
      let dstPathInfo := {| psPath := dstPath; psStat := dstSI |} in
      let out := out ++ [{| Src := srcPathInfo; Dst := dstPathInfo |}] in
      r ← foundNewLink (Join E) r srcPath dstPath;
      let srcSI := setNlink srcSI (wrap 32 (Nlink srcSI + 1)) in
      let dstSI := setNlink dstSI (wrap 32 (Nlink dstSI - 1)) in
      let f := set_InoStatInfo (<[srcIno := srcSI]> (InoStatInfo f)) f in
      let '(f, r) :=
        if Nlink dstSI =? 0
        then (set_InoStatInfo (delete dstIno (InoStatInfo f)) f,
              foundRemovedInode r (Size dstSI))
        else (set_InoStatInfo (<[dstIno := dstSI]> (InoStatInfo f)) f, r) in
      let f := moveLinkedPath f dstPath srcIno dstIno in
      linkDstPaths E sameName srcIno dstIno rest srcSI dstSI f r out
    end
  end.

(** Modelled from the spec: [FilenamePaths.IsEmpty] is not among the
    sources; the inode "still has paths recorded" (§4.6) when its map of
    filenames has an entry. *)
Definition IsEmpty (fp : gmap string (list Pathsplit)) : bool := bool_decide (fp = ∅).

(** Lines 96-154: the loop over destination inodes for one source.
    Returns [sortedInos] and [remainingInos] as the loop leaves them. *)
Fixpoint dstLoop (E : Env) (sameName : bool) (fuel : nat) (srcIno : Z)
    (sortedInos remainingInos : list Z)
    (f : FSDev) (r : Results) (out : list PathInfoPair)
  : Outcome (list Z * list Z * FSDev * Results * list PathInfoPair) :=
  match popLast sortedInos with
  | None => Done (sortedInos, remainingInos, f, r, out)
  | Some (sortedInos, dstIno) =>
    match fuel with
    | O => OutOfFuel
    | S fuel =>
      let srcSI := statAt f srcIno in
      let dstSI := statAt f dstIno in
      let sum := wrap 64 (wrap 64 (Nlink srcSI) + wrap 64 (Nlink dstSI)) in
      if MaxNLinks f <? sum then
        let remainingInos := remainingInos ++ [dstIno] in
        let remainingInos := appendReversedInos remainingInos sortedInos in
        Done ([], remainingInos, f, r, out)
      else
        let dstPaths := allInoPaths E f dstIno in
        '(f, r, out) ←
          linkDstPaths E sameName srcIno dstIno dstPaths srcSI dstSI f r out;
        let remainingInos :=
          match InoPaths f !! dstIno with
          | Some fp => if negb (IsEmpty fp) then remainingInos ++ [dstIno]
                       else remainingInos
          | None => remainingInos
          end in
        dstLoop E sameName fuel srcIno sortedInos remainingInos f r out
    end
  end.

(** Lines 86-155: the outer loop, one source inode a turn. *)
Fixpoint sendLoop (E : Env) (sameName : bool) (fuel : nat)
    (sortedInos remainingInos : list Z)
    (f : FSDev) (r : Results) (out : list PathInfoPair)
  : Outcome (FSDev * Results * list PathInfoPair) :=
  if (length sortedInos =? 0)%nat && (length remainingInos =? 0)%nat
  then Done (f, r, out)
  else
    match fuel with
    | O => OutOfFuel
    | S fuel =>
      let '(sortedInos, remainingInos) :=
        if (0 <? length remainingInos)%nat
        then (appendReversedInos sortedInos remainingInos, [])
        else (sortedInos, remainingInos) in
      match sortedInos with
      | [] => Panic "index out of range"
      | srcIno :: sortedInos =>
        '(sortedInos, remainingInos, f, r, out) ←
          dstLoop E sameName (length sortedInos) srcIno sortedInos remainingInos f r out;
        sendLoop E sameName fuel sortedInos remainingInos f r out
      end
    end.

(** [sendLinkedPairs]; the pairs sent on [out] are returned in order.
    Every turn of the outer loop retires its source inode, so as many
    turns as there are inodes suffice. *)
Definition sendLinkedPairs (E : Env) (sameName : bool) (f : FSDev) (r : Results)
    (sortedInos : list Z) : Outcome (FSDev * Results * list PathInfoPair) :=
  sendLoop E sameName (length sortedInos) sortedInos [] f r [].

End Hardlinkable.

(** * Concrete inputs

    A small world for the examples: every path opens and holds the one
    byte 'a', all contents and xattrs compare equal, and a pathname is
    kept whole as its filename. *)

Definition demoOptions (thresh : Z) : MainOptions :=
  {| IgnoreTime := false; IgnorePerms := false; IgnoreOwner := false;
     IgnoreXattr := false; ContentOnly := false; LinearSearchThresh := thresh |}.

Definition demoEnv (thresh : Z) : Env :=
  {| MyOptions := demoOptions thresh;
     order := canonicalSlice;
     ranges := canonicalRange;
     os_Open := λ _, Some [Byte.x61];
     areFileContentsEqual := λ _ _, true;
     equalXAttrs := λ _ _, (true, false);
     SplitPathname := λ p, {| Dirname := ""; Filename := p |};
     Join := λ ps, Dirname ps +:+ Filename ps |}.

(** A one-byte file with inode number [ino] on device 7. *)
Definition demoStat (ino : Z) : DevStatInfo :=
  {| dsDev := 7;
     dsStat := {| Size := 1; Ino := ino; Sec := 5; Nsec := 0;
                  Nlink := 1; Uid := 0; Gid := 0; Mode := 420 |} |}.

(** * The content digest *)

Lemma file_Read_fresh_buffer content :
  content ≠ [] →
  file_Read content (replicate bufSize Byte.x00) =
    Some (Nat.min bufSize (length content),
          take bufSize content ++ replicate (bufSize - length content) Byte.x00).
Proof.
  intros Hne. unfold file_Read. destruct content as [|c content]; [done|].
  rewrite length_replicate. f_equal. f_equal.
  rewrite drop_replicate.
  destruct (Nat.le_ge_cases bufSize (length (c :: content))) as [Hle|Hle].
  - rewrite Nat.min_l by done. do 2 f_equal. lia.
  - rewrite Nat.min_r by done. rewrite !take_ge by lia. done.
Qed.

(** C2, as the code has it: the digest is the FNV-1a hash of the whole
    8192-byte read buffer.  That is the file's first 8 KiB when it has
    that many bytes; a shorter, non-empty file is hashed together with the
    zero bytes that fill the buffer up to 8192; an empty file ([Read]
    returns [io.EOF]) and a file that does not open give an error and no
    digest. *)
Theorem contentDigest_hashes_whole_buffer E pathname st :
  (contentDigest E pathname st).1 =
    match os_Open E pathname with
    | None => None
    | Some [] => None
    | Some content =>
      Some (fnv32a (take bufSize content ++
                    replicate (bufSize - length content) Byte.x00))
    end
  ∧ (∀ content, os_Open E pathname = Some content →
       (bufSize ≤ length content)%nat →
       (contentDigest E pathname st).1 = Some (fnv32a (take bufSize content))).
Proof.
  assert (Hmain : (contentDigest E pathname st).1 =
    match os_Open E pathname with
    | None => None
    | Some [] => None
    | Some content =>
      Some (fnv32a (take bufSize content ++
                    replicate (bufSize - length content) Byte.x00))
    end).
  { unfold contentDigest. destruct (os_Open E pathname) as [content|]; [|done].
    destruct content as [|c content]; [done|].
    rewrite file_Read_fresh_buffer by done. done. }
  split; [exact Hmain|].
  intros content Hopen Hlen. rewrite Hmain, Hopen.
  destruct content as [|c content].
  - simpl in Hlen. unfold bufSize in Hlen. lia.
  - replace (bufSize - length (c :: content))%nat with 0%nat by lia.
    simpl replicate. by rewrite app_nil_r.
Qed.

(** C2 as stated fails: a one-byte file is not hashed as its one byte. *)
Lemma contentDigest_short_file_not_prefix_hash :
  (contentDigest (demoEnv 1) "/a" NewLinkingStats).1
    ≠ Some (fnv32a (take bufSize [Byte.x61])).
Proof. vm_compute. intros [=]. Qed.

Definition bigFile : list Byte.byte := replicate (bufSize + 1) Byte.x61.

Lemma contentDigest_whole_buffer_witness :
  let E := {| MyOptions := demoOptions 1; order := canonicalSlice;
              ranges := canonicalRange; os_Open := λ _, Some bigFile;
              areFileContentsEqual := λ _ _, true;
              equalXAttrs := λ _ _, (true, false);
              SplitPathname := λ p, {| Dirname := ""; Filename := p |};
              Join := λ ps, Dirname ps +:+ Filename ps |} in
  (contentDigest E "/big" NewLinkingStats).1 = Some (fnv32a (take bufSize bigFile)).
Proof.
  intros E.
  apply (proj2 (contentDigest_hashes_whole_buffer E "/big" NewLinkingStats) bigFile).
  - reflexivity.
  - unfold bigFile. rewrite length_replicate. lia.
Defined.

(** * The metadata hash and the hardlinkability predicate *)

Lemma areFilesHardlinkable_true E fs st ps1 ps2 useDigest :
  (areFilesHardlinkable E fs st ps1 ps2 useDigest).1.1 = true →
  let o := MyOptions E in
  Ino (psStat ps1) ≠ Ino (psStat ps2) ∧
  Size (psStat ps1) = Size (psStat ps2) ∧
  (ContentOnly o = false → IgnoreTime o = false →
     Sec (psStat ps1) = Sec (psStat ps2) ∧ Nsec (psStat ps1) = Nsec (psStat ps2)) ∧
  (ContentOnly o = false → IgnorePerms o = false →
     Mode (psStat ps1) = Mode (psStat ps2)) ∧
  (ContentOnly o = false → IgnoreOwner o = false →
     Uid (psStat ps1) = Uid (psStat ps2) ∧ Gid (psStat ps1) = Gid (psStat ps2)) ∧
  areFileContentsEqual E (Join E (psPath ps1)) (Join E (psPath ps2)) = true.
Proof.
  unfold areFilesHardlinkable.
  repeat match goal with
         | |- (if ?c then (false, _, _) else _).1.1 = true → _ =>
           let Hc := fresh "Hc" in destruct c eqn:Hc; [done|]
         end.
  intros Hrun; cbn zeta.
  apply Z.eqb_neq in Hc. apply negb_false_iff, Z.eqb_eq in Hc0.
  split_and!; try done.
  - intros Hco Hit. rewrite Hco, Hit in Hc1. cbn in Hc1.
    apply negb_false_iff, andb_true_iff in Hc1. unfold EqualTime in Hc1. lia.
  - intros Hco Hip. rewrite Hco, Hip in Hc2. cbn in Hc2.
    apply negb_false_iff in Hc2. unfold EqualMode in Hc2. lia.
  - intros Hco Hio. rewrite Hco, Hio in Hc3. cbn in Hc3.
    apply negb_false_iff, andb_true_iff in Hc3. unfold EqualOwnership in Hc3. lia.
  - revert Hrun.
    destruct useDigest;
      [ destruct (newPathStatDigest E fs st ps1) as [fs1 st1];
        destruct (newPathStatDigest E fs1 st1 ps2) as [fs2 st2] | ];
      destruct (areFileContentsEqual E (Join E (psPath ps1)) (Join E (psPath ps2)));
      done.
Qed.

(** C6: two files the predicate accepts have equal metadata hashes, for
    the hash of fsdev.go and for [inode.HashIno] under the same ignore
    flags ([ContentOnly] standing for all of them, as its setter has it). *)
Theorem hardlinkable_files_have_equal_hashes E fs st ps1 ps2 useDigest :
  (areFilesHardlinkable E fs st ps1 ps2 useDigest).1.1 = true →
  let o := MyOptions E in
  InoHash (psStat ps1) o = InoHash (psStat ps2) o ∧
  Inode.HashIno (psStat ps1) (IgnoreTime o || ContentOnly o)
      (IgnorePerms o || ContentOnly o) (IgnoreOwner o || ContentOnly o)
  = Inode.HashIno (psStat ps2) (IgnoreTime o || ContentOnly o)
      (IgnorePerms o || ContentOnly o) (IgnoreOwner o || ContentOnly o).
Proof.
  intros H o. apply areFilesHardlinkable_true in H.
  destruct H as (_ & Hsize & Htime & Hmode & Hown & _). fold o in Htime, Hmode, Hown.
  unfold InoHash, Inode.HashIno, Inode.UnixNano64.
  destruct (ContentOnly o), (IgnoreTime o), (IgnorePerms o), (IgnoreOwner o);
    cbn [negb orb]; rewrite ?Hsize; try done;
    repeat match goal with
           | H : false = false → _ |- _ => specialize (H eq_refl)
           end;
    repeat match goal with
           | H : _ ∧ _ |- _ => destruct H
           end;
    split; congruence.
Qed.

Lemma hardlinkable_equal_hashes_witness :
  let ps ino p := {| psPath := {| Dirname := ""; Filename := p |};
                     psStat := dsStat (demoStat ino) |} in
  InoHash (psStat (ps 1 "/a")) (demoOptions 1) = InoHash (psStat (ps 2 "/b")) (demoOptions 1) ∧
  Inode.HashIno (psStat (ps 1 "/a")) false false false
  = Inode.HashIno (psStat (ps 2 "/b")) false false false.
Proof.
  intros ps.
  apply (hardlinkable_files_have_equal_hashes (demoEnv 1) (NewFSDev 7 100)
           NewLinkingStats (ps 1 "/a") (ps 2 "/b") false).
  reflexivity.
Defined.

(** * Options.Validate *)

(** C8: [Validate] fails exactly when [MaxFileSize] is non-zero and below
    [MinFileSize]; when it fails the options are left as they were; when
    it succeeds [CheckQuiescence] is on if [LinkingEnabled] is (and
    [ShowRunStats] if [ShowExtendedRunStats] is), and no other field
    changes. *)
Theorem Validate_error_iff_and_normalises (o : Hardlinkable.Options) :
  Hardlinkable.sizesInRange o →
  let err := (Hardlinkable.Validate o).1 in
  let o' := (Hardlinkable.Validate o).2 in
  (is_Some err ↔
     Hardlinkable.MaxFileSize o ≠ 0 ∧
     Hardlinkable.MaxFileSize o < Hardlinkable.MinFileSize o) ∧
  (is_Some err → o' = o) ∧
  (err = None →
     (Hardlinkable.LinkingEnabled o = true → Hardlinkable.CheckQuiescence o' = true) ∧
     Hardlinkable.CheckQuiescence o' =
       Hardlinkable.LinkingEnabled o || Hardlinkable.CheckQuiescence o ∧
     Hardlinkable.ShowRunStats o' =
       Hardlinkable.ShowExtendedRunStats o || Hardlinkable.ShowRunStats o ∧
     Hardlinkable.SameName o' = Hardlinkable.SameName o ∧
     Hardlinkable.IgnoreTime o' = Hardlinkable.IgnoreTime o ∧
     Hardlinkable.IgnorePerm o' = Hardlinkable.IgnorePerm o ∧
     Hardlinkable.IgnoreOwner o' = Hardlinkable.IgnoreOwner o ∧
     Hardlinkable.IgnoreXAttr o' = Hardlinkable.IgnoreXAttr o ∧
     Hardlinkable.LinkingEnabled o' = Hardlinkable.LinkingEnabled o ∧
     Hardlinkable.MinFileSize o' = Hardlinkable.MinFileSize o ∧
     Hardlinkable.MaxFileSize o' = Hardlinkable.MaxFileSize o ∧
     Hardlinkable.DebugLevel o' = Hardlinkable.DebugLevel o ∧
     Hardlinkable.UseNewestLink o' = Hardlinkable.UseNewestLink o ∧
     Hardlinkable.FileIncludes o' = Hardlinkable.FileIncludes o ∧
     Hardlinkable.FileExcludes o' = Hardlinkable.FileExcludes o ∧
     Hardlinkable.DirExcludes o' = Hardlinkable.DirExcludes o ∧
     Hardlinkable.StoreExistingLinkResults o' = Hardlinkable.StoreExistingLinkResults o ∧
     Hardlinkable.StoreNewLinkResults o' = Hardlinkable.StoreNewLinkResults o ∧
     Hardlinkable.ShowExtendedRunStats o' = Hardlinkable.ShowExtendedRunStats o ∧
     Hardlinkable.IgnoreWalkErrors o' = Hardlinkable.IgnoreWalkErrors o ∧
     Hardlinkable.IgnoreLinkErrors o' = Hardlinkable.IgnoreLinkErrors o ∧
     Hardlinkable.SearchThresh o' = Hardlinkable.SearchThresh o).
Proof.
  intros [_ [Hmax _]] err o'. subst err o'. unfold Hardlinkable.Validate.
  destruct (0 <? Hardlinkable.MaxFileSize o) eqn:Hpos;
    destruct (Hardlinkable.MaxFileSize o <? Hardlinkable.MinFileSize o) eqn:Hlt;
    cbn [andb];
    [ apply Z.ltb_lt in Hpos | apply Z.ltb_lt in Hpos
    | apply Z.ltb_ge in Hpos | apply Z.ltb_ge in Hpos ];
    [ apply Z.ltb_lt in Hlt | apply Z.ltb_ge in Hlt
    | apply Z.ltb_lt in Hlt | apply Z.ltb_ge in Hlt ].
  1: { cbn [fst snd]. split_and!; [split; [intros _; lia | eauto] | done | done]. }
  all: destruct o; cbn [fst snd] in *;
    (split_and!; [split; [intros [? [=]] | lia] | intros [? [=]] | ]);
    intros _; cbn;
    repeat match goal with |- context [if ?b then _ else _] => destruct b end;
    split_and!; done.
Qed.

Lemma Validate_witness :
  let o := Hardlinkable.mkOptions false false false false false true 10 5 0 true
             [] [] [] true true false true false false false 1 in
  is_Some (Hardlinkable.Validate o).1 ∧ (Hardlinkable.Validate o).2 = o.
Proof.
  intros o.
  assert (Hr : Hardlinkable.sizesInRange o) by (unfold Hardlinkable.sizesInRange; cbn; lia).
  destruct (Validate_error_iff_and_normalises o Hr) as (Herr & Hsame & _).
  assert (He : is_Some (Hardlinkable.Validate o).1) by (apply Herr; cbn; lia).
  split; [exact He | exact (Hsame He)].
Defined.

(** * Results.foundNewLink *)

(** Any sequence of [foundNewLink] calls, in order. *)
Fixpoint recordLinks (join : Pathsplit → string) (r : Hardlinkable.Results)
    (links : list (Pathsplit * Pathsplit)) : Outcome Hardlinkable.Results :=
  match links with
  | [] => Done r
  | (srcP, dstP) :: rest =>
    r ← Hardlinkable.foundNewLink join r srcP dstP; recordLinks join r rest
  end.

(** The links a group [[src; dst1; ...; dstn]] stands for. *)
Definition groupLinks (g : list string) : list (string * string) :=
  match g with
  | [] => []
  | src :: dsts => (λ dst, (src, dst)) <$> dsts
  end.

Definition linksOf (groups : list (list string)) : list (string * string) :=
  concat (groupLinks <$> groups).
Arguments linksOf : simpl never.

(** The index of the group that holds the [k]-th recorded link. *)
Fixpoint groupOf (groups : list (list string)) (k : nat) : option nat :=
  match groups with
  | [] => None
  | g :: rest =>
    if (k <? length g - 1)%nat then Some 0%nat
    else S <$> groupOf rest (k - (length g - 1))
  end.

Definition headsDiffer (groups : list (list string)) : Prop :=
  ∀ i g1 g2, groups !! i = Some g1 → groups !! S i = Some g2 → head g1 ≠ head g2.

Lemma popLast_snoc {A} (l : list A) x : popLast (l ++ [x]) = Some (l, x).
Proof. unfold popLast. by rewrite last_snoc, removelast_last. Qed.

Lemma popLast_Some {A} (l l' : list A) x :
  popLast l = Some (l', x) → l = l' ++ [x].
Proof.
  destruct l as [|y l] using rev_ind; [done|].
  rewrite popLast_snoc. by intros [= <- <-].
Qed.

Lemma popLast_None {A} (l : list A) : popLast l = None → l = [].
Proof.
  destruct l as [|y l] using rev_ind; [done|]. by rewrite popLast_snoc.
Qed.

Lemma linksOf_snoc groups g : linksOf (groups ++ [g]) = linksOf groups ++ groupLinks g.
Proof. unfold linksOf. rewrite fmap_app, concat_app. simpl. by rewrite app_nil_r. Qed.

Lemma headsDiffer_snoc groups g g' :
  headsDiffer (groups ++ [g]) → head g ≠ head g' → headsDiffer (groups ++ [g] ++ [g']).
Proof.
  intros Hd Hne i g1 g2 H1 H2. rewrite app_assoc in H1, H2.
  destruct (decide (S i < length (groups ++ [g]))%nat) as [Hlt|Hge].
  - rewrite lookup_app_l in H1 by lia. rewrite lookup_app_l in H2 by lia. eauto.
  - rewrite lookup_app_r in H2 by lia.
    apply list_lookup_singleton_Some in H2 as [Hi <-].
    assert (i = length groups) as -> by (rewrite length_app in *; simpl in *; lia).
    rewrite lookup_app_l in H1 by (rewrite length_app; simpl; lia).
    rewrite lookup_app_r in H1 by lia. rewrite Nat.sub_diag in H1.
    by injection H1 as <-.
Qed.

Lemma headsDiffer_extend groups g dst :
  g ≠ [] → headsDiffer (groups ++ [g]) → headsDiffer (groups ++ [g ++ [dst]]).
Proof.
  intros Hg Hd i g1 g2 H1 H2.
  assert (Hhead : head (g ++ [dst]) = head g) by (by destruct g).
  destruct (decide (S i < length groups)%nat) as [Hlt|Hge].
  - rewrite lookup_app_l in H1 by lia. rewrite lookup_app_l in H2 by lia.
    apply (Hd i g1 g2); by rewrite lookup_app_l by lia.
  - assert (is_Some ((groups ++ [g ++ [dst]]) !! S i)) as Hs by eauto.
    apply lookup_lt_is_Some in Hs. rewrite length_app in Hs. simpl in Hs.
    assert (S i = length groups) as Hi by lia.
    rewrite lookup_app_l in H1 by lia.
    rewrite lookup_app_r in H2 by lia. rewrite Hi, Nat.sub_diag in H2.
    injection H2 as <-. rewrite Hhead.
    apply (Hd i g1 g); [by rewrite lookup_app_l by lia|].
    rewrite lookup_app_r by lia. by rewrite Hi, Nat.sub_diag.
Qed.

(** One call keeps the shape of [LinkPaths] and records one link. *)
Lemma foundNewLink_step join r srcP dstP :
  Hardlinkable.newLinkStatsEnabled r = true →
  Forall (λ g, (2 ≤ length g)%nat) (Hardlinkable.LinkPaths r) →
  headsDiffer (Hardlinkable.LinkPaths r) →
  ∃ r', Hardlinkable.foundNewLink join r srcP dstP = Done r' ∧
    Hardlinkable.newLinkStatsEnabled r' = true ∧
    Forall (λ g, (2 ≤ length g)%nat) (Hardlinkable.LinkPaths r') ∧
    headsDiffer (Hardlinkable.LinkPaths r') ∧
    linksOf (Hardlinkable.LinkPaths r') =
      linksOf (Hardlinkable.LinkPaths r) ++ [(join srcP, join dstP)].
Proof.
  intros Hen Hlen Hd. unfold Hardlinkable.foundNewLink. rewrite Hen.
  destruct (popLast (Hardlinkable.LinkPaths r)) as [[init lastGroup]|] eqn:Hpop.
  - apply popLast_Some in Hpop. rewrite Hpop in *.
    apply Forall_app in Hlen as [Hinit Hlast]. rewrite Forall_singleton in Hlast.
    destruct lastGroup as [|prevSrc dsts]; [simpl in Hlast; lia|].
    destruct (String.eqb (join srcP) prevSrc) eqn:Heq.
    + apply String.eqb_eq in Heq. eexists. split; [done|]. cbn.
      split_and!; [done| | |].
      * apply Forall_app. split; [done|]. apply Forall_singleton.
        simpl. rewrite length_app. simpl. lia.
      * by apply (headsDiffer_extend init (prevSrc :: dsts) (join dstP)).
      * rewrite !linksOf_snoc. cbn. rewrite fmap_app, Heq. by rewrite <- app_assoc.
    + apply String.eqb_neq in Heq. eexists. split; [done|]. cbn.
      split_and!; [done| | |].
      * rewrite Forall_app, Forall_app, !Forall_singleton. simpl. split_and!; [done|done|lia].
      * rewrite <- app_assoc. apply headsDiffer_snoc; [done|]. cbn. congruence.
      * by rewrite (linksOf_snoc (init ++ [prevSrc :: dsts])).
  - apply popLast_None in Hpop. rewrite Hpop. eexists. split; [done|]. cbn.
    split_and!; [done| | |done].
    + apply Forall_singleton. simpl. lia.
    + intros i g1 g2 H1 H2. by destruct i.
Qed.

Lemma recordLinks_groups join links r :
  Hardlinkable.newLinkStatsEnabled r = true →
  Forall (λ g, (2 ≤ length g)%nat) (Hardlinkable.LinkPaths r) →
  headsDiffer (Hardlinkable.LinkPaths r) →
  ∃ r', recordLinks join r links = Done r' ∧
    Forall (λ g, (2 ≤ length g)%nat) (Hardlinkable.LinkPaths r') ∧
    headsDiffer (Hardlinkable.LinkPaths r') ∧
    linksOf (Hardlinkable.LinkPaths r') =
      linksOf (Hardlinkable.LinkPaths r) ++ ((λ l, (join l.1, join l.2)) <$> links).
Proof.
  revert r. induction links as [|[srcP dstP] links IH]; intros r Hen Hlen Hd.
  - exists r. simpl. by rewrite app_nil_r.
  - destruct (foundNewLink_step join r srcP dstP Hen Hlen Hd)
      as (r1 & Hstep & Hen1 & Hlen1 & Hd1 & Hlinks1).
    destruct (IH r1 Hen1 Hlen1 Hd1) as (r' & Hrun & Hlen' & Hd' & Hlinks').
    exists r'. simpl. rewrite Hstep. cbn. split_and!; try done.
    rewrite Hlinks', Hlinks1. by rewrite <- app_assoc.
Qed.

(** In well-formed groups, two consecutive links lie in one group exactly
    when their sources are equal. *)
Lemma consecutive_links_same_group groups :
  Forall (λ g, (2 ≤ length g)%nat) groups →
  headsDiffer groups →
  ∀ k l1 l2,
    linksOf groups !! k = Some l1 → linksOf groups !! S k = Some l2 →
    (groupOf groups k = groupOf groups (S k) ↔ l1.1 = l2.1).
Proof.
  induction groups as [|g rest IH]; intros Hlen Hd k l1 l2 H1 H2; [done|].
  apply Forall_cons in Hlen as [Hg Hrest].
  destruct g as [|src dsts]; [simpl in Hg; lia|].
  assert (Hd' : headsDiffer rest).
  { intros i g1 g2 Hi1 Hi2. exact (Hd (S i) g1 g2 Hi1 Hi2). }
  unfold linksOf in H1, H2. cbn [fmap list_fmap concat groupLinks] in H1, H2.
  fold (linksOf rest) in H1, H2.
  cbn [groupOf length]. rewrite !Nat.sub_succ, !Nat.sub_0_r.
  simpl in Hg.
  destruct (decide (S k < length dsts)%nat) as [Hin|Hout].
  - (* both links in the first group *)
    rewrite lookup_app_l in H1 by (rewrite length_fmap; lia).
    rewrite lookup_app_l in H2 by (rewrite length_fmap; lia).
    apply list_lookup_fmap_Some in H1 as (d1 & -> & _).
    apply list_lookup_fmap_Some in H2 as (d2 & -> & _).
    destruct (Nat.ltb_spec k (length dsts)); [|lia].
    destruct (Nat.ltb_spec (S k) (length dsts)); [|lia]. done.
  - destruct (decide (k < length dsts)%nat) as [Hlast|Hbeyond].
    + (* the last link of the first group, the first of the next *)
      assert (S k = length dsts) as Hk by lia.
      rewrite lookup_app_l in H1 by (rewrite length_fmap; lia).
      rewrite lookup_app_r in H2 by (rewrite length_fmap; lia).
      rewrite length_fmap, Hk, Nat.sub_diag in H2.
      apply list_lookup_fmap_Some in H1 as (d1 & -> & _).
      destruct (Nat.ltb_spec k (length dsts)); [|lia].
      destruct (Nat.ltb_spec (S k) (length dsts)); [lia|].
      destruct rest as [|g2 rest]; [done|].
      apply Forall_cons in Hrest as [Hg2 _].
      destruct g2 as [|src2 [|d2 dsts2]]; [simpl in Hg2; lia..|].
      cbn in H2. injection H2 as <-. cbn [fst].
      assert (src ≠ src2).
      { specialize (Hd 0%nat (src :: dsts) (src2 :: d2 :: dsts2) eq_refl eq_refl).
        cbn in Hd. congruence. }
      split; [|done]. rewrite Hk, Nat.sub_diag. cbn. done.
    + (* both links beyond the first group *)
      rewrite lookup_app_r in H1 by (rewrite length_fmap; lia).
      rewrite lookup_app_r in H2 by (rewrite length_fmap; lia).
      rewrite length_fmap in H1, H2.
      replace (S k - length dsts)%nat with (S (k - length dsts)) in * by lia.
      destruct (Nat.ltb_spec k (length dsts)); [lia|].
      destruct (Nat.ltb_spec (S k) (length dsts)); [lia|].
      rewrite <- (IH Hrest Hd' _ _ _ H1 H2).
      replace (S k - length dsts)%nat with (S (k - length dsts)) by lia.
      split; [|by intros ->].
      intros Heq. destruct (groupOf rest (k - length dsts)),
        (groupOf rest (S (k - length dsts))); cbn in Heq; congruence.
Qed.

(** C10: after any sequence of [foundNewLink] calls on fresh results with
    the storing of new links enabled, every group of [LinkPaths] has at
    least two elements, the groups read in order are exactly the recorded
    links with each group's first element as the source of its links, and
    two consecutive links are in the same group exactly when their sources
    are equal. *)
Theorem foundNewLink_groups_by_source join links :
  ∃ r, recordLinks join (Hardlinkable.newResults true) links = Done r ∧
    Forall (λ g, (2 ≤ length g)%nat) (Hardlinkable.LinkPaths r) ∧
    linksOf (Hardlinkable.LinkPaths r) = (λ l, (join l.1, join l.2)) <$> links ∧
    (∀ k l1 l2,
       links !! k = Some l1 → links !! S k = Some l2 →
       (groupOf (Hardlinkable.LinkPaths r) k = groupOf (Hardlinkable.LinkPaths r) (S k)
        ↔ join l1.1 = join l2.1)).
Proof.
  destruct (recordLinks_groups join links (Hardlinkable.newResults true))
    as (r & Hrun & Hlen & Hd & Hlinks); [done|done|by intros []|].
  exists r. change (linksOf _ ++ ?l) with l in Hlinks. split_and!; try done.
  intros k l1 l2 H1 H2.
  apply (consecutive_links_same_group _ Hlen Hd k (join l1.1, join l1.2)
           (join l2.1, join l2.2));
    rewrite Hlinks, list_lookup_fmap; [by rewrite H1 | by rewrite H2].
Qed.

(** * The planner's sort *)

(** [a] is planned before [b]: more links first, the lower inode number
    first among equals. *)
Definition plannedBefore (f : FSDev) (a b : Z) : Prop :=
  Nlink (statAt f b) < Nlink (statAt f a) ∨
  (Nlink (statAt f a) = Nlink (statAt f b) ∧ a < b).

Definition byNlinkOrder : relation Hardlinkable.inoNlink :=
  Hardlinkable.notAfter (Hardlinkable.sort_Reverse Hardlinkable.byNlink_Less).

Lemma byNlinkOrder_spec x y :
  byNlinkOrder x y ↔
  Hardlinkable.inNlink y < Hardlinkable.inNlink x ∨
  (Hardlinkable.inNlink x = Hardlinkable.inNlink y ∧
   Hardlinkable.inIno x ≤ Hardlinkable.inIno y).
Proof.
  unfold byNlinkOrder, Hardlinkable.notAfter, Hardlinkable.sort_Reverse,
    Hardlinkable.byNlink_Less.
  rewrite orb_false_iff, andb_false_iff, !Z.ltb_ge, Z.eqb_neq. lia.
Qed.

#[local] Instance byNlinkOrder_total : Total byNlinkOrder.
Proof. intros x y. rewrite !byNlinkOrder_spec. lia. Qed.

#[local] Instance byNlinkOrder_trans : Transitive byNlinkOrder.
Proof. intros x y z. rewrite !byNlinkOrder_spec. lia. Qed.

#[local] Instance byNlinkOrder_antisymm : AntiSymm (=) byNlinkOrder.
Proof.
  intros [xi xn] [yi yn]. rewrite !byNlinkOrder_spec. cbn.
  intros H1 H2. f_equal; lia.
Qed.

(** Whatever algorithm [sort.Sort] runs, its result under [byNlink]'s
    reversed order is determined by the elements it is given. *)
Lemma sorted_by_less_unique (l1 l2 : list Hardlinkable.inoNlink) :
  l1 ≡ₚ l2 → Sorted byNlinkOrder l1 → Sorted byNlinkOrder l2 → l1 = l2.
Proof. intros Hp H1 H2. by apply (Sorted_unique byNlinkOrder). Qed.

Definition mkInoNlink (f : FSDev) (ino : Z) : Hardlinkable.inoNlink :=
  {| Hardlinkable.inIno := ino; Hardlinkable.inNlink := Nlink (statAt f ino) |}.

Lemma sorted_inos_planned f (l : list Z) :
  NoDup l → StronglySorted byNlinkOrder (mkInoNlink f <$> l) →
  StronglySorted (plannedBefore f) l.
Proof.
  induction l as [|a l IH]; intros Hnd Hs; [constructor|].
  apply NoDup_cons in Hnd as [Hnotin Hnd].
  cbn in Hs. apply StronglySorted_inv in Hs as [Hs Hall].
  constructor; [by apply IH|].
  apply Forall_forall. intros b Hb.
  rewrite Forall_fmap, Forall_forall in Hall. specialize (Hall b Hb).
  cbn in Hall. apply byNlinkOrder_spec in Hall. cbn in Hall.
  assert (a ≠ b) by (intros ->; done).
  unfold plannedBefore. lia.
Qed.

Lemma sortSetByNlink_seq o f inoSet :
  Hardlinkable.sort_Sort (Hardlinkable.sort_Reverse Hardlinkable.byNlink_Less)
    (mkInoNlink f <$> asSlice o inoSet)
  = mkInoNlink f <$> Hardlinkable.sortSetByNlink o f inoSet.
Proof.
  unfold Hardlinkable.sortSetByNlink. fold (mkInoNlink f).
  set (seq := Hardlinkable.sort_Sort _ _).
  assert (Hall : Forall (λ x, x = mkInoNlink f (Hardlinkable.inIno x)) seq).
  { apply Forall_forall. intros x Hx. subst seq.
    unfold Hardlinkable.sort_Sort in Hx. rewrite merge_sort_Permutation in Hx.
    by apply list_elem_of_fmap in Hx as (ino & -> & _). }
  rewrite <- list_fmap_compose. symmetry.
  rewrite <- (list_fmap_id seq) at 2. apply Forall_fmap_ext_1.
  eapply Forall_impl; [exact Hall|]. cbn. by intros x <-.
Qed.

(** C9: [sortSetByNlink] returns the set's inodes ordered by nlink
    descending, ties by inode number ascending; the result does not
    depend on the order in which the runtime enumerates the set, and is
    the same for any state that gives the set's inodes the same nlink
    counts.  Nor does it depend on the sorting algorithm: any sequence
    that holds the same (ino, nlink) records in ascending order of the
    reversed [Less] gives the same inodes. *)
Theorem sortSetByNlink_sorted_and_deterministic (o o' : SliceOrder) f inoSet :
  let sorted := Hardlinkable.sortSetByNlink o f inoSet in
  sorted ≡ₚ elements inoSet ∧
  StronglySorted (plannedBefore f) sorted ∧
  Hardlinkable.sortSetByNlink o' f inoSet = sorted ∧
  (∀ f', (∀ ino, ino ∈ inoSet → Nlink (statAt f' ino) = Nlink (statAt f ino)) →
         Hardlinkable.sortSetByNlink o f' inoSet = sorted) ∧
  (∀ seq', seq' ≡ₚ mkInoNlink f <$> asSlice o inoSet → Sorted byNlinkOrder seq' →
           Hardlinkable.inIno <$> seq' = sorted).
Proof.
  intros sorted. subst sorted.
  assert (Hperm : ∀ o1, Hardlinkable.sortSetByNlink o1 f inoSet ≡ₚ elements inoSet).
  { intros o1. unfold Hardlinkable.sortSetByNlink, Hardlinkable.sort_Sort.
    rewrite merge_sort_Permutation, <- list_fmap_compose.
    rewrite (asSlice_perm o1). by rewrite list_fmap_id. }
  assert (Hsorted : ∀ o1,
    StronglySorted byNlinkOrder (mkInoNlink f <$> Hardlinkable.sortSetByNlink o1 f inoSet)).
  { intros o1. rewrite <- sortSetByNlink_seq.
    apply (StronglySorted_merge_sort byNlinkOrder). }
  split_and!.
  - apply Hperm.
  - apply sorted_inos_planned; [|apply Hsorted].
    rewrite (Hperm o). apply NoDup_elements.
  - assert (Heq : mkInoNlink f <$> Hardlinkable.sortSetByNlink o' f inoSet
                  = mkInoNlink f <$> Hardlinkable.sortSetByNlink o f inoSet).
    { apply (StronglySorted_unique byNlinkOrder); [apply Hsorted..|].
      by rewrite (Hperm o), (Hperm o'). }
    apply (f_equal (fmap Hardlinkable.inIno)) in Heq.
    rewrite <- !list_fmap_compose in Heq. by rewrite !list_fmap_id in Heq.
  - intros f' Hsame. unfold Hardlinkable.sortSetByNlink.
    do 2 f_equal. apply Forall_fmap_ext_1, Forall_forall. intros ino Hin.
    rewrite (asSlice_perm o) in Hin. apply elem_of_elements in Hin.
    by rewrite Hsame.
  - intros seq' Hp Hs. unfold Hardlinkable.sortSetByNlink. fold (mkInoNlink f).
    f_equal. apply sorted_by_less_unique; [|done|].
    + rewrite Hp. symmetry. apply (merge_sort_Permutation byNlinkOrder).
    + apply (Sorted_merge_sort byNlinkOrder).
Qed.

(** * Ingestion *)

(** ** The traversal of the linked graph returns *)

Lemma asSlice_length (o : SliceOrder) s : length (asSlice o s) = size s.
Proof. by rewrite (asSlice_perm o). Qed.

Lemma asSlice_elem_of (o : SliceOrder) s x : x ∈ asSlice o s ↔ x ∈ s.
Proof. by rewrite (asSlice_perm o), elem_of_elements. Qed.

Lemma linkWork_delete m ino s :
  m !! ino = Some s → linkWork m = (S (size s) + linkWork (delete ino m))%nat.
Proof.
  intros Hm. unfold linkWork.
  by rewrite <- (map_to_list_delete m ino s Hm).
Qed.

Lemma linkedLoop_returns o fuel m pending res :
  (linkWork m + length pending ≤ fuel)%nat →
  ∃ r, linkedLoop o fuel m pending res = Done r ∧
       res ⊆ r ∧ ∀ x, x ∈ pending → x ∈ r.
Proof.
  revert m pending res.
  induction fuel as [|fuel IH]; intros m pending res Hfuel.
  - destruct pending as [|x pending]; [|simpl in Hfuel; lia].
    exists res. cbn. split_and!; [done|done|]. by intros x Hx%elem_of_nil.
  - cbn [linkedLoop].
    destruct (popLast pending) as [[pending' ino]|] eqn:Hpop.
    + apply popLast_Some in Hpop. subst pending.
      rewrite length_app in Hfuel. cbn in Hfuel.
      destruct (m !! ino) as [linkedInos|] eqn:Hm.
      * destruct (IH (delete ino m) (pending' ++ asSlice o linkedInos) (res ∪ {[ino]}))
          as (r & Hr & Hsub & Hpend).
        { rewrite length_app, asSlice_length.
          rewrite (linkWork_delete m ino linkedInos Hm) in Hfuel. lia. }
        exists r. split_and!; [done|set_solver|].
        intros x [Hx|Hx%list_elem_of_singleton]%elem_of_app.
        -- apply Hpend. apply elem_of_app. by left.
        -- set_solver.
      * destruct (IH m pending' (res ∪ {[ino]})) as (r & Hr & Hsub & Hpend); [lia|].
        exists r. split_and!; [done|set_solver|].
        intros x [Hx|Hx%list_elem_of_singleton]%elem_of_app; [by apply Hpend|set_solver].
    + apply popLast_None in Hpop. subst pending.
      exists res. split_and!; [done|done|]. by intros x Hx%elem_of_nil.
Qed.

(** [linkedInoSet] returns, and its result holds the inode and its
    direct neighbours. *)
Lemma linkedInoSet_returns E f ino :
  ∃ r, linkedInoSet E f ino = Done r ∧ ino ∈ r ∧
       ∀ c, c ∈ setAt (LinkedInos f) ino → c ∈ r.
Proof.
  unfold linkedInoSet, setAt.
  destruct (LinkedInos f !! ino) as [s|] eqn:Hm.
  - cbn [linkedLoop]. change (popLast [ino]) with (Some (@nil Z, ino)).
    cbn match. rewrite Hm.
    destruct (linkedLoop_returns (order E) (linkWork (LinkedInos f))
                (delete ino (LinkedInos f)) ([] ++ asSlice (order E) s) (∅ ∪ {[ino]}))
      as (r & Hr & Hsub & Hpend).
    { cbn. rewrite asSlice_length, (linkWork_delete _ ino s Hm). lia. }
    exists r. split_and!; [done|set_solver|].
    intros c Hc. apply Hpend. cbn. by apply asSlice_elem_of.
  - exists {[ino]}. split_and!; [done|set_solver|]. cbn. set_solver.
Qed.

(** ** What the digest bookkeeping and the predicate leave alone *)

(** The tables other than the digest index. *)
Definition sameTables (f f' : FSDev) : Prop :=
  Dev f' = Dev f ∧ MaxNLinks f' = MaxNLinks f ∧ InoHashes f' = InoHashes f ∧
  InoStatInfo f' = InoStatInfo f ∧ InoPaths f' = InoPaths f ∧
  LinkedInos f' = LinkedInos f.

(** Every inode filed under a digest is in [InosWithDigest]. *)
Definition digestsIndexed (f : FSDev) : Prop :=
  ∀ d s, DigestIno f !! d = Some s → s ⊆ InosWithDigest f.

Lemma sameTables_refl f : sameTables f f.
Proof. by repeat split. Qed.

Lemma sameTables_trans f1 f2 f3 : sameTables f1 f2 → sameTables f2 f3 → sameTables f1 f3.
Proof. unfold sameTables. intros (?&?&?&?&?&?) (?&?&?&?&?&?). split_and!; congruence. Qed.

Lemma helperPathStatDigest_frame fs ps d :
  sameTables fs (helperPathStatDigest fs ps d) ∧
  (digestsIndexed fs → digestsIndexed (helperPathStatDigest fs ps d)) ∧
  Ino (psStat ps) ∈ InosWithDigest (helperPathStatDigest fs ps d).
Proof.
  unfold helperPathStatDigest. split_and!; [by repeat split| |cbn; set_solver].
  intros Hidx d' s'. cbn.
  destruct (DigestIno fs !! d) as [set|] eqn:Hd; intros Hlook;
    (destruct (decide (d = d')) as [->|Hne];
     [ rewrite lookup_insert_eq in Hlook; injection Hlook as <-
     | rewrite lookup_insert_ne in Hlook by done; apply Hidx in Hlook ]);
    try (apply Hidx in Hd); set_solver.
Qed.

Lemma addPathStatDigest_frame fs ps d :
  sameTables fs (addPathStatDigest fs ps d) ∧
  (digestsIndexed fs → digestsIndexed (addPathStatDigest fs ps d)) ∧
  Ino (psStat ps) ∈ InosWithDigest (addPathStatDigest fs ps d).
Proof.
  unfold addPathStatDigest. case_decide.
  - split_and!; [apply sameTables_refl|done|done].
  - apply helperPathStatDigest_frame.
Qed.

Lemma numDigests_computedDigest st :
  numDigestsComputed (computedDigest st) = inc64 (numDigestsComputed st).
Proof. by destruct st. Qed.

Lemma contentDigest_stats E p st :
  (contentDigest E p st).2 = st ∨
  (is_Some (contentDigest E p st).1 ∧ (contentDigest E p st).2 = computedDigest st).
Proof.
  unfold contentDigest. destruct (os_Open E p) as [content|]; [|by left].
  destruct (file_Read _ _) as [[n buf]|]; [right; eauto|by left].
Qed.

Lemma newPathStatDigest_frame E fs st ps fs' st' :
  newPathStatDigest E fs st ps = (fs', st') →
  sameTables fs fs' ∧ (digestsIndexed fs → digestsIndexed fs').
Proof.
  unfold newPathStatDigest. case_decide.
  - intros [= <- <-]. split; [apply sameTables_refl|done].
  - destruct (contentDigest E _ st) as [[digest|] st1]; intros [= <- <-].
    + destruct (helperPathStatDigest_frame fs ps digest) as (?&?&?). done.
    + split; [apply sameTables_refl|done].
Qed.

Ltac stats_field :=
  repeat match goal with
         | |- context [if ?b then _ else _] => destruct b
         end;
  repeat match goal with
         | st : LinkingStats |- _ => destruct st
         end;
  reflexivity.

Lemma areFilesHardlinkable_frame E fs st ps1 ps2 useDigest b fs' st' :
  areFilesHardlinkable E fs st ps1 ps2 useDigest = (b, fs', st') →
  sameTables fs fs' ∧ (digestsIndexed fs → digestsIndexed fs') ∧
  (useDigest = false →
     fs' = fs ∧ numDigestsComputed st' = numDigestsComputed st).
Proof.
  unfold areFilesHardlinkable.
  repeat match goal with
         | |- (if ?c then (false, _, _) else _) = _ → _ =>
           destruct c;
           [ intros [= <- <- <-]; split_and!; [apply sameTables_refl|done|done] | ]
         end.
  destruct useDigest.
  - destruct (newPathStatDigest E fs st ps1) as [fs1 st1] eqn:H1.
    destruct (newPathStatDigest E fs1 st1 ps2) as [fs2 st2] eqn:H2.
    apply newPathStatDigest_frame in H1 as [Hs1 Hd1].
    apply newPathStatDigest_frame in H2 as [Hs2 Hd2].
    destruct (areFileContentsEqual E _ _);
      [destruct (equalXAttrs E _ _) as [eqx err]|];
      intros [= <- <- <-];
      (split_and!; [by eapply sameTables_trans|by auto|done]).
  - destruct (areFileContentsEqual E _ _);
      [destruct (equalXAttrs E _ _) as [eqx err]|];
      intros [= <- <- <-];
      (split_and!; [apply sameTables_refl|done|]); intros _; (split; [done|]);
      stats_field.
Qed.

(** ** The search for a peer *)

Tactic Notation "bind_inv" hyp(H) "as" simple_intropattern(a) ident(Ho) :=
  match type of H with
  | mbind _ ?o = Done _ =>
    destruct o as [a| |] eqn:Ho; [cbn [mbind Outcome_bind] in H | discriminate H..]
  end.

Tactic Notation "bind_inv" hyp(H) :=
  let a := fresh "a" in let Ho := fresh "Ho" in bind_inv H as a Ho.

Lemma PathStatFromIno_stat E f ino ps :
  PathStatFromIno E f ino = Done ps → psStat ps = statAt f ino.
Proof. unfold PathStatFromIno. intros H. bind_inv H. by injection H as <-. Qed.

Lemma digestSets_subset f cached digest same no diff :
  digestSets f cached digest = (same, no, diff) →
  same ⊆ cached ∧ no ⊆ cached ∧ diff ⊆ cached.
Proof. unfold digestSets. intros [= <- <- <-]. set_solver. Qed.

Lemma searchSeq_spec E f st cur cached f' st' seq ud :
  searchSeq E f st cur cached = Done (f', st', seq, ud) →
  sameTables f f' ∧ (digestsIndexed f → digestsIndexed f') ∧
  (∀ c, c ∈ seq → c ∈ cached) ∧
  ud = useDigestFor E (order E cached) ∧
  (ud = false → f' = f ∧ st' = st ∧ seq = order E cached).
Proof.
  unfold searchSeq.
  destruct (useDigestFor E (order E cached)) eqn:Hud.
  - destruct (contentDigest E _ st) as [[digest|] st1].
    + destruct (digestSets _ cached digest) as [[same no] diff] eqn:Hsets.
      apply digestSets_subset in Hsets as (Hsame & Hno & _).
      destruct (addPathStatDigest_frame f cur digest) as (Hst & Hidx & _).
      intros H. bind_inv H. bind_inv H. injection H as <- <- <- <-.
      split_and!; [done|done| |done|done].
      intros c [Hc|Hc]%elem_of_app; apply asSlice_elem_of in Hc; set_solver.
    + intros [= <- <- <- <-].
      split_and!; [apply sameTables_refl|done| |done|done].
      intros c Hc. by apply asSlice_elem_of in Hc.
  - intros [= <- <- <- <-].
    split_and!; [apply sameTables_refl|done| |done|done].
    intros c Hc. by apply asSlice_elem_of in Hc.
Qed.

(** The edge the loop adds when it finds a peer [c] of [ino]. *)
Definition linkedWith (m : gmap Z (gset Z)) (c ino : Z) : gmap Z (gset Z) :=
  addLinked (addLinked m c ino) ino c.

Lemma searchLoop_spec E f st seq cur ud early f' st' :
  searchLoop E f st seq cur ud = Done (early, f', st') →
  Dev f' = Dev f ∧ MaxNLinks f' = MaxNLinks f ∧ InoHashes f' = InoHashes f ∧
  InoStatInfo f' = InoStatInfo f ∧ InoPaths f' = InoPaths f ∧
  (digestsIndexed f → digestsIndexed f') ∧
  (ud = false → numDigestsComputed st' = numDigestsComputed st) ∧
  (if early
   then ∃ c, c ∈ seq ∧ Ino (statAt f c) ≠ Ino (psStat cur) ∧
             LinkedInos f' = linkedWith (LinkedInos f) (Ino (statAt f c)) (Ino (psStat cur))
   else LinkedInos f' = LinkedInos f).
Proof.
  revert f st. induction seq as [|cachedIno rest IH]; intros f st H.
  - cbn in H. injection H as <- <- <-. split_and!; try done.
  - cbn [searchLoop] in H. bind_inv H.
    apply PathStatFromIno_stat in Ho.
    destruct (areFilesHardlinkable E f (IncInoSeqIterations st) a cur ud)
      as [[eq f1] st1] eqn:Hcmp.
    pose proof (areFilesHardlinkable_frame _ _ _ _ _ _ _ _ _ Hcmp)
      as ((HD & HM & HH & HS & HP & HL) & Hidx & Hnd).
    assert (Hst0 : numDigestsComputed (IncInoSeqIterations st) = numDigestsComputed st)
      by (by destruct st).
    destruct eq.
    + injection H as <- <- <-. cbn.
      split_and!; try done.
      * intros Hud. destruct (Hnd Hud) as [_ ->]. done.
      * exists cachedIno. split_and!; [by left| |].
        -- assert (Ht : (areFilesHardlinkable E f (IncInoSeqIterations st) a cur ud).1.1 = true)
             by (by rewrite Hcmp).
           apply areFilesHardlinkable_true in Ht as (Hne & _). by rewrite <- Ho.
        -- unfold linkedWith. by rewrite HL, Ho.
    + apply IH in H as (HD' & HM' & HH' & HS' & HP' & Hidx' & Hnd' & Hlink).
      split_and!; try congruence.
      * auto.
      * intros Hud. rewrite (Hnd' Hud). destruct (Hnd Hud) as [_ ->]. done.
      * destruct early.
        -- destruct Hlink as (c & Hc & Hne & Hl). exists c.
           unfold statAt in *. rewrite HS in Hne, Hl.
           split_and!; [by right|done|]. by rewrite Hl, HL.
        -- congruence.
Qed.

(** ** What one ingestion does to the tables *)

(** The four ways [findIdenticalFiles] can file the inode [ino] whose
    metadata hash is [h]. *)
Inductive ingestEffect (E : Env) (f : FSDev) (ino h : Z) (f' : FSDev) : Prop :=
| newBucket :
    InoHashes f !! h = None →
    InoHashes f' = <[h := {[ino]}]> (InoHashes f) →
    LinkedInos f' = LinkedInos f →
    ingestEffect E f ino h f'
| alreadyFiled s linked :
    InoHashes f !! h = Some s →
    linkedInoSet E f ino = Done linked → linked ∩ s ≠ ∅ →
    InoHashes f' = InoHashes f →
    LinkedInos f' = LinkedInos f →
    DigestIno f' = DigestIno f → InosWithDigest f' = InosWithDigest f →
    ingestEffect E f ino h f'
| peerFound s linked c :
    InoHashes f !! h = Some s →
    linkedInoSet E f ino = Done linked → linked ∩ s = ∅ →
    c ∈ s → Ino (statAt f c) ≠ ino →
    InoHashes f' = InoHashes f →
    LinkedInos f' = linkedWith (LinkedInos f) (Ino (statAt f c)) ino →
    ingestEffect E f ino h f'
| noPeer s linked :
    InoHashes f !! h = Some s →
    linkedInoSet E f ino = Done linked → linked ∩ s = ∅ →
    InoHashes f' = <[h := s ∪ {[ino]}]> (InoHashes f) →
    LinkedInos f' = LinkedInos f →
    ingestEffect E f ino h f'.

Definition appendedPaths (f : FSDev) (ino : Z) (path : Pathsplit)
  : gmap Z (gmap string (list Pathsplit)) :=
  <[ino := <[Filename path :=
               default [] (pathsAt f ino !! Filename path) ++ [path]]> (pathsAt f ino)]>
    (InoPaths f).

Lemma ingestEffect_ext E f ino h f1 f2 :
  InoHashes f2 = InoHashes f1 → LinkedInos f2 = LinkedInos f1 →
  DigestIno f2 = DigestIno f1 → InosWithDigest f2 = InosWithDigest f1 →
  ingestEffect E f ino h f1 → ingestEffect E f ino h f2.
Proof.
  intros HH HL HD HW [].
  - apply newBucket; congruence.
  - eapply alreadyFiled; eauto; congruence.
  - eapply peerFound; eauto; congruence.
  - eapply noPeer; eauto; congruence.
Qed.

Lemma findIdenticalFiles_effect E f st d p f' st' :
  findIdenticalFiles E f st d p = Done (f', st') →
  let ino := Ino (dsStat d) in
  Dev f' = Dev f ∧ Dev f = dsDev d ∧ MaxNLinks f' = MaxNLinks f ∧
  InoStatInfo f' = <[ino := dsStat d]> (InoStatInfo f) ∧
  InoPaths f' = appendedPaths f ino (SplitPathname E p) ∧
  (digestsIndexed f → digestsIndexed f') ∧
  ingestEffect E f ino (InoHash (dsStat d) (MyOptions E)) f'.
Proof.
  unfold findIdenticalFiles.
  destruct (Dev f =? dsDev d) eqn:Hdev; [|done]. apply Z.eqb_eq in Hdev.
  cbn [negb]. intros H. bind_inv H as [f1 st1] Ho.
  injection H as <- <-.
  set (ino := Ino (dsStat d)) in *.
  set (h := InoHash (dsStat d) (MyOptions E)) in *.
  enough (Dev f1 = Dev f ∧ MaxNLinks f1 = MaxNLinks f ∧
          <[ino := dsStat d]> (InoStatInfo f1) = <[ino := dsStat d]> (InoStatInfo f) ∧
          InoPaths f1 = InoPaths f ∧ (digestsIndexed f → digestsIndexed f1) ∧
          ingestEffect E f ino h f1)
    as (HD & HM & HS & HP & Hidx & Heff).
  { cbn. unfold appendedPaths, pathsAt. cbn. rewrite HP.
    split_and!; try done. by eapply ingestEffect_ext; [..|exact Heff]. }
  revert Ho.
  destruct (InoHashes f !! h) as [hashedInos|] eqn:Hbucket.
  2: { intros [= <- <-]. split_and!; try done. by apply newBucket. }
  intros H. bind_inv H as st0 Hst0. bind_inv H as linkedInos Hlinked.
  destruct (bool_decide (linkedInos ∩ hashedInos ≠ ∅)) eqn:Hfound; cbn [negb] in H.
  { apply bool_decide_eq_true in Hfound. injection H as <- <-.
    split_and!; try done. by eapply alreadyFiled. }
  apply bool_decide_eq_false in Hfound.
  assert (Hempty : linkedInos ∩ hashedInos = ∅).
  { destruct (decide (linkedInos ∩ hashedInos = ∅)); done. }
  bind_inv H as [[[f2 st2] seq] ud] Hseq0.
  apply searchSeq_spec in Hseq0 as ((HD2 & HM2 & HH2 & HS2 & HP2 & HL2) & Hidx2 & Hseq & _).
  bind_inv H as [[early f3] st3] Hloop.
  apply searchLoop_spec in Hloop as (HD3 & HM3 & HH3 & HS3 & HP3 & Hidx3 & _ & Hlink).
  destruct early; cbn [negb] in H; injection H as <- <-.
  - destruct Hlink as (c & Hc & Hne & Hl).
    split_and!; try congruence; [auto|].
    unfold statAt in *. rewrite HS2 in Hne, Hl. rewrite HL2 in Hl.
    eapply peerFound; eauto; congruence.
  - cbn. split_and!; try congruence.
    + rewrite insert_insert_eq. congruence.
    + intros Hf. specialize (Hidx3 (Hidx2 Hf)).
      intros d' s' Hd'. cbn in *. by apply Hidx3 in Hd'.
    + eapply noPeer; eauto; cbn; [|congruence].
      unfold setAt. rewrite HH3, HH2, Hbucket. cbn. congruence.
Qed.

(** ** States reached by ingestion *)

(** The states the engine reaches from a fresh device by ingesting files
    one after another. *)
Inductive ingested (E : Env) : FSDev → LinkingStats → Prop :=
| ingested_new dev maxNLinks :
    ingested E (NewFSDev dev maxNLinks) NewLinkingStats
| ingested_more f st d p f' st' :
    ingested E f st →
    findIdenticalFiles E f st d p = Done (f', st') →
    ingested E f' st'.

Definition inBucket (f : FSDev) (ino : Z) : Prop :=
  ∃ h s, InoHashes f !! h = Some s ∧ ino ∈ s.

Record tablesOK (f : FSDev) : Prop := {
  ok_paths : ∀ ino, is_Some (InoStatInfo f !! ino) ↔ is_Some (InoPaths f !! ino);
  ok_bucket : ∀ ino, inBucket f ino → is_Some (InoStatInfo f !! ino);
  ok_filed : ∀ ino, is_Some (InoStatInfo f !! ino) →
                    inBucket f ino ∨ is_Some (LinkedInos f !! ino);
  ok_ino : ∀ ino si, InoStatInfo f !! ino = Some si → Ino si = ino;
  ok_nonempty : ∀ ino fp, InoPaths f !! ino = Some fp →
                          fp ≠ ∅ ∧ ∀ fn l, fp !! fn = Some l → l ≠ [];
  ok_digests : digestsIndexed f
}.

Lemma tablesOK_new dev maxNLinks : tablesOK (NewFSDev dev maxNLinks).
Proof.
  split; unfold inBucket, digestsIndexed; cbn.
  - intros ino. rewrite !lookup_empty. done.
  - intros ino (h & s & Hh & _). by rewrite lookup_empty in Hh.
  - intros ino [? H]. by rewrite lookup_empty in H.
  - intros ino si H. by rewrite lookup_empty in H.
  - intros ino fp H. by rewrite lookup_empty in H.
  - intros d s H. by rewrite lookup_empty in H.
Qed.

Lemma addLinked_is_Some m a b k :
  is_Some (addLinked m a b !! k) ↔ k = a ∨ is_Some (m !! k).
Proof.
  unfold addLinked. destruct (m !! a) eqn:Ha;
    (destruct (decide (a = k)) as [->|Hne];
     [rewrite lookup_insert_eq | rewrite lookup_insert_ne by done]);
    naive_solver.
Qed.

Lemma linkedWith_is_Some m c ino k :
  is_Some (linkedWith m c ino !! k) ↔ k = ino ∨ k = c ∨ is_Some (m !! k).
Proof. unfold linkedWith. rewrite !addLinked_is_Some. naive_solver. Qed.

Lemma ingestEffect_inBucket_mono E f ino h f' x :
  ingestEffect E f ino h f' → inBucket f x → inBucket f' x.
Proof.
  intros Heff (h0 & s0 & Hh0 & Hx). unfold inBucket. destruct Heff as
    [Hnone HH HL | s linked Hs _ _ HH HL _ _ | s linked c Hs _ _ _ _ HH HL
    | s linked Hs _ _ HH HL]; rewrite HH.
  - exists h0, s0. rewrite lookup_insert_ne by congruence. done.
  - eauto.
  - eauto.
  - destruct (decide (h = h0)) as [->|Hne].
    + exists h0, (s ∪ {[ino]}). rewrite lookup_insert_eq. split; [done|].
      rewrite Hs in Hh0. injection Hh0 as ->. set_solver.
    + exists h0, s0. by rewrite lookup_insert_ne.
Qed.

Lemma ingestEffect_inBucket_inv E f ino h f' x :
  ingestEffect E f ino h f' → inBucket f' x → x = ino ∨ inBucket f x.
Proof.
  intros Heff (h0 & s0 & Hh0 & Hx). unfold inBucket. destruct Heff as
    [Hnone HH HL | s linked Hs _ _ HH HL _ _ | s linked c Hs _ _ _ _ HH HL
    | s linked Hs _ _ HH HL]; rewrite HH in Hh0.
  - destruct (decide (h = h0)) as [->|Hne].
    + rewrite lookup_insert_eq in Hh0. injection Hh0 as <-. left. set_solver.
    + rewrite lookup_insert_ne in Hh0 by done. eauto.
  - eauto.
  - eauto.
  - destruct (decide (h = h0)) as [->|Hne].
    + rewrite lookup_insert_eq in Hh0. injection Hh0 as <-.
      apply elem_of_union in Hx as [Hx|Hx]; [right; eauto|left; set_solver].
    + rewrite lookup_insert_ne in Hh0 by done. eauto.
Qed.

Lemma ingestEffect_filed E f ino h f' :
  ingestEffect E f ino h f' → inBucket f' ino ∨ is_Some (LinkedInos f' !! ino).
Proof.
  intros [Hnone HH HL | s linked Hs Hlinked Hne HH HL _ _
         | s linked c Hs _ _ _ _ HH HL | s linked Hs _ _ HH HL].
  - left. exists h, {[ino]}. rewrite HH, lookup_insert_eq. set_solver.
  - unfold linkedInoSet in Hlinked. rewrite HL.
    destruct (LinkedInos f !! ino) eqn:Hl; [by right|].
    injection Hlinked as <-. left. exists h, s. rewrite HH. split; [done|].
    apply set_choose_L in Hne as [x Hx]. set_solver.
  - right. rewrite HL. apply linkedWith_is_Some. by left.
  - left. exists h, (s ∪ {[ino]}). rewrite HH, lookup_insert_eq. set_solver.
Qed.

Lemma ingestEffect_linked_mono E f ino h f' x :
  ingestEffect E f ino h f' → is_Some (LinkedInos f !! x) → is_Some (LinkedInos f' !! x).
Proof.
  intros [Hnone HH HL | s linked Hs Hlinked Hne HH HL _ _
         | s linked c Hs _ _ _ _ HH HL | s linked Hs _ _ HH HL] Hx;
    rewrite HL; [done|done| |done].
  apply linkedWith_is_Some. auto.
Qed.

Lemma findIdenticalFiles_tablesOK E f st d p f' st' :
  tablesOK f → findIdenticalFiles E f st d p = Done (f', st') → tablesOK f'.
Proof.
  intros [Hpaths Hbucket Hfiled Hino Hnonempty Hdig] Hrun.
  apply findIdenticalFiles_effect in Hrun
    as (HD & _ & HM & HS & HP & Hidx & Heff).
  split.
  - intros ino. rewrite HS, HP. unfold appendedPaths.
    destruct (decide (Ino (dsStat d) = ino)) as [->|Hne].
    + rewrite !lookup_insert_eq. split; eauto.
    + rewrite !lookup_insert_ne by done. apply Hpaths.
  - intros ino Hin. rewrite HS.
    destruct (ingestEffect_inBucket_inv _ _ _ _ _ _ Heff Hin) as [->|Hold].
    + rewrite lookup_insert_eq. eauto.
    + apply lookup_insert_is_Some. destruct (decide (Ino (dsStat d) = ino)); auto.
  - intros ino. rewrite HS. intros [<-|[_ Hold]]%lookup_insert_is_Some.
    + by eapply ingestEffect_filed.
    + destruct (Hfiled ino Hold) as [Hb|Hl].
      * left. by eapply ingestEffect_inBucket_mono.
      * right. by eapply ingestEffect_linked_mono.
  - intros ino si. rewrite HS.
    intros [[<- <-]|[_ Hold]]%lookup_insert_Some; [done|by apply Hino].
  - intros ino fp. rewrite HP. unfold appendedPaths.
    intros [[<- <-]|[_ Hold]]%lookup_insert_Some; [|by eapply Hnonempty].
    split; [apply insert_non_empty|].
    intros fn l [[<- <-]|[_ Hl]]%lookup_insert_Some.
    + by destruct (default [] _).
    + unfold pathsAt in Hl.
      destruct (InoPaths f !! Ino (dsStat d)) as [fp0|] eqn:Hfp0; cbn in Hl;
        [|by rewrite lookup_empty in Hl].
      by eapply (proj2 (Hnonempty _ _ Hfp0)).
  - auto.
Qed.

Lemma ingested_tablesOK E f st : ingested E f st → tablesOK f.
Proof.
  induction 1; [apply tablesOK_new|by eapply findIdenticalFiles_tablesOK].
Qed.

(** C1, as the code has it: after any number of ingestions an inode has
    a StatInfo exactly when it has paths; every member of a bucket has a
    StatInfo; and an inode with a StatInfo is in a bucket or has an entry
    in the linked adjacency (an inode found equal to a bucket member is
    linked to it and not added to the bucket). *)
Theorem ingested_inode_is_indexed E f st :
  ingested E f st →
  ∀ ino,
    (is_Some (InoStatInfo f !! ino) ↔ is_Some (InoPaths f !! ino)) ∧
    (inBucket f ino → is_Some (InoStatInfo f !! ino)) ∧
    (is_Some (InoStatInfo f !! ino) →
       inBucket f ino ∨ is_Some (LinkedInos f !! ino)).
Proof.
  intros Hing ino. apply ingested_tablesOK in Hing as [Hpaths Hbucket Hfiled _ _ _].
  split_and!; [apply Hpaths|apply Hbucket|apply Hfiled].
Qed.

(** ** Ingestion returns *)

Lemma ArbitraryPath_paths E f f' ino :
  InoPaths f' = InoPaths f → ArbitraryPath E f' ino = ArbitraryPath E f ino.
Proof. intros H. unfold ArbitraryPath, pathsAt. by rewrite H. Qed.

Lemma ArbitraryPath_returns E f ino :
  tablesOK f → is_Some (InoStatInfo f !! ino) →
  ∃ p, ArbitraryPath E f ino = Done p.
Proof.
  intros Hok Hin. apply (ok_paths f Hok) in Hin as [fp Hfp].
  destruct (ok_nonempty f Hok ino fp Hfp) as [Hne Hlists].
  unfold ArbitraryPath, pathsAt. rewrite Hfp. cbn.
  pose proof (rangeOf_perm (ranges E) _ fp) as Hperm.
  destruct (rangeOf (ranges E) fp) as [|[fn v] rest] eqn:Hrange.
  - apply Permutation_nil_l in Hperm. symmetry in Hperm.
    by apply map_to_list_empty_iff in Hperm.
  - assert (Hv : fp !! fn = Some v).
    { apply elem_of_map_to_list. rewrite <- Hperm. by left. }
    apply Hlists in Hv. destruct v as [|p v]; [done|]. eauto.
Qed.

Lemma searchSeq_returns E f st cur cached :
  ∃ x, searchSeq E f st cur cached = Done x.
Proof.
  unfold searchSeq. destruct (useDigestFor E _); [|eauto].
  destruct (contentDigest E _ st) as [[digest|] st1]; [|eauto].
  destruct (addPathStatDigest_frame f cur digest) as (_ & _ & Hin).
  unfold digestSets. cbn zeta.
  rewrite bool_decide_eq_false_2 by set_solver. cbn.
  rewrite bool_decide_eq_false_2 by set_solver. cbn. eauto.
Qed.

Lemma searchLoop_returns E f st seq cur ud :
  (∀ c, c ∈ seq → ∃ p, ArbitraryPath E f c = Done p) →
  ∃ x, searchLoop E f st seq cur ud = Done x.
Proof.
  revert f st. induction seq as [|c rest IH]; intros f st Hpaths; [cbn; eauto|].
  cbn [searchLoop]. unfold PathStatFromIno.
  destruct (Hpaths c) as [p ->]; [by left|]. cbn.
  destruct (areFilesHardlinkable E f _ _ cur ud) as [[eq f1] st1] eqn:Hcmp.
  apply areFilesHardlinkable_frame in Hcmp as ((_&_&_&_&HP&_) & _).
  destruct eq; [eauto|]. apply IH. intros c' Hc'.
  rewrite (ArbitraryPath_paths E f f1) by done. apply Hpaths. by right.
Qed.

(** On a state reached by ingestion, ingesting a file of the same device
    never panics and never runs out of fuel. *)
Lemma findIdenticalFiles_returns E f st d p :
  tablesOK f → Dev f = dsDev d →
  ∃ f' st', findIdenticalFiles E f st d p = Done (f', st').
Proof.
  intros Hok Hdev. unfold findIdenticalFiles.
  rewrite (proj2 (Z.eqb_eq _ _) Hdev). cbn [negb].
  set (ino := Ino (dsStat d)). set (h := InoHash (dsStat d) (MyOptions E)).
  set (st0 := match InoStatInfo f !! ino with None => FoundInode st | Some _ => st end).
  clearbody st0.
  destruct (InoHashes f !! h) as [hashedInos|] eqn:Hbucket; [|cbn; eauto].
  assert (Hexisting : ∃ st1,
    match InoStatInfo f !! ino with
    | Some prevStatinfo =>
      ArbitraryPath E f ino ≫= λ prevPath,
        Done (FoundExistingLink
                {| elSrc := prevPath; elDst := SplitPathname E p;
                   elStat := prevStatinfo |} (FoundHash st0))
    | None => Done (FoundHash st0)
    end = Done st1).
  { destruct (InoStatInfo f !! ino) as [prev|] eqn:Hprev; [|eauto].
    destruct (ArbitraryPath_returns E f ino Hok) as [pp ->]; [eauto|]. cbn. eauto. }
  destruct Hexisting as [st1 ->]. cbn [mbind Outcome_bind].
  destruct (linkedInoSet_returns E f ino) as (linked & -> & _). cbn [mbind Outcome_bind].
  destruct (bool_decide (linked ∩ hashedInos ≠ ∅)); cbn [negb]; [cbn; eauto|].
  destruct (searchSeq_returns E f (SearchedInoSeq st1)
              {| psPath := SplitPathname E p; psStat := dsStat d |} hashedInos)
    as [[[[f2 st2] seq] ud] Hseq].
  rewrite Hseq. cbn [mbind Outcome_bind].
  apply searchSeq_spec in Hseq as ((_&_&_&_&HP2&_) & _ & Hsub & _).
  destruct (searchLoop_returns E f2 st2 seq
              {| psPath := SplitPathname E p; psStat := dsStat d |} ud)
    as [[[early f3] st3] ->].
  { intros c Hc. rewrite (ArbitraryPath_paths E f f2) by done.
    apply ArbitraryPath_returns; [done|].
    apply (ok_bucket f Hok). exists h, hashedInos. auto. }
  cbn [mbind Outcome_bind]. destruct early; cbn; eauto.
Qed.

(** ** Runs *)

(** Ingest the files of a walk, in order. *)
Fixpoint ingestAll (E : Env) (f : FSDev) (st : LinkingStats)
    (files : list (DevStatInfo * string)) : Outcome (FSDev * LinkingStats) :=
  match files with
  | [] => Done (f, st)
  | (d, p) :: rest =>
    '(f, st) ← findIdenticalFiles E f st d p; ingestAll E f st rest
  end.

Lemma ingestAll_ingested E files f st f' st' :
  ingested E f st → ingestAll E f st files = Done (f', st') → ingested E f' st'.
Proof.
  revert f st. induction files as [|[d p] rest IH]; intros f st Hing Hrun.
  - cbn in Hrun. by injection Hrun as <- <-.
  - cbn [ingestAll] in Hrun. bind_inv Hrun as [f1 st1] Hstep.
    eapply IH; [|exact Hrun]. by eapply ingested_more.
Qed.

(** Two identical one-byte files, [/a] (inode 1) and [/b] (inode 2). *)
Definition twoFiles : Outcome (FSDev * LinkingStats) :=
  ingestAll (demoEnv 1) (NewFSDev 7 100) NewLinkingStats
    [(demoStat 1, "/a"); (demoStat 2, "/b")].

(** Membership in some bucket, computed. *)
Definition inBucketb (f : FSDev) (ino : Z) : bool :=
  existsb (λ kv : Z * gset Z, bool_decide (ino ∈ kv.2)) (map_to_list (InoHashes f)).

Lemma inBucketb_spec f ino : inBucket f ino ↔ inBucketb f ino = true.
Proof.
  unfold inBucket, inBucketb. rewrite existsb_exists. split.
  - intros (h & s & Hh & Hin). exists (h, s). split.
    + apply list_elem_of_In. by apply elem_of_map_to_list.
    + by apply bool_decide_eq_true.
  - intros ([h s] & Hin & Hb). exists h, s. split.
    + apply elem_of_map_to_list. by apply list_elem_of_In.
    + by apply bool_decide_eq_true in Hb.
Qed.

Lemma ingested_inode_is_indexed_witness :
  match twoFiles with
  | Done (f, st) =>
    (is_Some (InoStatInfo f !! 2) ↔ is_Some (InoPaths f !! 2)) ∧
    (inBucket f 2 → is_Some (InoStatInfo f !! 2)) ∧
    (is_Some (InoStatInfo f !! 2) → inBucket f 2 ∨ is_Some (LinkedInos f !! 2))
  | _ => False
  end.
Proof.
  destruct twoFiles as [[f st]| |] eqn:Hrun.
  - apply (ingested_inode_is_indexed (demoEnv 1) f st).
    eapply ingestAll_ingested; [apply ingested_new|exact Hrun].
  - vm_compute in Hrun. discriminate Hrun.
  - vm_compute in Hrun. discriminate Hrun.
Defined.

(** C1 as stated fails: inode 2, found equal to inode 1, has a StatInfo
    and paths but is in no bucket. *)
Lemma linked_inode_in_no_bucket :
  match twoFiles with
  | Done (f, st) =>
    is_Some (InoStatInfo f !! 2) ∧ is_Some (InoPaths f !! 2) ∧ ¬ inBucket f 2
  | _ => False
  end.
Proof.
  destruct twoFiles as [[f st]| |] eqn:Hrun;
    [|vm_compute in Hrun; discriminate Hrun..].
  assert (Hs : is_Some (InoStatInfo f !! 2) ∧ is_Some (InoPaths f !! 2)
               ∧ inBucketb f 2 = false).
  { assert (Hf : f = (match twoFiles with Done (f, _) => f | _ => f end))
      by (by rewrite Hrun).
    rewrite Hf. clear. vm_compute. split_and!; eauto. }
  destruct Hs as (H1 & H2 & H3). split_and!; [done|done|].
  rewrite inBucketb_spec. congruence.
Qed.

(** ** Ingesting a file twice *)







(** ** The escalation to digests *)

Lemma digestSets_disjoint f cached digest :
  digestsIndexed f →
  let sets := digestSets f cached digest in
  (sets.1.1 ## sets.1.2) ∧ (sets.1.1 ## sets.2) ∧ (sets.1.2 ## sets.2).
Proof.
  intros Hidx. unfold digestSets. cbn.
  assert (setAt (DigestIno f) digest ⊆ InosWithDigest f).
  { unfold setAt. destruct (DigestIno f !! digest) as [s|] eqn:Hs; cbn; [|set_solver].
    by apply (Hidx digest). }
  set_solver.
Qed.

(** C4: at the escalation, in any state reached by ingestion, the three
    sets are pairwise disjoint and the inode being ingested is not in the
    no-digest set; the step that holds the two assertions always returns,
    and so does the ingestion of any file of the device. *)
Theorem digest_sets_disjoint_assertions_hold E f st :
  ingested E f st →
  ∀ cur cached digest,
    let f1 := addPathStatDigest f cur digest in
    let sets := digestSets f1 cached digest in
    (sets.1.1 ## sets.1.2) ∧ (sets.1.1 ## sets.2) ∧ (sets.1.2 ## sets.2) ∧
    (Ino (psStat cur) ∉ sets.1.2) ∧
    (∀ st0, ∃ x, searchSeq E f st0 cur cached = Done x) ∧
    (∀ d p, Dev f = dsDev d → ∃ x, findIdenticalFiles E f st d p = Done x).
Proof.
  intros Hing cur cached digest f1 sets.
  pose proof (ingested_tablesOK E f st Hing) as Hok.
  destruct (addPathStatDigest_frame f cur digest) as (_ & Hidx & Hin).
  destruct (digestSets_disjoint f1 cached digest (Hidx (ok_digests f Hok)))
    as (H1 & H2 & H3).
  split_and!; [done|done|done| | |].
  - subst sets f1. unfold digestSets. cbn. set_solver.
  - intros st0. apply searchSeq_returns.
  - intros d p Hdev.
    destruct (findIdenticalFiles_returns E f st d p Hok Hdev) as (f' & st' & ->). eauto.
Qed.

Lemma digest_sets_disjoint_witness :
  match twoFiles with
  | Done (f, st) =>
    let cur := {| psPath := {| Dirname := ""; Filename := "/c" |};
                  psStat := dsStat (demoStat 3) |} in
    let sets := digestSets (addPathStatDigest f cur 5) {[1]} 5 in
    (sets.1.1 ## sets.1.2) ∧ (sets.1.1 ## sets.2) ∧ (sets.1.2 ## sets.2) ∧
    (Ino (psStat cur) ∉ sets.1.2)
  | _ => False
  end.
Proof.
  destruct twoFiles as [[f st]| |] eqn:Hrun;
    [|vm_compute in Hrun; discriminate Hrun..].
  intros cur sets.
  destruct (digest_sets_disjoint_assertions_hold (demoEnv 1) f st
              (ingestAll_ingested _ _ _ _ _ _ (ingested_new _ 7 100) Hrun)
              cur {[1]} 5) as (H1 & H2 & H3 & H4 & _).
  done.
Defined.






(** * The link planner *)

(** ** Paths recorded for an inode *)

(** All recorded paths of [ino], in the canonical order of the map. *)
Definition allPaths (f : FSDev) (ino : Z) : list Pathsplit :=
  mjoin (snd <$> map_to_list (pathsAt f ino)).

(** Every path is filed under its own filename. *)
Definition keyed (fp : gmap string (list Pathsplit)) : Prop :=
  ∀ fn l p, fp !! fn = Some l → p ∈ l → Filename p = fn.

Lemma allInoPaths_perm E f ino : Hardlinkable.allInoPaths E f ino ≡ₚ allPaths f ino.
Proof.
  unfold Hardlinkable.allInoPaths, allPaths.
  by rewrite (rangeOf_perm (ranges E)).
Qed.

Lemma elem_of_allPaths f ino p :
  p ∈ allPaths f ino ↔ ∃ fn l, pathsAt f ino !! fn = Some l ∧ p ∈ l.
Proof.
  unfold allPaths. rewrite list_elem_of_join. split.
  - intros (l & Hp & Hl). apply list_elem_of_fmap in Hl as ([fn l'] & -> & Hin).
    apply elem_of_map_to_list in Hin. eauto.
  - intros (fn & l & Hl & Hp). exists l. split; [done|].
    apply list_elem_of_fmap. exists (fn, l). split; [done|].
    by apply elem_of_map_to_list.
Qed.

Lemma removeFirst_perm p l : p ∈ l → l ≡ₚ p :: Hardlinkable.removeFirst p l.
Proof.
  induction l as [|q l IH]; [by intros ?%elem_of_nil|].
  intros Hin. cbn. case_decide as Hq; [by subst|].
  apply elem_of_cons in Hin as [->|Hin]; [done|].
  rewrite (IH Hin) at 1. apply perm_swap.
Qed.

Lemma removeFirst_subseteq p l : Hardlinkable.removeFirst p l ⊆ l.
Proof.
  induction l as [|q l IH]; [done|]. cbn. case_decide; set_solver.
Qed.

Lemma allPaths_replace (fp : gmap string (list Pathsplit)) fn l l' :
  fp !! fn = Some l →
  mjoin (snd <$> map_to_list fp) ≡ₚ l ++ mjoin (snd <$> map_to_list (delete fn fp)) ∧
  mjoin (snd <$> map_to_list (<[fn := l']> fp))
    ≡ₚ l' ++ mjoin (snd <$> map_to_list (delete fn fp)).
Proof.
  intros Hl. split.
  - by rewrite <- (map_to_list_delete fp fn l Hl).
  - rewrite <- (insert_delete_eq fp).
    rewrite map_to_list_insert by apply lookup_delete_eq. done.
Qed.

(** ** moveLinkedPath *)

Lemma pathsAt_set_InoPaths v f x : pathsAt (set_InoPaths v f) x = default ∅ (v !! x).
Proof. done. Qed.

Lemma InoAppendPathname_pathsAt f ino p x :
  pathsAt (InoAppendPathname f ino p) x =
    if decide (x = ino)
    then <[Filename p := default [] (pathsAt f ino !! Filename p) ++ [p]]> (pathsAt f ino)
    else pathsAt f x.
Proof.
  unfold InoAppendPathname. rewrite pathsAt_set_InoPaths.
  case_decide as Hx.
  - subst. by rewrite lookup_insert_eq.
  - by rewrite lookup_insert_ne.
Qed.

(** The map of [dstIno] after [dstPath] was taken out of it. *)
Definition withoutPath (fp : gmap string (list Pathsplit)) (dstPath : Pathsplit)
  : gmap string (list Pathsplit) :=
  let p := Hardlinkable.removeFirst dstPath (default [] (fp !! Filename dstPath)) in
  if (length p =? 0)%nat then delete (Filename dstPath) fp
  else <[Filename dstPath := p]> fp.

Lemma moveLinkedPath_pathsAt f p src dst x :
  src ≠ dst →
  pathsAt (Hardlinkable.moveLinkedPath f p src dst) x =
    if decide (x = src)
    then <[Filename p := default [] (pathsAt f src !! Filename p) ++ [p]]> (pathsAt f src)
    else if decide (x = dst) then withoutPath (pathsAt f dst) p
    else pathsAt f x.
Proof.
  intros Hne. unfold Hardlinkable.moveLinkedPath, withoutPath.
  rewrite InoAppendPathname_pathsAt.
  assert (Halter : ∀ g y, pathsAt (set_InoPaths (alter g dst (InoPaths f)) f) y =
                          if decide (y = dst) then default ∅ (g <$> InoPaths f !! dst)
                          else pathsAt f y).
  { intros g y. rewrite pathsAt_set_InoPaths. case_decide as Hy.
    - subst. by rewrite lookup_alter_eq.
    - by rewrite lookup_alter_ne. }
  destruct (length _ =? 0)%nat eqn:Hlen; rewrite !Halter;
    repeat case_decide; subst; try done;
    unfold pathsAt; destruct (InoPaths f !! dst) as [fp|] eqn:Hfp; cbn; try done.
  unfold pathsAt in Hlen. rewrite Hfp in Hlen. cbn in Hlen.
  rewrite lookup_empty in Hlen. cbn in Hlen. done.
Qed.

Lemma moveLinkedPath_tables f p src dst :
  InoStatInfo (Hardlinkable.moveLinkedPath f p src dst) = InoStatInfo f ∧
  MaxNLinks (Hardlinkable.moveLinkedPath f p src dst) = MaxNLinks f.
Proof.
  unfold Hardlinkable.moveLinkedPath. by destruct (length _ =? 0)%nat.
Qed.

Lemma withoutPath_perm fp p :
  keyed fp → p ∈ mjoin (snd <$> map_to_list fp) →
  mjoin (snd <$> map_to_list fp) ≡ₚ p :: mjoin (snd <$> map_to_list (withoutPath fp p)).
Proof.
  intros Hkeyed Hin.
  apply list_elem_of_join in Hin as (l & Hp & Hl).
  apply list_elem_of_fmap in Hl as ([fn l'] & -> & Hl). cbn in Hp.
  apply elem_of_map_to_list in Hl.
  assert (Filename p = fn) as <- by (by eapply Hkeyed).
  unfold withoutPath. rewrite Hl. cbn.
  pose proof (removeFirst_perm p l' Hp) as Hperm.
  destruct (allPaths_replace fp (Filename p) l' (Hardlinkable.removeFirst p l') Hl)
    as [Hall Hins].
  destruct (length _ =? 0)%nat eqn:Hlen.
  - apply Nat.eqb_eq, nil_length_inv in Hlen. rewrite Hlen in Hperm.
    rewrite Hall, Hperm. done.
  - rewrite Hall, Hins. rewrite Hperm at 1. done.
Qed.

Lemma withoutPath_keyed fp p : keyed fp → keyed (withoutPath fp p).
Proof.
  intros Hkeyed fn l q. unfold withoutPath.
  destruct (length _ =? 0)%nat.
  - intros [_ Hl]%lookup_delete_Some. by apply Hkeyed.
  - intros [[<- <-]|[_ Hl]]%lookup_insert_Some Hq; [|by eapply Hkeyed].
    apply removeFirst_subseteq in Hq.
    destruct (fp !! Filename p) as [l0|] eqn:Hl0; cbn in Hq; [|by apply elem_of_nil in Hq].
    by eapply Hkeyed.
Qed.

Lemma appended_keyed fp p :
  keyed fp → keyed (<[Filename p := default [] (fp !! Filename p) ++ [p]]> fp).
Proof.
  intros Hkeyed fn l q.
  intros [[<- <-]|[_ Hl]]%lookup_insert_Some Hq; [|by eapply Hkeyed].
  apply elem_of_app in Hq as [Hq|Hq%list_elem_of_singleton]; [|by subst].
  destruct (fp !! Filename p) as [l0|] eqn:Hl0; cbn in Hq; [|by apply elem_of_nil in Hq].
  by eapply Hkeyed.
Qed.

(** ** The planner's invariant *)

(** Every stored nlink is a [uint32]. *)
Definition nlinkInRange (f : FSDev) : Prop :=
  ∀ ino si, InoStatInfo f !! ino = Some si → 0 ≤ Nlink si < 2 ^ 32.

Definition keyedAll (f : FSDev) : Prop := ∀ x, keyed (pathsAt f x).

(** The walk found no more paths to [ino] than the inode has links. *)
Definition pathsWithinNlink (f : FSDev) (ino : Z) : Prop :=
  Z.of_nat (length (allPaths f ino)) ≤ Nlink (statAt f ino).

(** Linking one more path to the pair's source stays within the cap. *)
Definition withinCap (maxNLinks : Z) (pair : Hardlinkable.PathInfoPair) : Prop :=
  Nlink (psStat (Hardlinkable.Src pair)) + 1 ≤ maxNLinks.

Lemma statAt_range f x : nlinkInRange f → 0 ≤ Nlink (statAt f x) < 2 ^ 32.
Proof.
  intros Hr. unfold statAt. destruct (InoStatInfo f !! x) as [si|] eqn:Hsi; cbn.
  - by eapply Hr.
  - lia.
Qed.

Lemma wrap32_range x : 0 ≤ wrap 32 x < 2 ^ 32.
Proof. unfold wrap. apply Z.mod_pos_bound. lia. Qed.

Lemma wrap32_le x : 0 ≤ x → wrap 32 x ≤ x.
Proof. intros. unfold wrap. apply Z.mod_le; lia. Qed.

Lemma wrap_small w x : 0 ≤ x < 2 ^ w → wrap w x = x.
Proof. intros. unfold wrap. by apply Z.mod_small. Qed.

Lemma linkDstPaths_spec E sn src dst todo :
  ∀ srcSI dstSI f r out f' r' out',
  Hardlinkable.linkDstPaths E sn src dst todo srcSI dstSI f r out = Done (f', r', out') →
  src ≠ dst → nlinkInRange f → keyedAll f →
  todo ⊆+ allPaths f dst →
  0 ≤ Nlink srcSI < 2 ^ 32 →
  Nlink srcSI + Z.of_nat (length todo) ≤ MaxNLinks f →
  Z.of_nat (length (allPaths f dst)) ≤ Nlink dstSI < 2 ^ 32 →
  Nlink (statAt f dst) = Nlink dstSI →
  Forall (withinCap (MaxNLinks f)) out →
  Forall (withinCap (MaxNLinks f)) out' ∧
  MaxNLinks f' = MaxNLinks f ∧ nlinkInRange f' ∧ keyedAll f' ∧
  pathsWithinNlink f' dst ∧
  (∀ x, x ≠ src → x ≠ dst → pathsAt f' x = pathsAt f x ∧ statAt f' x = statAt f x).
Proof.
  induction todo as [|dstPath rest IH];
    intros srcSI dstSI f r out f' r' out' Hrun Hne Hrange Hkeyed Htodo Hsrc Hcap Hdst
           Hstat Hout.
  - cbn in Hrun. injection Hrun as <- <- <-.
    split_and!; try done. unfold pathsWithinNlink. lia.
  - cbn [Hardlinkable.linkDstPaths] in Hrun. bind_inv Hrun as choice Hchoice.
    cbn [length] in Hcap.
    destruct choice as [srcPath|].
    2: { apply (IH srcSI dstSI f r out f' r' out' Hrun Hne Hrange Hkeyed);
           [|done|lia|done|done|done].
         apply submseteq_cons_l in Htodo as (k' & -> & Hsub).
         by apply submseteq_cons. }
    bind_inv Hrun as r1 Hr1.
    set (srcSI' := Hardlinkable.setNlink srcSI (wrap 32 (Nlink srcSI + 1))) in *.
    set (dstSI' := Hardlinkable.setNlink dstSI (wrap 32 (Nlink dstSI - 1))) in *.
    set (f1 := set_InoStatInfo (<[src := srcSI']> (InoStatInfo f)) f) in *.
    destruct (if Nlink dstSI' =? 0
              then (set_InoStatInfo (delete dst (InoStatInfo f1)) f1,
                    Hardlinkable.foundRemovedInode r1 (Size dstSI'))
              else (set_InoStatInfo (<[dst := dstSI']> (InoStatInfo f1)) f1, r1))
      as [f2 r2] eqn:Hf2.
    set (f3 := Hardlinkable.moveLinkedPath f2 dstPath src dst) in *.
    assert (Hin : dstPath ∈ allPaths f dst).
    { eapply elem_of_submseteq; [|exact Htodo]. by left. }
    assert (Hpaths2 : ∀ x, pathsAt f2 x = pathsAt f x).
    { intros x. destruct (Nlink dstSI' =? 0); by injection Hf2 as <- _. }
    assert (HM2 : MaxNLinks f2 = MaxNLinks f).
    { destruct (Nlink dstSI' =? 0); by injection Hf2 as <- _. }
    assert (Hstat2 : InoStatInfo f2 =
              if Nlink dstSI' =? 0 then delete dst (<[src := srcSI']> (InoStatInfo f))
              else <[dst := dstSI']> (<[src := srcSI']> (InoStatInfo f))).
    { destruct (Nlink dstSI' =? 0); by injection Hf2 as <- _. }
    destruct (moveLinkedPath_tables f2 dstPath src dst) as [Hstat3 HM3].
    fold f3 in Hstat3, HM3.
    assert (Hpaths3 : ∀ x, pathsAt f3 x =
              if decide (x = src)
              then <[Filename dstPath :=
                       default [] (pathsAt f src !! Filename dstPath) ++ [dstPath]]>
                     (pathsAt f src)
              else if decide (x = dst) then withoutPath (pathsAt f dst) dstPath
              else pathsAt f x).
    { intros x. subst f3. rewrite moveLinkedPath_pathsAt by done.
      by rewrite !Hpaths2. }
    assert (Hperm : allPaths f dst ≡ₚ dstPath :: allPaths f3 dst).
    { unfold allPaths at 2. rewrite Hpaths3.
      rewrite decide_False by done. rewrite decide_True by done.
      apply withoutPath_perm; [apply Hkeyed|done]. }
    assert (Hlen : length (allPaths f dst) = S (length (allPaths f3 dst)))
      by (by rewrite Hperm).
    assert (Hm : wrap 32 (Nlink dstSI - 1) = Nlink dstSI - 1)
      by (apply wrap_small; lia).
    pose proof (wrap32_range (Nlink srcSI + 1)) as Hn_range.
    pose proof (wrap32_le (Nlink srcSI + 1) ltac:(lia)) as Hn_le.
    assert (Hrange3 : nlinkInRange f3).
    { intros ino si. rewrite Hstat3, Hstat2.
      destruct (Nlink dstSI' =? 0).
      - intros [_ Hsi]%lookup_delete_Some.
        apply lookup_insert_Some in Hsi as [[_ <-]|[_ Hsi]]; [done|by eapply Hrange].
      - intros [[_ <-]|[_ Hsi]]%lookup_insert_Some; [cbn; lia|].
        apply lookup_insert_Some in Hsi as [[_ <-]|[_ Hsi]]; [done|by eapply Hrange]. }
    assert (Hstat_dst : Nlink (statAt f3 dst) = Nlink dstSI').
    { unfold statAt. rewrite Hstat3, Hstat2.
      destruct (Nlink dstSI' =? 0) eqn:Hz.
      - rewrite lookup_delete_eq. apply Z.eqb_eq in Hz. by rewrite Hz.
      - by rewrite lookup_insert_eq. }
    assert (Hstat_other : ∀ x, x ≠ src → x ≠ dst → statAt f3 x = statAt f x).
    { intros x Hx1 Hx2. unfold statAt. rewrite Hstat3, Hstat2.
      destruct (Nlink dstSI' =? 0).
      - rewrite lookup_delete_ne, lookup_insert_ne by done. done.
      - rewrite !lookup_insert_ne by done. done. }
    destruct (IH srcSI' dstSI' f3 r2 _ f' r' out' Hrun) as (Hout' & HM' & Hr' & Hk' & Hw' & Hoth');
      try done.
    + intros x. rewrite Hpaths3. repeat case_decide.
      * apply appended_keyed, Hkeyed.
      * apply withoutPath_keyed, Hkeyed.
      * apply Hkeyed.
    + apply (submseteq_app_inv_l _ _ [dstPath]). cbn. by rewrite <- Hperm.
    + rewrite HM3, HM2. cbn. lia.
    + cbn. rewrite Hm. lia.
    + rewrite HM3, HM2. apply Forall_app. split; [done|].
      apply Forall_singleton. unfold withinCap. cbn. lia.
    + split_and!; try done.
      * by rewrite HM3, HM2 in Hout'.
      * congruence.
      * intros x Hx1 Hx2. destruct (Hoth' x Hx1 Hx2) as [-> ->].
        rewrite Hpaths3, decide_False, decide_False by done. auto.
Qed.

Definition planInv (f : FSDev) (inos : list Z) : Prop :=
  NoDup inos ∧ nlinkInRange f ∧ keyedAll f ∧ ∀ x, x ∈ inos → pathsWithinNlink f x.

Lemma planInv_perm f l1 l2 : l1 ≡ₚ l2 → planInv f l1 → planInv f l2.
Proof.
  intros Hp (Hnd & Hr & Hk & Hw). split_and!; [by rewrite <- Hp|done|done|].
  intros x Hx. apply Hw. by rewrite Hp.
Qed.

Lemma dstLoop_spec E sn fuel src :
  ∀ sorted remaining f r out sorted' remaining' f' r' out',
  Hardlinkable.dstLoop E sn fuel src sorted remaining f r out
    = Done (sorted', remaining', f', r', out') →
  planInv f (sorted ++ remaining) → src ∉ sorted ++ remaining →
  Forall (withinCap (MaxNLinks f)) out →
  planInv f' (sorted' ++ remaining') ∧ MaxNLinks f' = MaxNLinks f ∧
  Forall (withinCap (MaxNLinks f)) out'.
Proof.
  induction fuel as [|fuel IH];
    intros sorted remaining f r out sorted' remaining' f' r' out' Hrun Hinv Hsrc Hout;
    cbn [Hardlinkable.dstLoop] in Hrun;
    destruct (popLast sorted) as [[sorted0 dst]|] eqn:Hpop;
    try discriminate Hrun;
    try (injection Hrun as <- <- <- <- <-; done).
  apply popLast_Some in Hpop. subst sorted.
  destruct Hinv as (Hnd & Hrange & Hkeyed & Hwithin).
  assert (Hdst_in : dst ∈ (sorted0 ++ [dst]) ++ remaining) by set_solver.
  assert (Hne : src ≠ dst) by (intros ->; done).
  pose proof (statAt_range f src Hrange) as Hsrc_range.
  pose proof (statAt_range f dst Hrange) as Hdst_range.
  pose proof (Hwithin dst Hdst_in) as Hdst_within. unfold pathsWithinNlink in Hdst_within.
  rewrite !(wrap_small 64 (Nlink _)) in Hrun by lia.
  rewrite (wrap_small 64) in Hrun by lia.
  destruct (MaxNLinks f <? Nlink (statAt f src) + Nlink (statAt f dst)) eqn:Hsum.
  - injection Hrun as <- <- <- <- <-. split_and!; [|done|done].
    eapply planInv_perm; [|split_and!; done].
    unfold Hardlinkable.appendReversedInos. cbn.
    rewrite <- Permutation_rev. solve_Permutation.
  - apply Z.ltb_ge in Hsum.
    bind_inv Hrun as [[f1 r1] out1] Hlink.
    apply linkDstPaths_spec in Hlink
      as (Hout1 & HM1 & Hrange1 & Hkeyed1 & Hwithin1 & Hother1); try done.
    2: { by rewrite allInoPaths_perm. }
    2: { rewrite allInoPaths_perm. lia. }
    2: { lia. }
    set (remaining1 := match InoPaths f1 !! dst with
                       | Some fp => if negb (Hardlinkable.IsEmpty fp)
                                    then remaining ++ [dst] else remaining
                       | None => remaining
                       end) in *.
    assert (Hsub : ∀ x, x ∈ sorted0 ++ remaining1 → x ∈ (sorted0 ++ [dst]) ++ remaining).
    { intros x. subst remaining1.
      destruct (InoPaths f1 !! dst) as [fp|]; [destruct (negb _)|]; set_solver. }
    assert (Hnd1 : NoDup (sorted0 ++ remaining1)).
    { rewrite <- app_assoc in Hnd. apply NoDup_app in Hnd as (Hnd0 & Hdisj & Hnd2).
      apply NoDup_app in Hnd2 as (_ & Hdisj2 & Hnd3).
      subst remaining1.
      destruct (InoPaths f1 !! dst) as [fp|]; [destruct (negb _)|];
        apply NoDup_app; split_and!; try done;
        try (intros x Hx Hx'; apply (Hdisj x Hx); set_solver).
      apply NoDup_app. split_and!; [done| |apply NoDup_singleton].
      intros x Hx ->%list_elem_of_singleton. apply (Hdisj2 dst); set_solver. }
    apply IH in Hrun as (Hinv' & HM' & Hout'); [| |set_solver|by rewrite HM1].
    + split_and!; [done|congruence|by rewrite HM1 in Hout'].
    + split_and!; [done|done|done|].
      intros x Hx. destruct (decide (x = dst)) as [->|Hxd]; [done|].
      assert (x ≠ src) by (intros ->; apply Hsrc, Hsub, Hx).
      destruct (Hother1 x) as [Hp Hs]; [done|done|].
      unfold pathsWithinNlink, allPaths. rewrite Hp, Hs. apply Hwithin, Hsub, Hx.
Qed.

Lemma sendLoop_spec E sn fuel :
  ∀ sorted remaining f r out f' r' out',
  Hardlinkable.sendLoop E sn fuel sorted remaining f r out = Done (f', r', out') →
  planInv f (sorted ++ remaining) →
  Forall (withinCap (MaxNLinks f)) out →
  Forall (withinCap (MaxNLinks f)) out'.
Proof.
  induction fuel as [|fuel IH];
    intros sorted remaining f r out f' r' out' Hrun Hinv Hout;
    cbn [Hardlinkable.sendLoop] in Hrun;
    destruct ((length sorted =? 0)%nat && (length remaining =? 0)%nat);
    try discriminate Hrun;
    try (by injection Hrun as <- <- <-).
  destruct (if (0 <? length remaining)%nat
            then (Hardlinkable.appendReversedInos sorted remaining, [])
            else (sorted, remaining)) as [sorted1 remaining1] eqn:Hpair.
  assert (Hinv1 : planInv f (sorted1 ++ remaining1)).
  { destruct (0 <? length remaining)%nat; injection Hpair as <- <-; [|done].
    eapply planInv_perm; [|exact Hinv].
    unfold Hardlinkable.appendReversedInos. rewrite app_nil_r.
    by rewrite <- Permutation_rev. }
  destruct sorted1 as [|src sorted2]; [done|].
  bind_inv Hrun as [[[[sorted3 remaining3] f3] r3] out3] Hdst.
  destruct Hinv1 as (Hnd & Hr & Hk & Hw). cbn in Hnd.
  apply NoDup_cons in Hnd as [Hsrc Hnd].
  apply dstLoop_spec in Hdst as (Hinv3 & HM3 & Hout3); [|split_and!; try done|done|done].
  - rewrite <- HM3. eapply IH; [exact Hrun|done|by rewrite HM3].
  - intros x Hx. apply Hw. by right.
Qed.

(** C5: when no inode of the component has more recorded paths than
    links (the stat results are current), every pair [sendLinkedPairs]
    emits carries a source StatInfo whose nlink, at that moment, is below
    the device's cap: one more link does not exceed it. *)
Theorem sendLinkedPairs_respects_max_nlink E sameName f r sortedInos f' r' out :
  NoDup sortedInos → nlinkInRange f → keyedAll f →
  (∀ ino, ino ∈ sortedInos → pathsWithinNlink f ino) →
  Hardlinkable.sendLinkedPairs E sameName f r sortedInos = Done (f', r', out) →
  ∀ pair, pair ∈ out →
    Nlink (psStat (Hardlinkable.Src pair)) + 1 ≤ MaxNLinks f.
Proof.
  intros Hnd Hr Hk Hw Hrun.
  apply Forall_forall. unfold Hardlinkable.sendLinkedPairs in Hrun.
  eapply sendLoop_spec; [exact Hrun| |done].
  rewrite app_nil_r. by split_and!.
Qed.

(** ** Three single-link inodes under a cap of two *)

Lemma rangeOf_singleton (o : RangeOrder) {V} fn (v : V) :
  rangeOf o ({[fn := v]} : gmap string V) = [(fn, v)].
Proof.
  apply Permutation_singleton_r. rewrite (rangeOf_perm o).
  by rewrite map_to_list_singleton.
Qed.

Lemma dstLoop_step E sn fuel src sorted0 dst remaining f r out :
  Hardlinkable.dstLoop E sn (S fuel) src (sorted0 ++ [dst]) remaining f r out =
    if MaxNLinks f <? wrap 64 (wrap 64 (Nlink (statAt f src)) + wrap 64 (Nlink (statAt f dst)))
    then Done ([], Hardlinkable.appendReversedInos (remaining ++ [dst]) sorted0, f, r, out)
    else
      '(f1, r1, out1) ←
        Hardlinkable.linkDstPaths E sn src dst (Hardlinkable.allInoPaths E f dst)
          (statAt f src) (statAt f dst) f r out;
      Hardlinkable.dstLoop E sn fuel src sorted0
        (match InoPaths f1 !! dst with
         | Some fp => if negb (Hardlinkable.IsEmpty fp) then remaining ++ [dst]
                      else remaining
         | None => remaining
         end) f1 r1 out1.
Proof.
  cbn [Hardlinkable.dstLoop]. rewrite popLast_snoc.
  destruct (MaxNLinks f <? _); [done|].
  destruct (Hardlinkable.linkDstPaths _ _ _ _ _ _ _ _ _ _) as [[[f1 r1] out1]| |]; done.
Qed.

Lemma sendLoop_step E sn fuel src sorted f r out :
  Hardlinkable.sendLoop E sn (S fuel) (src :: sorted) [] f r out =
    '(sorted1, remaining1, f1, r1, out1) ←
      Hardlinkable.dstLoop E sn (length sorted) src sorted [] f r out;
    Hardlinkable.sendLoop E sn fuel sorted1 remaining1 f1 r1 out1.
Proof.
  cbn [Hardlinkable.sendLoop length Nat.eqb andb Nat.ltb Nat.leb].
  destruct (Hardlinkable.dstLoop _ _ _ _ _ _ _ _ _) as [[[[[? ?] ?] ?] ?]| |]; done.
Qed.

Lemma three_single_links_one_pair E f a b c pa pc storeNew :
  a ≠ b → a ≠ c → b ≠ c → MaxNLinks f = 2 →
  Nlink (statAt f a) = 1 → Nlink (statAt f b) = 1 → Nlink (statAt f c) = 1 →
  ArbitraryPath E f a = Done pa →
  pathsAt f c = {[Filename pc := [pc]]} →
  ∃ f' r' pair,
    Hardlinkable.sendLinkedPairs E false f (Hardlinkable.newResults storeNew) [a; b; c]
      = Done (f', r', [pair]).
Proof.
  intros Hab Hac Hbc Hmax Ha Hb Hc Hpa Hpc.
  unfold Hardlinkable.sendLinkedPairs. cbn [length].
  rewrite sendLoop_step. cbn [length].
  (* the first destination: c *)
  rewrite (dstLoop_step E false 1 a [b] c []).
  rewrite Ha, Hc, Hmax. change (2 <? wrap 64 (wrap 64 1 + wrap 64 1)) with false.
  cbn match.
  assert (Hall : Hardlinkable.allInoPaths E f c = [pc]).
  { unfold Hardlinkable.allInoPaths. by rewrite Hpc, rangeOf_singleton. }
  rewrite Hall. cbn [Hardlinkable.linkDstPaths]. rewrite Hpa.
  cbn [mbind Outcome_bind].
  assert (Hnew : ∃ r1, Hardlinkable.foundNewLink (Join E)
                         (Hardlinkable.newResults storeNew) pa pc = Done r1).
  { unfold Hardlinkable.foundNewLink, Hardlinkable.newResults. cbn.
    destruct storeNew; cbn; eauto. }
  destruct Hnew as [r1 ->]. cbn [mbind Outcome_bind].
  rewrite Ha, Hc. cbn [Hardlinkable.setNlink Nlink].
  change (wrap 32 (1 - 1) =? 0) with true. cbn match.
  set (sa := Hardlinkable.setNlink (statAt f a) (wrap 32 (1 + 1))).
  set (sc := Hardlinkable.setNlink (statAt f c) (wrap 32 (1 - 1))).
  fold sa sc.
  set (f1 := set_InoStatInfo (<[a := sa]> (InoStatInfo f)) f).
  set (f2 := set_InoStatInfo (delete c (InoStatInfo f1)) f1).
  set (f3 := Hardlinkable.moveLinkedPath f2 pc a c).
  set (r2 := Hardlinkable.foundRemovedInode r1 (Size sc)).
  destruct (moveLinkedPath_tables f2 pc a c) as [Hstat3 HM3]. fold f3 in Hstat3, HM3.
  assert (Hc3 : pathsAt f3 c = ∅).
  { subst f3. rewrite moveLinkedPath_pathsAt by done.
    rewrite decide_False by congruence. rewrite decide_True by done.
    change (pathsAt f2 c) with (pathsAt f c). rewrite Hpc.
    unfold withoutPath. rewrite lookup_singleton_eq.
    change (default [] (Some [pc])) with [pc]. cbn [Hardlinkable.removeFirst].
    rewrite decide_True by done. cbn [length Nat.eqb].
    apply delete_singleton_eq. }
  assert (Hrem : ∀ rem : list Z,
            match InoPaths f3 !! c with
            | Some fp => if negb (Hardlinkable.IsEmpty fp) then rem ++ [c] else rem
            | None => rem
            end = rem).
  { intros rem. unfold pathsAt in Hc3.
    destruct (InoPaths f3 !! c) as [fp|]; [|done]. cbn in Hc3. by subst. }
  cbn [mbind Outcome_bind]. rewrite Hrem.
  (* the second destination: b does not fit under the cap *)
  change [b] with ([] ++ [b]). rewrite (dstLoop_step E false 0 a [] b []).
  assert (Ha3 : Nlink (statAt f3 a) = 2).
  { unfold statAt. rewrite Hstat3. cbn. rewrite lookup_delete_ne, lookup_insert_eq by done.
    done. }
  assert (Hb3 : Nlink (statAt f3 b) = 1).
  { unfold statAt. rewrite Hstat3. cbn.
    rewrite lookup_delete_ne, lookup_insert_ne by done. done. }
  rewrite Ha3, Hb3, HM3. cbn [MaxNLinks f2 f1 set_InoStatInfo]. rewrite Hmax.
  change (2 <? wrap 64 (wrap 64 2 + wrap 64 1)) with true. cbn match.
  cbn [mbind Outcome_bind app Hardlinkable.appendReversedInos rev].
  (* b becomes the next source, with nothing left to link to it *)
  cbn. eauto.
Qed.

(** C5: when no inode of the component has more recorded paths than
    links (the stat results are current), every pair [sendLinkedPairs]
    emits carries a source StatInfo whose nlink, at that moment, is below
    the device's cap: one more link does not exceed it.  In particular,
    with a cap of 2, three single-link inodes and one recorded path to
    link, exactly one pair is emitted. *)
Theorem planner_respects_max_nlink E :
  (∀ sameName f r sortedInos f' r' out,
     NoDup sortedInos → nlinkInRange f → keyedAll f →
     (∀ ino, ino ∈ sortedInos → pathsWithinNlink f ino) →
     Hardlinkable.sendLinkedPairs E sameName f r sortedInos = Done (f', r', out) →
     ∀ pair, pair ∈ out →
       Nlink (psStat (Hardlinkable.Src pair)) + 1 ≤ MaxNLinks f) ∧
  (∀ f a b c pa pc storeNew,
     a ≠ b → a ≠ c → b ≠ c → MaxNLinks f = 2 →
     Nlink (statAt f a) = 1 → Nlink (statAt f b) = 1 → Nlink (statAt f c) = 1 →
     ArbitraryPath E f a = Done pa →
     pathsAt f c = {[Filename pc := [pc]]} →
     ∃ f' r' pair,
       Hardlinkable.sendLinkedPairs E false f (Hardlinkable.newResults storeNew) [a; b; c]
         = Done (f', r', [pair])).
Proof.
  split.
  - intros sameName f r sortedInos f' r' out. apply sendLinkedPairs_respects_max_nlink.
  - intros f a b c pa pc storeNew. apply three_single_links_one_pair.
Qed.

(** Three identical single-link files on a device whose cap is 2. *)
Definition threeFilesCap2 : Outcome (FSDev * LinkingStats) :=
  ingestAll (demoEnv 1) (NewFSDev 7 2) NewLinkingStats
    [(demoStat 1, "/a"); (demoStat 2, "/b"); (demoStat 3, "/c")].

Definition isDone {A} (o : Outcome A) : bool :=
  match o with
  | Done _ => true
  | _ => false
  end.

Definition stateOf (o : Outcome (FSDev * LinkingStats)) : FSDev :=
  match o with
  | Done (f, _) => f
  | _ => NewFSDev 0 0
  end.

(** The planner's preconditions, computed. *)
Definition nlinkInRangeb (f : FSDev) : bool :=
  forallb (λ kv : Z * StatInfo, (0 <=? Nlink kv.2) && (Nlink kv.2 <? 2 ^ 32))
    (map_to_list (InoStatInfo f)).

Definition keyedb (fp : gmap string (list Pathsplit)) : bool :=
  forallb (λ kl : string * list Pathsplit,
             forallb (λ p, String.eqb (Filename p) kl.1) kl.2)
    (map_to_list fp).

Definition keyedAllb (f : FSDev) : bool :=
  forallb (λ kv : Z * gmap string (list Pathsplit), keyedb kv.2)
    (map_to_list (InoPaths f)).

Definition pathsWithinNlinkb (f : FSDev) (ino : Z) : bool :=
  Z.of_nat (length (allPaths f ino)) <=? Nlink (statAt f ino).

Lemma nlinkInRangeb_spec f : nlinkInRangeb f = true → nlinkInRange f.
Proof.
  unfold nlinkInRangeb. rewrite forallb_forall. intros H ino si Hsi.
  specialize (H (ino, si)). cbn in H.
  rewrite andb_true_iff, Z.leb_le, Z.ltb_lt in H. apply H.
  by apply list_elem_of_In, elem_of_map_to_list.
Qed.

Lemma keyedAllb_spec f : keyedAllb f = true → keyedAll f.
Proof.
  unfold keyedAllb, keyedb. rewrite forallb_forall.
  intros H x fn l p Hl Hp. unfold pathsAt in Hl.
  destruct (InoPaths f !! x) as [fp|] eqn:Hfp; cbn in Hl; [|by rewrite lookup_empty in Hl].
  specialize (H (x, fp)). cbn in H. rewrite forallb_forall in H.
  assert (Hfn : forallb (λ p, String.eqb (Filename p) fn) l = true).
  { apply (H ltac:(by apply list_elem_of_In, elem_of_map_to_list) (fn, l)).
    by apply list_elem_of_In, elem_of_map_to_list. }
  rewrite forallb_forall in Hfn. apply String.eqb_eq, Hfn. by apply list_elem_of_In.
Qed.

Lemma pathsWithinNlinkb_spec f ino : pathsWithinNlinkb f ino = true → pathsWithinNlink f ino.
Proof. unfold pathsWithinNlinkb, pathsWithinNlink. by rewrite Z.leb_le. Qed.

Lemma planner_respects_max_nlink_witness :
  let f := stateOf threeFilesCap2 in
  match Hardlinkable.sendLinkedPairs (demoEnv 1) false f (Hardlinkable.newResults true)
          [1; 2; 3] with
  | Done (_, _, out) =>
    length out = 1%nat ∧
    ∀ pair, pair ∈ out → Nlink (psStat (Hardlinkable.Src pair)) + 1 ≤ 2
  | _ => False
  end.
Proof.
  intros f.
  assert (Hd : isDone (Hardlinkable.sendLinkedPairs (demoEnv 1) false f
                         (Hardlinkable.newResults true) [1; 2; 3]) = true)
    by (vm_compute; reflexivity).
  revert Hd.
  destruct (Hardlinkable.sendLinkedPairs _ _ _ _ _) as [[[f' r'] out]| |] eqn:Hrun;
    intros Hd; [|discriminate Hd..].
  split.
  - assert (Hout : out = match Hardlinkable.sendLinkedPairs (demoEnv 1) false f
                           (Hardlinkable.newResults true) [1; 2; 3] with
                         | Done (_, _, out) => out | _ => [] end) by (by rewrite Hrun).
    rewrite Hout. vm_compute. reflexivity.
  - apply (proj1 (planner_respects_max_nlink (demoEnv 1)) false f
             (Hardlinkable.newResults true) [1; 2; 3] f' r' out).
    + clear. repeat (apply NoDup_cons_2; [rewrite ?elem_of_cons, elem_of_nil; lia|]).
      apply NoDup_nil_2.
    + apply nlinkInRangeb_spec. vm_compute. reflexivity.
    + apply keyedAllb_spec. vm_compute. reflexivity.
    + intros ino Hino. apply pathsWithinNlinkb_spec.
      repeat (apply elem_of_cons in Hino as [->|Hino]; [vm_compute; reflexivity|]).
      apply elem_of_nil in Hino. destruct Hino.
    + exact Hrun.
Defined.

(** * Further properties of the engine *)

(** ** linkedInoSet computes the connected inodes *)

(** [b] is recorded as linkable with [a]. *)
Definition linkedEdge (m : gmap Z (gset Z)) (a b : Z) : Prop := b ∈ setAt m a.

Lemma linkedLoop_sound (m0 : gmap Z (gset Z)) (R : Z → Prop) o fuel :
  (∀ x y, R x → linkedEdge m0 x y → R y) →
  ∀ rem pending res r,
  linkedLoop o fuel rem pending res = Done r →
  (∀ x s, rem !! x = Some s → m0 !! x = Some s) →
  (∀ x, x ∈ res → R x) → (∀ x, x ∈ pending → R x) →
  ∀ x, x ∈ r → R x.
Proof.
  intros Hstep. induction fuel as [|fuel IH]; intros rem pending res r Hrun Hrem Hres Hpend;
    cbn [linkedLoop] in Hrun;
    destruct (popLast pending) as [[pending' ino]|] eqn:Hpop;
    try discriminate Hrun; try (injection Hrun as <-; exact Hres).
  apply popLast_Some in Hpop. subst pending.
  assert (Hino : R ino) by (apply Hpend; set_solver).
  destruct (rem !! ino) as [s|] eqn:Hs.
  - eapply IH; [exact Hrun| | |].
    + intros x t Hx; apply lookup_delete_Some in Hx as [_ Hx]. by apply Hrem.
    + intros x [Hx| ->%elem_of_singleton]%elem_of_union; auto.
    + intros x [Hx|Hx]%elem_of_app; [apply Hpend; set_solver|].
      apply asSlice_elem_of in Hx. apply (Hstep ino); [done|].
      unfold linkedEdge, setAt. by rewrite (Hrem _ _ Hs).
  - eapply IH; [exact Hrun|done| |].
    + intros x [Hx| ->%elem_of_singleton]%elem_of_union; auto.
    + intros x Hx. apply Hpend. set_solver.
Qed.

Lemma linkedLoop_closed (m0 : gmap Z (gset Z)) o fuel :
  ∀ rem pending res r,
  linkedLoop o fuel rem pending res = Done r →
  (∀ x, rem !! x = m0 !! x ∨ x ∈ res) →
  (∀ x y, x ∈ res → linkedEdge m0 x y → y ∈ res ∨ y ∈ pending) →
  ∀ x y, x ∈ r → linkedEdge m0 x y → y ∈ r.
Proof.
  induction fuel as [|fuel IH]; intros rem pending res r Hrun HK HJ;
    cbn [linkedLoop] in Hrun;
    destruct (popLast pending) as [[pending' ino]|] eqn:Hpop;
    try discriminate Hrun.
  1,3: apply popLast_None in Hpop; subst pending; injection Hrun as <-;
       intros x y Hx Hxy; destruct (HJ x y Hx Hxy) as [?|Hy]; [done|];
       by apply elem_of_nil in Hy.
  apply popLast_Some in Hpop. subst pending.
  destruct (rem !! ino) as [s|] eqn:Hs.
  - eapply IH; [exact Hrun| |].
    + intros x. destruct (decide (x = ino)) as [->|Hne]; [right; set_solver|].
      rewrite lookup_delete_ne by done. destruct (HK x); [by left|right; set_solver].
    + intros x y [Hx| ->%elem_of_singleton]%elem_of_union Hxy.
      * destruct (HJ x y Hx Hxy) as [Hy|[Hy| ->%list_elem_of_singleton]%elem_of_app].
        -- left; set_solver.
        -- right. apply elem_of_app. by left.
        -- left; set_solver.
      * destruct (HK ino) as [Heq|Hin].
        -- right. apply elem_of_app. right. apply asSlice_elem_of.
           unfold linkedEdge, setAt in Hxy. by rewrite <- Heq, Hs in Hxy.
        -- destruct (HJ ino y Hin Hxy) as [Hy|[Hy| ->%list_elem_of_singleton]%elem_of_app].
           ++ left; set_solver.
           ++ right. apply elem_of_app. by left.
           ++ left; set_solver.
  - eapply IH; [exact Hrun| |].
    + intros x. destruct (HK x); [by left|right; set_solver].
    + intros x y [Hx| ->%elem_of_singleton]%elem_of_union Hxy.
      * destruct (HJ x y Hx Hxy) as [Hy|[Hy| ->%list_elem_of_singleton]%elem_of_app].
        -- left; set_solver.
        -- by right.
        -- left; set_solver.
      * destruct (HK ino) as [Heq|Hin].
        -- unfold linkedEdge, setAt in Hxy. rewrite <- Heq, Hs in Hxy.
           cbn in Hxy. set_solver.
        -- destruct (HJ ino y Hin Hxy) as [Hy|[Hy| ->%list_elem_of_singleton]%elem_of_app].
           ++ left; set_solver.
           ++ by right.
           ++ left; set_solver.
Qed.

Lemma linkedInoSet_sound E f ino r x :
  linkedInoSet E f ino = Done r → x ∈ r → rtc (linkedEdge (LinkedInos f)) ino x.
Proof.
  unfold linkedInoSet. destruct (LinkedInos f !! ino) as [s|] eqn:Hm.
  - intros Hrun. revert x.
    eapply (linkedLoop_sound (LinkedInos f)); [|exact Hrun|done|set_solver|].
    + intros a b Ha Hab. by eapply rtc_r.
    + intros a ->%list_elem_of_singleton. done.
  - intros [= <-] ->%elem_of_singleton. done.
Qed.

Lemma linkedInoSet_complete E f ino r x :
  linkedInoSet E f ino = Done r → rtc (linkedEdge (LinkedInos f)) ino x → x ∈ r.
Proof.
  intros Hrun.
  assert (Hself : ino ∈ r).
  { destruct (linkedInoSet_returns E f ino) as (r' & Hrun' & Hself & _). congruence. }
  unfold linkedInoSet in Hrun. destruct (LinkedInos f !! ino) as [s|] eqn:Hm.
  - intros [n Hreach]%rtc_nsteps.
    revert x Hreach. induction n as [|n IHn]; intros x Hreach.
    + inversion Hreach; by subst.
    + apply nsteps_inv_r in Hreach as (y & Hy & Hyx).
      eapply (linkedLoop_closed (LinkedInos f));
        [exact Hrun| | |by apply (IHn y)|done].
      * by left.
      * set_solver.
  - injection Hrun as <-. intros Hreach. destruct Hreach as [|a b c Hab _]; [done|].
    unfold linkedEdge, setAt in Hab. rewrite Hm in Hab. cbn in Hab. set_solver.
Qed.

(** [linkedInoSet] returns, and its result is exactly the set of the
    inodes connected to [ino] by a chain of recorded links ([ino] alone
    when it has no entry). *)
Theorem linkedInoSet_is_reachable_set E f ino :
  ∃ r, linkedInoSet E f ino = Done r ∧
       ∀ x, x ∈ r ↔ rtc (linkedEdge (LinkedInos f)) ino x.
Proof.
  destruct (linkedInoSet_returns E f ino) as (r & Hrun & _).
  exists r. split; [done|]. intros x. split.
  - by eapply linkedInoSet_sound.
  - by eapply linkedInoSet_complete.
Qed.

(** ** The graph of linkable inodes *)

Lemma setAt_addLinked m a b k :
  setAt (addLinked m a b) k = if decide (k = a) then setAt m a ∪ {[b]} else setAt m k.
Proof.
  unfold addLinked, setAt. case_decide as Hk.
  - subst. destruct (m !! a); rewrite lookup_insert_eq; cbn; [done|set_solver].
  - destruct (m !! a); by rewrite lookup_insert_ne.
Qed.

Lemma setAt_linkedWith m c ino k :
  c ≠ ino →
  setAt (linkedWith m c ino) k =
    if decide (k = ino) then setAt m ino ∪ {[c]}
    else if decide (k = c) then setAt m c ∪ {[ino]} else setAt m k.
Proof.
  intros Hne. unfold linkedWith. rewrite !setAt_addLinked.
  repeat case_decide; subst; done.
Qed.

(** [LinkedInos] is an undirected graph without loops on known inodes. *)
Definition linkGraphOK (f : FSDev) : Prop :=
  ∀ a b, b ∈ setAt (LinkedInos f) a →
         a ∈ setAt (LinkedInos f) b ∧ a ≠ b ∧ is_Some (InoStatInfo f !! a).

Lemma findIdenticalFiles_linkGraphOK E f st d p f' st' :
  tablesOK f → linkGraphOK f →
  findIdenticalFiles E f st d p = Done (f', st') → linkGraphOK f'.
Proof.
  intros Hok Hg Hrun.
  apply findIdenticalFiles_effect in Hrun as (_ & _ & _ & HS & _ & _ & Heff).
  assert (Hmono : ∀ a, is_Some (InoStatInfo f !! a) → is_Some (InoStatInfo f' !! a)).
  { intros a Ha. rewrite HS. apply lookup_insert_is_Some.
    destruct (decide (Ino (dsStat d) = a)); auto. }
  assert (Hold : LinkedInos f' = LinkedInos f → linkGraphOK f').
  { intros HL a b. rewrite HL. intros Hab.
    destruct (Hg a b Hab) as (? & ? & ?). auto. }
  destruct Heff as [_ _ HL | s linked _ _ _ _ HL _ _ | s linked c Hs _ _ Hc Hne _ HL
                    | s linked _ _ _ _ HL]; auto.
  assert (Hc_known : is_Some (InoStatInfo f !! c)).
  { apply (ok_bucket f Hok). by exists (InoHash (dsStat d) (MyOptions E)), s. }
  assert (Hino_c : Ino (statAt f c) = c).
  { destruct Hc_known as [si Hsi]. unfold statAt. rewrite Hsi. cbn.
    by apply (ok_ino f Hok). }
  rewrite Hino_c in Hne, HL.
  intros a b. rewrite HL, !setAt_linkedWith by done.
  assert (Hino_known : is_Some (InoStatInfo f' !! Ino (dsStat d)))
    by (rewrite HS, lookup_insert_eq; eauto).
  assert (Hc_known' : is_Some (InoStatInfo f' !! c)) by auto.
  assert (Hfacts : ∀ x y, y ∈ setAt (LinkedInos f) x →
            x ∈ setAt (LinkedInos f) y ∧ x ≠ y ∧ is_Some (InoStatInfo f' !! x)).
  { intros x y Hxy. destruct (Hg x y Hxy) as (? & ? & ?). auto. }
  clear Hg Hmono HS HL Hok Hs Hc Hino_c Hold Hc_known.
  generalize dependent (Ino (dsStat d)). intros ino Hne Hino_known.
  destruct (decide (a = ino)) as [->|Ha]; [|destruct (decide (a = c)) as [->|Hac]].
  - intros [Hab| ->%elem_of_singleton]%elem_of_union.
    + destruct (Hfacts _ _ Hab) as (Hba & Hne' & _). split_and!; [|done|done].
      rewrite decide_False by done. case_decide; set_solver.
    + rewrite decide_False, decide_True by done. split_and!; [set_solver|done|done].
  - intros [Hab| ->%elem_of_singleton]%elem_of_union.
    + destruct (Hfacts _ _ Hab) as (Hba & Hne' & _). split_and!; [|done|done].
      repeat case_decide; set_solver.
    + rewrite decide_True by done. split_and!; [set_solver|done|done].
  - intros Hab. destruct (Hfacts _ _ Hab) as (Hba & Hne' & Hs'). split_and!; [|done|done].
    repeat case_decide; subst; set_solver.
Qed.

Lemma ingested_linkGraphOK E f st : ingested E f st → linkGraphOK f.
Proof.
  induction 1 as [dev maxNLinks|f st d p f' st' Hing IH Hrun].
  - intros a b. unfold setAt. cbn. rewrite lookup_empty. cbn. set_solver.
  - eapply findIdenticalFiles_linkGraphOK; [by eapply ingested_tablesOK|done..].
Qed.

Lemma ingested_linked_known E f st :
  ingested E f st → ∀ x, is_Some (LinkedInos f !! x) → is_Some (InoStatInfo f !! x).
Proof.
  induction 1 as [dev maxNLinks|f st d p f' st' Hing IH Hrun].
  - intros x [s Hs]. cbn in Hs. by rewrite lookup_empty in Hs.
  - pose proof (ingested_tablesOK E f st Hing) as Hok.
    apply findIdenticalFiles_effect in Hrun as (_ & _ & _ & HS & _ & _ & Heff).
    assert (Hmono : ∀ a, is_Some (InoStatInfo f !! a) → is_Some (InoStatInfo f' !! a)).
    { intros a Ha. rewrite HS. apply lookup_insert_is_Some.
      destruct (decide (Ino (dsStat d) = a)); auto. }
    intros x.
    destruct Heff as [_ _ HL | s linked _ _ _ _ HL _ _ | s linked c Hs _ _ Hc Hne _ HL
                      | s linked _ _ _ _ HL]; rewrite HL; auto.
    assert (Hc_known : is_Some (InoStatInfo f !! c)).
    { apply (ok_bucket f Hok). by exists (InoHash (dsStat d) (MyOptions E)), s. }
    assert (Hino_c : Ino (statAt f c) = c).
    { destruct Hc_known as [si Hsi]. unfold statAt. rewrite Hsi. cbn.
      by apply (ok_ino f Hok). }
    rewrite Hino_c. intros [->|[->|Hx]]%linkedWith_is_Some; auto.
    rewrite HS, lookup_insert_eq. eauto.
Qed.

(** After any number of ingestions the linked adjacency is symmetric and
    has no loops, and both ends of every link have a StatInfo. *)
Theorem linked_inodes_form_undirected_graph E f st :
  ingested E f st →
  ∀ a b, b ∈ setAt (LinkedInos f) a →
    a ∈ setAt (LinkedInos f) b ∧ a ≠ b ∧
    is_Some (InoStatInfo f !! a) ∧ is_Some (InoStatInfo f !! b).
Proof.
  intros Hing a b Hab. apply ingested_linkGraphOK in Hing.
  destruct (Hing a b Hab) as (Hba & Hne & Ha).
  destruct (Hing b a Hba) as (_ & _ & Hb). done.
Qed.

(** ** Every known inode is connected to a bucket *)

Lemma linkedWith_edges m c ino a b :
  c ≠ ino → linkedEdge m a b → linkedEdge (linkedWith m c ino) a b.
Proof.
  intros Hne. unfold linkedEdge. rewrite setAt_linkedWith by done.
  repeat case_decide; subst; set_solver.
Qed.

(** Some member of a bucket is connected to [ino]. *)
Definition reachesBucket (f : FSDev) (ino : Z) : Prop :=
  ∃ b, rtc (linkedEdge (LinkedInos f)) ino b ∧ inBucket f b.

Lemma findIdenticalFiles_reachesBucket E f st d p f' st' :
  tablesOK f →
  (∀ x, is_Some (InoStatInfo f !! x) → reachesBucket f x) →
  findIdenticalFiles E f st d p = Done (f', st') →
  ∀ x, is_Some (InoStatInfo f' !! x) → reachesBucket f' x.
Proof.
  intros Hok Hinv Hrun.
  apply findIdenticalFiles_effect in Hrun as (_ & _ & _ & HS & _ & _ & Heff).
  set (ino := Ino (dsStat d)) in *. set (h := InoHash (dsStat d) (MyOptions E)) in *.
  assert (Hpeer : ∀ s c, InoHashes f !! h = Some s → c ∈ s → Ino (statAt f c) = c).
  { intros s c Hs Hc.
    destruct (ok_bucket f Hok c) as [si Hsi]; [by exists h, s|].
    unfold statAt. rewrite Hsi. cbn. by apply (ok_ino f Hok). }
  assert (Hedges : ∀ a b, linkedEdge (LinkedInos f) a b → linkedEdge (LinkedInos f') a b).
  { intros a b Hab.
    destruct Heff as [_ _ HL | s linked _ _ _ _ HL _ _ | s linked c Hs _ _ Hc Hne _ HL
                      | s linked _ _ _ _ HL]; rewrite HL; [done|done| |done].
    apply linkedWith_edges; [|done]. by rewrite (Hpeer s c Hs Hc) in Hne |- *. }
  assert (Hold : ∀ x, reachesBucket f x → reachesBucket f' x).
  { intros x (b & Hreach & Hb). exists b. split.
    - eapply rtc_subrel; [|exact Hreach]. exact Hedges.
    - by eapply ingestEffect_inBucket_mono. }
  intros x. rewrite HS. intros [<-|[_ Hx]]%lookup_insert_is_Some; [|by apply Hold, Hinv].
  destruct Heff as [_ HH _ | s linked Hs Hlinked Hmeet HH HL _ _
                    | s linked c Hs _ _ Hc Hne HH HL | s linked Hs _ _ HH _].
  - exists ino. split; [done|]. exists h, {[ino]}.
    rewrite HH, lookup_insert_eq. set_solver.
  - apply set_choose_L in Hmeet as [b [Hb1 Hb2]%elem_of_intersection].
    exists b. split.
    + rewrite HL. by eapply linkedInoSet_sound.
    + exists h, s. by rewrite HH.
  - exists c. rewrite (Hpeer s c Hs Hc) in Hne, HL. split.
    + apply rtc_once. unfold linkedEdge. rewrite HL, setAt_linkedWith by done.
      rewrite decide_True by done. set_solver.
    + exists h, s. by rewrite HH.
  - exists ino. split; [done|]. exists h, (s ∪ {[ino]}).
    rewrite HH, lookup_insert_eq. set_solver.
Qed.

(** After any number of ingestions, the linked set of every inode with
    a StatInfo holds a member of some bucket: the inode is filed in a
    bucket itself, or it is connected by links to one that is. *)
Theorem known_inode_is_linked_to_a_bucket E f st :
  ingested E f st →
  ∀ ino, is_Some (InoStatInfo f !! ino) →
    ∃ linked b, linkedInoSet E f ino = Done linked ∧ b ∈ linked ∧ inBucket f b.
Proof.
  intros Hing ino Hino.
  assert (Hinv : ∀ x, is_Some (InoStatInfo f !! x) → reachesBucket f x).
  { clear ino Hino. induction Hing as [dev maxNLinks|f st d p f' st' Hing IH Hrun].
    - intros x [si Hsi]. cbn in Hsi. by rewrite lookup_empty in Hsi.
    - eapply findIdenticalFiles_reachesBucket; [by eapply ingested_tablesOK|done..]. }
  destruct (Hinv ino Hino) as (b & Hreach & Hb).
  destruct (linkedInoSet_returns E f ino) as (linked & Hrun & _).
  exists linked, b. split_and!; [done| |done]. by eapply linkedInoSet_complete.
Qed.

(** ** The digest index *)

(** [P] holds of the two digest tables of [f]. *)
Definition digestsSatisfy (P : gmap Z (gset Z) → gset Z → Prop) (f : FSDev) : Prop :=
  P (DigestIno f) (InosWithDigest f).

Section DigestInvariant.
(** A property of the two digest tables that survives the recording
    of a digest for an inode that has none. *)
Variable P : gmap Z (gset Z) → gset Z → Prop.
Hypothesis P_add : ∀ fs ps d,
  Ino (psStat ps) ∉ InosWithDigest fs →
  P (DigestIno fs) (InosWithDigest fs) →
  P (DigestIno (helperPathStatDigest fs ps d))
    (InosWithDigest (helperPathStatDigest fs ps d)).

Lemma addPathStatDigest_digests fs ps d :
  digestsSatisfy P fs → digestsSatisfy P (addPathStatDigest fs ps d).
Proof. unfold addPathStatDigest. case_decide; [done|by apply P_add]. Qed.

Lemma newPathStatDigest_digests E fs st ps :
  digestsSatisfy P fs → digestsSatisfy P (newPathStatDigest E fs st ps).1.
Proof.
  unfold newPathStatDigest. case_decide; [done|].
  destruct (contentDigest E _ st) as [[digest|] st1]; [|done].
  by apply P_add.
Qed.

Lemma areFilesHardlinkable_digests E fs st ps1 ps2 ud :
  digestsSatisfy P fs → digestsSatisfy P (areFilesHardlinkable E fs st ps1 ps2 ud).1.2.
Proof.
  intros HP. unfold areFilesHardlinkable.
  repeat match goal with
         | |- digestsSatisfy P (if ?c then (false, _, _) else _).1.2 => destruct c; [done|]
         end.
  destruct ud.
  - pose proof (newPathStatDigest_digests E fs st ps1 HP) as H1.
    destruct (newPathStatDigest E fs st ps1) as [fs1 st1].
    pose proof (newPathStatDigest_digests E fs1 st1 ps2 H1) as H2.
    destruct (newPathStatDigest E fs1 st1 ps2) as [fs2 st2].
    destruct (areFileContentsEqual E _ _); [destruct (equalXAttrs E _ _)|]; done.
  - destruct (areFileContentsEqual E _ _); [destruct (equalXAttrs E _ _)|]; done.
Qed.

Lemma searchSeq_digests E f st cur cached f' st' seq ud :
  searchSeq E f st cur cached = Done (f', st', seq, ud) →
  digestsSatisfy P f → digestsSatisfy P f'.
Proof.
  unfold searchSeq. intros H HP.
  destruct (useDigestFor E _); [|by injection H as <- _ _ _].
  destruct (contentDigest E _ st) as [[digest|] st1]; [|by injection H as <- _ _ _].
  destruct (digestSets _ cached digest) as [[same no] diff].
  bind_inv H. bind_inv H. injection H as <- _ _ _.
  by apply addPathStatDigest_digests.
Qed.

Lemma searchLoop_digests E seq cur ud :
  ∀ f st early f' st',
  searchLoop E f st seq cur ud = Done (early, f', st') →
  digestsSatisfy P f → digestsSatisfy P f'.
Proof.
  induction seq as [|c rest IH]; intros f st early f' st' H HP.
  - cbn in H. by injection H as _ <- _.
  - cbn [searchLoop] in H. bind_inv H.
    pose proof (areFilesHardlinkable_digests E f (IncInoSeqIterations st) a cur ud HP) as H1.
    destruct (areFilesHardlinkable E f _ a cur ud) as [[eq f1] st1].
    destruct eq; [by injection H as _ <- _|by eapply IH].
Qed.

Lemma findIdenticalFiles_digests E f st d p f' st' :
  findIdenticalFiles E f st d p = Done (f', st') → digestsSatisfy P f → digestsSatisfy P f'.
Proof.
  unfold findIdenticalFiles. intros H HP.
  destruct (negb (Dev f =? dsDev d)); [done|].
  bind_inv H as [f1 st1] Ho. injection H as <- _.
  enough (digestsSatisfy P f1) by done.
  destruct (InoHashes f !! _) as [hashedInos|]; [|by injection Ho as <- _].
  bind_inv Ho as st0 Hst0. bind_inv Ho as linked Hlinked.
  destruct (negb _); [|by injection Ho as <- _].
  bind_inv Ho as [[[f2 st2] seq] ud] Hseq.
  apply searchSeq_digests in Hseq; [|done].
  bind_inv Ho as [[early f3] st3] Hloop.
  apply searchLoop_digests in Hloop; [|done].
  destruct (negb early); by injection Ho as <- _.
Qed.

Lemma ingested_digests E f st : P ∅ ∅ → ingested E f st → digestsSatisfy P f.
Proof.
  intros Hnew. induction 1; [done|by eapply findIdenticalFiles_digests].
Qed.
End DigestInvariant.

(** Each inode with a digest is filed under exactly one digest. *)
Definition digestsExact (digestIno : gmap Z (gset Z)) (withDigest : gset Z) : Prop :=
  (∀ ino, ino ∈ withDigest ↔ ∃ d, ino ∈ setAt digestIno d) ∧
  (∀ ino d1 d2, ino ∈ setAt digestIno d1 → ino ∈ setAt digestIno d2 → d1 = d2).

Lemma setAt_helperPathStatDigest fs ps d k :
  setAt (DigestIno (helperPathStatDigest fs ps d)) k =
    if decide (k = d) then setAt (DigestIno fs) d ∪ {[Ino (psStat ps)]}
    else setAt (DigestIno fs) k.
Proof.
  unfold helperPathStatDigest, setAt. cbn. case_decide as Hk.
  - subst. destruct (DigestIno fs !! d); rewrite lookup_insert_eq; cbn; [done|set_solver].
  - destruct (DigestIno fs !! d); by rewrite lookup_insert_ne.
Qed.

Lemma helperPathStatDigest_exact fs ps d :
  Ino (psStat ps) ∉ InosWithDigest fs →
  digestsExact (DigestIno fs) (InosWithDigest fs) →
  digestsExact (DigestIno (helperPathStatDigest fs ps d))
               (InosWithDigest (helperPathStatDigest fs ps d)).
Proof.
  intros Hnew [Hiff Huniq].
  assert (Hnone : ∀ d', Ino (psStat ps) ∉ setAt (DigestIno fs) d').
  { intros d' Hd'. apply Hnew, Hiff. eauto. }
  split.
  - intros ino. change (InosWithDigest (helperPathStatDigest fs ps d))
      with (InosWithDigest fs ∪ {[Ino (psStat ps)]}).
    rewrite elem_of_union, elem_of_singleton, Hiff. split.
    + intros [[d' Hd']| ->].
      * exists d'. rewrite setAt_helperPathStatDigest. case_decide; subst; set_solver.
      * exists d. rewrite setAt_helperPathStatDigest, decide_True by done. set_solver.
    + intros [d' Hd']. rewrite setAt_helperPathStatDigest in Hd'.
      case_decide; [|eauto]. subst.
      apply elem_of_union in Hd' as [?| ->%elem_of_singleton]; eauto.
  - intros ino d1 d2. rewrite !setAt_helperPathStatDigest.
    destruct (decide (d1 = d)) as [->|H1d], (decide (d2 = d)) as [->|H2d];
      intros H1 H2; [done| | |by eapply Huniq].
    + apply elem_of_union in H1 as [H1| ->%elem_of_singleton]; [by eapply Huniq|].
      by apply Hnone in H2.
    + apply elem_of_union in H2 as [H2| ->%elem_of_singleton]; [by eapply Huniq|].
      by apply Hnone in H1.
Qed.

(** After any number of ingestions [InosWithDigest] holds exactly the
    inodes filed in [DigestIno], and no inode is filed under two
    digests. *)
Theorem digest_index_is_a_partition E f st :
  ingested E f st →
  (∀ ino, ino ∈ InosWithDigest f ↔ ∃ d, ino ∈ setAt (DigestIno f) d) ∧
  (∀ ino d1 d2,
     ino ∈ setAt (DigestIno f) d1 → ino ∈ setAt (DigestIno f) d2 → d1 = d2).
Proof.
  intros Hing.
  apply (ingested_digests digestsExact helperPathStatDigest_exact E f st); [|done].
  split.
  - intros ino. split; [set_solver|]. intros [d Hd]. unfold setAt in Hd.
    rewrite lookup_empty in Hd. done.
  - intros ino d1 d2 Hd. unfold setAt in Hd. rewrite lookup_empty in Hd. cbn in Hd. set_solver.
Qed.

(** ** Ingestion and its panics *)

(** On a state reached by ingestion, ingesting one more file panics
    exactly when the file is on another device; otherwise it returns,
    in a state reached by ingestion. *)
Theorem ingestion_panics_only_on_device_mismatch E f st d p :
  ingested E f st →
  if decide (Dev f = dsDev d)
  then ∃ f' st', findIdenticalFiles E f st d p = Done (f', st') ∧ ingested E f' st'
  else findIdenticalFiles E f st d p = Panic "Mismatched Dev".
Proof.
  intros Hing. case_decide as Hdev.
  - destruct (findIdenticalFiles_returns E f st d p) as (f' & st' & Hrun);
      [by eapply ingested_tablesOK|done|].
    exists f', st'. split; [done|]. by eapply ingested_more.
  - unfold findIdenticalFiles. apply Z.eqb_neq in Hdev. by rewrite Hdev.
Qed.

(** ** The paths recorded by ingestion *)

(** [f.InoPaths[ino][filename]]. *)
Definition pathsNamed (f : FSDev) (ino : Z) (filename : string) : list Pathsplit :=
  default [] (pathsAt f ino !! filename).

(** The paths of the walk that lead to [ino] under [filename], in the
    order of the walk. *)
Definition arrivals (E : Env) (files : list (DevStatInfo * string))
    (ino : Z) (filename : string) : list Pathsplit :=
  omap (λ dp : DevStatInfo * string,
          let ps := SplitPathname E dp.2 in
          if decide (Ino (dsStat dp.1) = ino ∧ Filename ps = filename)
          then Some ps else None) files.

Lemma findIdenticalFiles_pathsNamed E f st d p f' st' ino fn :
  findIdenticalFiles E f st d p = Done (f', st') →
  pathsNamed f' ino fn = pathsNamed f ino fn ++ arrivals E [(d, p)] ino fn.
Proof.
  intros Hrun. apply findIdenticalFiles_effect in Hrun as (_ & _ & _ & _ & HP & _).
  unfold pathsNamed, arrivals, pathsAt. rewrite HP. unfold appendedPaths. cbn.
  destruct (decide (Ino (dsStat d) = ino)) as [<-|Hino].
  - rewrite lookup_insert_eq. cbn.
    destruct (decide (Filename (SplitPathname E p) = fn)) as [<-|Hfn].
    + rewrite lookup_insert_eq, decide_True by done. done.
    + rewrite lookup_insert_ne, decide_False by naive_solver. by rewrite app_nil_r.
  - rewrite lookup_insert_ne, decide_False by naive_solver. by rewrite app_nil_r.
Qed.

(** Ingesting a walk appends, for every inode and file name, the
    paths of the walk that lead there, in the order of the walk; no
    recorded path is dropped or reordered. *)
Theorem ingestion_records_paths_in_walk_order E files :
  ∀ f st f' st',
  ingestAll E f st files = Done (f', st') →
  ∀ ino filename,
    pathsNamed f' ino filename = pathsNamed f ino filename ++ arrivals E files ino filename.
Proof.
  induction files as [|[d p] rest IH]; intros f st f' st' Hrun ino fn.
  - cbn in Hrun. injection Hrun as <- <-. by rewrite app_nil_r.
  - cbn [ingestAll] in Hrun. bind_inv Hrun as [f1 st1] Hstep.
    rewrite (IH _ _ _ _ Hrun), (findIdenticalFiles_pathsNamed _ _ _ _ _ _ _ _ _ Hstep).
    rewrite <- app_assoc. f_equal. unfold arrivals. cbn. by case_decide.
Qed.

(** ** Every link rests on a comparison *)

(** A recorded path of [a] and a recorded path of [b] were compared
    byte for byte, in one order or the other, and found equal. *)
Definition comparedEqual (E : Env) (f : FSDev) (a b : Z) : Prop :=
  ∃ pa pb, pa ∈ allPaths f a ∧ pb ∈ allPaths f b ∧
    (areFileContentsEqual E (Join E pa) (Join E pb) = true ∨
     areFileContentsEqual E (Join E pb) (Join E pa) = true).

Definition linksCompared (E : Env) (f : FSDev) : Prop :=
  ∀ a b, b ∈ setAt (LinkedInos f) a → comparedEqual E f a b.

Lemma comparedEqual_sym E f a b : comparedEqual E f a b → comparedEqual E f b a.
Proof. intros (pa & pb & Ha & Hb & Heq). exists pb, pa. split_and!; [done..|tauto]. Qed.

Lemma elem_of_allPaths_named f ino p :
  p ∈ allPaths f ino ↔ ∃ fn, p ∈ pathsNamed f ino fn.
Proof.
  rewrite elem_of_allPaths. unfold pathsNamed. split.
  - intros (fn & l & Hl & Hp). exists fn. by rewrite Hl.
  - intros (fn & Hp). destruct (pathsAt f ino !! fn) as [l|] eqn:Hl; cbn in Hp.
    + eauto.
    + by apply elem_of_nil in Hp.
Qed.

Lemma ArbitraryPath_elem E f ino p :
  ArbitraryPath E f ino = Done p → p ∈ allPaths f ino.
Proof.
  unfold ArbitraryPath.
  pose proof (rangeOf_perm (ranges E) _ (pathsAt f ino)) as Hperm.
  destruct (rangeOf (ranges E) (pathsAt f ino)) as [|[fn v] rest]; [done|].
  destruct v as [|q v]; [done|]. intros [= ->].
  apply elem_of_allPaths. exists fn, (p :: v). split; [|by left].
  apply elem_of_map_to_list. rewrite <- Hperm. by left.
Qed.

(** The search loop stops early only at a bucket inode whose arbitrary
    path compared equal to the path being ingested. *)
Lemma searchLoop_compared E seq cur ud :
  ∀ f st f' st',
  searchLoop E f st seq cur ud = Done (true, f', st') →
  ∃ c pc, ArbitraryPath E f c = Done pc ∧
    Ino (statAt f c) ≠ Ino (psStat cur) ∧
    areFileContentsEqual E (Join E pc) (Join E (psPath cur)) = true ∧
    LinkedInos f' = linkedWith (LinkedInos f) (Ino (statAt f c)) (Ino (psStat cur)).
Proof.
  induction seq as [|cachedIno rest IH]; intros f st f' st' H; [done|].
  cbn [searchLoop] in H. bind_inv H as cps Hcps.
  unfold PathStatFromIno in Hcps. bind_inv Hcps as pc Hpc. injection Hcps as <-.
  destruct (areFilesHardlinkable E f (IncInoSeqIterations st) _ cur ud)
    as [[eq f1] st1] eqn:Hcmp.
  pose proof (areFilesHardlinkable_frame _ _ _ _ _ _ _ _ _ Hcmp)
    as ((HD & HM & HH & HS & HP & HL) & _).
  destruct eq.
  - injection H as <- <-. exists cachedIno, pc.
    pose proof (areFilesHardlinkable_true E f (IncInoSeqIterations st)
                  {| psPath := pc; psStat := statAt f cachedIno |} cur ud) as Ht.
    rewrite Hcmp in Ht. destruct (Ht eq_refl) as (Hne & _ & _ & _ & _ & Heq).
    split_and!; [done|done|done|]. cbn. unfold linkedWith. by rewrite HL.
  - apply IH in H as (c & pc' & Hp & Hne & Heq & Hl). exists c, pc'.
    rewrite (ArbitraryPath_paths _ _ _ _ HP) in Hp.
    unfold statAt in *. rewrite HS in Hne, Hl. rewrite HL in Hl. done.
Qed.

(** One ingestion adds no link, or the two halves of one link that a
    comparison with the new path justifies. *)
Lemma findIdenticalFiles_links E f st d p f' st' :
  findIdenticalFiles E f st d p = Done (f', st') →
  LinkedInos f' = LinkedInos f ∨
  ∃ c pc, ArbitraryPath E f c = Done pc ∧
    Ino (statAt f c) ≠ Ino (dsStat d) ∧
    areFileContentsEqual E (Join E pc) (Join E (SplitPathname E p)) = true ∧
    LinkedInos f' = linkedWith (LinkedInos f) (Ino (statAt f c)) (Ino (dsStat d)).
Proof.
  unfold findIdenticalFiles.
  destruct (Dev f =? dsDev d); [|done].
  cbn [negb]. intros H. bind_inv H as [f1 st1] Ho. injection H as <- <-.
  change (LinkedInos (InoAppendPathname _ _ _)) with (LinkedInos f1).
  revert Ho.
  destruct (InoHashes f !! _) as [hashedInos|]; [|intros [= <- <-]; by left].
  intros H. bind_inv H as st0 Hst0. bind_inv H as linkedInos Hlinked.
  destruct (bool_decide (linkedInos ∩ hashedInos ≠ ∅)); cbn [negb] in H.
  { injection H as <- <-. by left. }
  bind_inv H as [[[f2 st2] seq] ud] Hseq0.
  apply searchSeq_spec in Hseq0 as ((HD2 & HM2 & HH2 & HS2 & HP2 & HL2) & _).
  bind_inv H as [[early f3] st3] Hloop.
  destruct early; cbn [negb] in H; injection H as <- <-.
  - right. apply searchLoop_compared in Hloop as (c & pc & Hpc & Hne & Heq & Hl).
    exists c, pc. rewrite (ArbitraryPath_paths _ _ _ _ HP2) in Hpc.
    unfold statAt in *. rewrite HS2 in Hne, Hl. rewrite HL2 in Hl. done.
  - left. apply searchLoop_spec in Hloop as (_ & _ & _ & _ & _ & _ & _ & Hlink).
    cbn in *. congruence.
Qed.

Lemma findIdenticalFiles_linksCompared E f st d p f' st' :
  tablesOK f → linksCompared E f →
  findIdenticalFiles E f st d p = Done (f', st') → linksCompared E f'.
Proof.
  intros Hok Hinv Hrun.
  assert (Hmono : ∀ x q, q ∈ allPaths f x → q ∈ allPaths f' x).
  { intros x q. rewrite !elem_of_allPaths_named. intros [fn Hq]. exists fn.
    rewrite (findIdenticalFiles_pathsNamed _ _ _ _ _ _ _ x fn Hrun).
    apply elem_of_app. by left. }
  assert (Hnew : SplitPathname E p ∈ allPaths f' (Ino (dsStat d))).
  { apply elem_of_allPaths_named. exists (Filename (SplitPathname E p)).
    rewrite (findIdenticalFiles_pathsNamed _ _ _ _ _ _ _ _ _ Hrun).
    apply elem_of_app. right. unfold arrivals. cbn.
    rewrite decide_True by done. by left. }
  assert (Hold : ∀ a b, b ∈ setAt (LinkedInos f) a → comparedEqual E f' a b).
  { intros a b Hab. destruct (Hinv a b Hab) as (pa & pb & Ha & Hb & Heq).
    exists pa, pb. auto. }
  destruct (findIdenticalFiles_links _ _ _ _ _ _ _ Hrun)
    as [HL | (c & pc & Hpc & Hne & Heq & HL)].
  { intros a b. rewrite HL. apply Hold. }
  apply ArbitraryPath_elem in Hpc.
  assert (Hino_c : Ino (statAt f c) = c).
  { apply elem_of_allPaths in Hpc as (fn & l & Hl & _).
    unfold pathsAt in Hl.
    destruct (InoPaths f !! c) as [fp|] eqn:Hfp; cbn in Hl;
      [|by rewrite lookup_empty in Hl].
    assert (Hsome : is_Some (InoStatInfo f !! c)) by (apply (ok_paths f Hok); eauto).
    destruct Hsome as [si Hsi]. unfold statAt. rewrite Hsi. cbn.
    by apply (ok_ino f Hok). }
  rewrite Hino_c in Hne, HL.
  assert (Hlink : comparedEqual E f' c (Ino (dsStat d))).
  { exists pc, (SplitPathname E p). auto. }
  intros a b. rewrite HL, setAt_linkedWith by done.
  destruct (decide (a = Ino (dsStat d))) as [->|Ha]; [|destruct (decide (a = c)) as [->|Hac]].
  - intros [Hab| ->%elem_of_singleton]%elem_of_union; [by apply Hold|].
    by apply comparedEqual_sym.
  - intros [Hab| ->%elem_of_singleton]%elem_of_union; [by apply Hold|done].
  - apply Hold.
Qed.

(** After any number of ingestions, two inodes are linked only if a
    recorded path of the one and a recorded path of the other were
    compared byte for byte and found equal. *)
Theorem linked_inodes_compared_equal E f st :
  ingested E f st →
  ∀ a b, b ∈ setAt (LinkedInos f) a →
    ∃ pa pb, pa ∈ allPaths f a ∧ pb ∈ allPaths f b ∧
      (areFileContentsEqual E (Join E pa) (Join E pb) = true ∨
       areFileContentsEqual E (Join E pb) (Join E pa) = true).
Proof.
  intros Hing. change (linksCompared E f).
  induction Hing as [dev maxNLinks|f st d p f' st' Hing IH Hrun].
  - intros a b Hab. unfold setAt in Hab. cbn in Hab.
    rewrite lookup_empty in Hab. by apply elem_of_empty in Hab.
  - apply ingested_tablesOK in Hing.
    by eapply findIdenticalFiles_linksCompared.
Qed.

(** ** The counters of ingestion *)

(** The [int64] a counter holds after counting to [z]. *)
Definition toInt64 (z : Z) : Z := (z + 2 ^ 63) mod 2 ^ 64 - 2 ^ 63.

Lemma inc64_toInt64 z : inc64 (toInt64 z) = toInt64 (z + 1).
Proof.
  unfold inc64, toInt64. f_equal.
  replace ((z + 2 ^ 63) mod 2 ^ 64 - 2 ^ 63 + 1 + 2 ^ 63)
    with ((z + 2 ^ 63) mod 2 ^ 64 + 1) by lia.
  rewrite Zplus_mod_idemp_l. f_equal. lia.
Qed.

Lemma toInt64_inc64_l x y : toInt64 (inc64 x + y) = toInt64 (x + y + 1).
Proof.
  unfold inc64, toInt64. f_equal.
  replace ((x + 1 + 2 ^ 63) mod 2 ^ 64 - 2 ^ 63 + y + 2 ^ 63)
    with ((x + 1 + 2 ^ 63) mod 2 ^ 64 + y) by lia.
  rewrite Zplus_mod_idemp_l. f_equal. lia.
Qed.

Lemma toInt64_inc64_r x y : toInt64 (x + inc64 y) = toInt64 (x + y + 1).
Proof. rewrite Z.add_comm, toInt64_inc64_l. f_equal. lia. Qed.

Lemma toInt64_succ a b : toInt64 a = toInt64 b → toInt64 (a + 1) = toInt64 (b + 1).
Proof.
  unfold toInt64. intros H. f_equal.
  assert (Hm : (a + 2 ^ 63) mod 2 ^ 64 = (b + 2 ^ 63) mod 2 ^ 64) by lia.
  replace (a + 1 + 2 ^ 63) with (a + 2 ^ 63 + 1) by lia.
  replace (b + 1 + 2 ^ 63) with (b + 2 ^ 63 + 1) by lia.
  by rewrite <- Zplus_mod_idemp_l, Hm, Zplus_mod_idemp_l.
Qed.

(** The counters of inodes, of new buckets and of bucket hits. *)
Definition hashCounts (st : LinkingStats) : Z * Z * Z :=
  (numInodes st, numMissedHashes st, numFoundHashes st).

Lemma contentDigest_hashCounts E p st : hashCounts (contentDigest E p st).2 = hashCounts st.
Proof.
  destruct (contentDigest_stats E p st) as [->|[_ ->]]; [done|by destruct st].
Qed.

Lemma newPathStatDigest_hashCounts E fs st ps :
  hashCounts (newPathStatDigest E fs st ps).2 = hashCounts st.
Proof.
  unfold newPathStatDigest. case_decide; [done|].
  pose proof (contentDigest_hashCounts E (Join E (psPath ps)) st) as Hcd.
  by destruct (contentDigest E _ st) as [[digest|] st1].
Qed.

Lemma areFilesHardlinkable_hashCounts E fs st ps1 ps2 ud :
  hashCounts (areFilesHardlinkable E fs st ps1 ps2 ud).2 = hashCounts st.
Proof.
  unfold areFilesHardlinkable.
  repeat match goal with
         | |- hashCounts (if ?c then (false, _, _) else _).2 = _ => destruct c; [done|]
         end.
  assert (Hst : ∃ fs1 st1,
            (if ud then let '(fs0, st0) := newPathStatDigest E fs st ps1 in
                        newPathStatDigest E fs0 st0 ps2
             else (fs, st)) = (fs1, st1) ∧ hashCounts st1 = hashCounts st).
  { destruct ud; [|eauto].
    pose proof (newPathStatDigest_hashCounts E fs st ps1) as H1.
    destruct (newPathStatDigest E fs st ps1) as [fs1 st1].
    pose proof (newPathStatDigest_hashCounts E fs1 st1 ps2) as H2.
    destruct (newPathStatDigest E fs1 st1 ps2) as [fs2 st2].
    exists fs2, st2. split; [done|]. cbn in *. congruence. }
  destruct Hst as (fs1 & st1 & -> & <-).
  destruct (areFileContentsEqual E _ _); [destruct (equalXAttrs E _ _)|];
    cbn [snd]; stats_field.
Qed.

Lemma searchSeq_hashCounts E f st cur cached f' st' seq ud :
  searchSeq E f st cur cached = Done (f', st', seq, ud) → hashCounts st' = hashCounts st.
Proof.
  unfold searchSeq. intros H.
  destruct (useDigestFor E _); [|by injection H as _ <- _ _].
  pose proof (contentDigest_hashCounts E (Join E (psPath cur)) st) as Hc.
  destruct (contentDigest E _ st) as [[digest|] st1]; [|by injection H as _ <- _ _].
  destruct (digestSets _ cached digest) as [[same no] diff].
  bind_inv H. bind_inv H. by injection H as _ <- _ _.
Qed.

Lemma searchLoop_hashCounts E seq cur ud :
  ∀ f st early f' st',
  searchLoop E f st seq cur ud = Done (early, f', st') → hashCounts st' = hashCounts st.
Proof.
  induction seq as [|c rest IH]; intros f st early f' st' H.
  - cbn in H. by injection H as _ _ <-.
  - cbn [searchLoop] in H. bind_inv H.
    pose proof (areFilesHardlinkable_hashCounts E f (IncInoSeqIterations st) a cur ud) as H1.
    destruct (areFilesHardlinkable E f _ a cur ud) as [[eq f1] st1]. cbn [snd] in H1.
    assert (H0 : hashCounts (IncInoSeqIterations st) = hashCounts st) by (by destruct st).
    destruct eq.
    + injection H as _ _ <-. congruence.
    + apply IH in H. congruence.
Qed.

Lemma findIdenticalFiles_hashCounts E f st d p f' st' :
  findIdenticalFiles E f st d p = Done (f', st') →
  hashCounts st' =
    (match InoStatInfo f !! Ino (dsStat d) with
     | Some _ => numInodes st
     | None => inc64 (numInodes st)
     end,
     match InoHashes f !! InoHash (dsStat d) (MyOptions E) with
     | Some _ => numMissedHashes st
     | None => inc64 (numMissedHashes st)
     end,
     match InoHashes f !! InoHash (dsStat d) (MyOptions E) with
     | Some _ => inc64 (numFoundHashes st)
     | None => numFoundHashes st
     end).
Proof.
  unfold findIdenticalFiles. intros H.
  destruct (negb (Dev f =? dsDev d)); [done|].
  bind_inv H as [f1 st1] Ho. injection H as _ <-.
  set (st0 := match InoStatInfo f !! Ino (dsStat d) with
              | None => FoundInode st
              | Some _ => st
              end) in *.
  assert (H0 : hashCounts st0 =
            (match InoStatInfo f !! Ino (dsStat d) with
             | Some _ => numInodes st
             | None => inc64 (numInodes st)
             end, numMissedHashes st, numFoundHashes st)).
  { subst st0. destruct (InoStatInfo f !! Ino (dsStat d)); by destruct st. }
  clearbody st0.
  destruct (InoHashes f !! _) as [hashedInos|].
  2: { injection Ho as _ <-. unfold hashCounts in *. destruct st0. cbn in *. congruence. }
  enough (hashCounts st1 = hashCounts (FoundHash st0)) as ->.
  { unfold hashCounts in *. destruct st0. cbn in *. congruence. }
  bind_inv Ho as st2 Hst2.
  assert (H2 : hashCounts st2 = hashCounts (FoundHash st0)).
  { destruct (InoStatInfo f !! Ino (dsStat d)); [|by injection Hst2 as <-].
    bind_inv Hst2. injection Hst2 as <-. by destruct st0. }
  bind_inv Ho as linked Hlinked.
  destruct (negb _); [|by injection Ho as _ <-].
  bind_inv Ho as [[[f2 st3] seq] ud] Hseq. apply searchSeq_hashCounts in Hseq.
  bind_inv Ho as [[early f3] st4] Hloop. apply searchLoop_hashCounts in Hloop.
  assert (H3 : hashCounts (SearchedInoSeq st2) = hashCounts st2) by (by destruct st2).
  destruct (negb early); injection Ho as _ <-; [|congruence].
  transitivity (hashCounts st4); [by destruct st4|congruence].
Qed.

Lemma findIdenticalFiles_counts E f st d p f' st' n :
  tablesOK f →
  findIdenticalFiles E f st d p = Done (f', st') →
  numInodes st = toInt64 (Z.of_nat (size (InoStatInfo f))) ∧
  numMissedHashes st = toInt64 (Z.of_nat (size (InoHashes f))) ∧
  toInt64 (numMissedHashes st + numFoundHashes st) = toInt64 n →
  numInodes st' = toInt64 (Z.of_nat (size (InoStatInfo f'))) ∧
  numMissedHashes st' = toInt64 (Z.of_nat (size (InoHashes f'))) ∧
  toInt64 (numMissedHashes st' + numFoundHashes st') = toInt64 (n + 1).
Proof.
  intros Hok Hrun (Hino & Hmiss & Hsum).
  pose proof (findIdenticalFiles_hashCounts _ _ _ _ _ _ _ Hrun) as Hc.
  apply findIdenticalFiles_effect in Hrun as (_ & _ & _ & HS & _ & _ & Heff).
  unfold hashCounts in Hc. injection Hc as -> -> ->. rewrite HS. split_and!.
  - destruct (InoStatInfo f !! Ino (dsStat d)) as [si|] eqn:Hsi.
    + rewrite map_size_insert_Some by eauto. done.
    + rewrite map_size_insert_None by done. rewrite Hino, inc64_toInt64. f_equal. lia.
  - destruct Heff as [Hnone -> _ | s linked Hs _ _ -> _ _ _ | s linked c Hs _ _ _ _ -> _
                      | s linked Hs _ _ -> _];
      rewrite ?Hnone, ?Hs; try done.
    + rewrite map_size_insert_None by done. rewrite Hmiss, inc64_toInt64. f_equal. lia.
    + rewrite map_size_insert_Some by eauto. done.
  - destruct (InoHashes f !! _).
    + rewrite toInt64_inc64_r. by apply toInt64_succ.
    + rewrite toInt64_inc64_l. by apply toInt64_succ.
Qed.

(** A run over a walk from a fresh device: [numInodes] counts the
    distinct inodes seen, [numMissedHashes] the buckets, and every file
    of the walk was either a missed or a found hash (all as [int64]
    counters hold them). *)
Theorem ingest_counters_match_tables E dev maxNLinks files f st :
  ingestAll E (NewFSDev dev maxNLinks) NewLinkingStats files = Done (f, st) →
  numInodes st = toInt64 (Z.of_nat (size (InoStatInfo f))) ∧
  numMissedHashes st = toInt64 (Z.of_nat (size (InoHashes f))) ∧
  toInt64 (numMissedHashes st + numFoundHashes st) = toInt64 (Z.of_nat (length files)).
Proof.
  enough (Hgen : ∀ files f0 st0 n,
            ingested E f0 st0 →
            numInodes st0 = toInt64 (Z.of_nat (size (InoStatInfo f0))) ∧
            numMissedHashes st0 = toInt64 (Z.of_nat (size (InoHashes f0))) ∧
            toInt64 (numMissedHashes st0 + numFoundHashes st0) = toInt64 n →
            ingestAll E f0 st0 files = Done (f, st) →
            numInodes st = toInt64 (Z.of_nat (size (InoStatInfo f))) ∧
            numMissedHashes st = toInt64 (Z.of_nat (size (InoHashes f))) ∧
            toInt64 (numMissedHashes st + numFoundHashes st)
              = toInt64 (n + Z.of_nat (length files))).
  { intros Hrun. apply (Hgen files _ _ 0 (ingested_new E dev maxNLinks)); [|done].
    cbn. by rewrite !map_size_empty. }
  clear files. intros files. induction files as [|[d p] rest IH]; intros f0 st0 n Hing Hinv Hrun.
  - cbn in Hrun. injection Hrun as <- <-. cbn [length]. by rewrite Z.add_0_r.
  - cbn [ingestAll] in Hrun. bind_inv Hrun as [f1 st1] Hstep.
    replace (n + Z.of_nat (length ((d, p) :: rest)))
      with (n + 1 + Z.of_nat (length rest)) by (cbn [length]; lia).
    eapply IH; [by eapply ingested_more| |exact Hrun].
    eapply findIdenticalFiles_counts; [by eapply ingested_tablesOK|exact Hstep|done].
Qed.

(** * Further properties of the link planner *)

(** ** Same-name linking *)

Lemma moveLinkedPath_keyedAll fs p src dst :
  keyedAll fs → keyedAll (Hardlinkable.moveLinkedPath fs p src dst).
Proof.
  intros Hk. unfold Hardlinkable.moveLinkedPath.
  set (fs1 := if (length _ =? 0)%nat then _ else _).
  assert (Hk1 : keyedAll fs1).
  { intros x. subst fs1.
    pose proof (withoutPath_keyed (pathsAt fs dst) p (Hk dst)) as Hw.
    unfold withoutPath in Hw.
    destruct (length _ =? 0)%nat; rewrite pathsAt_set_InoPaths;
      (destruct (decide (x = dst)) as [->|Hx];
       [rewrite lookup_alter_eq|rewrite lookup_alter_ne by done; apply Hk]);
      unfold pathsAt in Hw |- *;
      (destruct (InoPaths fs !! dst) as [fp|]; cbn in Hw |- *; [done|]);
      by intros fn l q ?%lookup_empty_Some. }
  intros x. rewrite InoAppendPathname_pathsAt. case_decide; [|done].
  by apply appended_keyed.
Qed.

(** The pair links two paths with the same file name. *)
Definition sameNamePair (pair : Hardlinkable.PathInfoPair) : Prop :=
  Filename (psPath (Hardlinkable.Src pair)) = Filename (psPath (Hardlinkable.Dst pair)).

Lemma linkDstPaths_same_name E src dst todo :
  ∀ srcSI dstSI f r out f' r' out',
  Hardlinkable.linkDstPaths E true src dst todo srcSI dstSI f r out = Done (f', r', out') →
  keyedAll f → Forall sameNamePair out →
  keyedAll f' ∧ Forall sameNamePair out'.
Proof.
  induction todo as [|dstPath rest IH]; intros srcSI dstSI f r out f' r' out' Hrun Hk Hout.
  - cbn in Hrun. by injection Hrun as <- <- <-.
  - cbn [Hardlinkable.linkDstPaths] in Hrun. bind_inv Hrun as choice Hchoice.
    destruct choice as [srcPath|]; [|by eapply IH].
    assert (Hname : Filename srcPath = Filename dstPath).
    { destruct (pathsAt f src !! Filename dstPath) as [l|] eqn:Hl; [|done].
      bind_inv Hchoice as sp Hsp. injection Hchoice as ->.
      unfold ArbitraryFilenamePath in Hsp. rewrite Hl in Hsp. cbn in Hsp.
      destruct l as [|q l]; [done|]. injection Hsp as ->.
      eapply Hk; [exact Hl|by left]. }
    bind_inv Hrun as r1 Hr1.
    destruct (if _ =? 0 then _ else _) as [f2 r2] eqn:Hf2.
    eapply IH; [exact Hrun| |].
    + apply moveLinkedPath_keyedAll. intros x.
      assert (Hp : pathsAt f2 x = pathsAt f x)
        by (destruct (_ =? 0); by injection Hf2 as <- _).
      rewrite Hp. apply Hk.
    + apply Forall_app. split; [done|]. by apply Forall_singleton.
Qed.

Lemma dstLoop_same_name E fuel src :
  ∀ sorted remaining f r out sorted' remaining' f' r' out',
  Hardlinkable.dstLoop E true fuel src sorted remaining f r out
    = Done (sorted', remaining', f', r', out') →
  keyedAll f → Forall sameNamePair out →
  keyedAll f' ∧ Forall sameNamePair out'.
Proof.
  induction fuel as [|fuel IH];
    intros sorted remaining f r out sorted' remaining' f' r' out' Hrun Hk Hout;
    cbn [Hardlinkable.dstLoop] in Hrun;
    destruct (popLast sorted) as [[sorted0 dst]|];
    try discriminate Hrun;
    try (by injection Hrun as _ _ <- _ <-).
  destruct (MaxNLinks f <? _); [by injection Hrun as _ _ <- _ <-|].
  bind_inv Hrun as [[f1 r1] out1] Hlink.
  apply linkDstPaths_same_name in Hlink as [Hk1 Hout1]; [|done..].
  by eapply IH.
Qed.

Lemma sendLoop_same_name E fuel :
  ∀ sorted remaining f r out f' r' out',
  Hardlinkable.sendLoop E true fuel sorted remaining f r out = Done (f', r', out') →
  keyedAll f → Forall sameNamePair out → Forall sameNamePair out'.
Proof.
  induction fuel as [|fuel IH]; intros sorted remaining f r out f' r' out' Hrun Hk Hout;
    cbn [Hardlinkable.sendLoop] in Hrun;
    destruct ((length sorted =? 0)%nat && (length remaining =? 0)%nat);
    try discriminate Hrun;
    try (by injection Hrun as _ _ <-).
  destruct (if (0 <? length remaining)%nat then _ else _) as [sorted1 remaining1].
  destruct sorted1 as [|src sorted2]; [done|].
  bind_inv Hrun as [[[[sorted3 remaining3] f3] r3] out3] Hdst.
  apply dstLoop_same_name in Hdst as [Hk3 Hout3]; [|done..].
  by eapply IH.
Qed.

(** With [SameName], when every recorded path is filed under its own
    file name, each pair the planner emits links two paths with the same
    file name. *)
Theorem same_name_planner_links_equal_filenames E f r sortedInos f' r' out :
  keyedAll f →
  Hardlinkable.sendLinkedPairs E true f r sortedInos = Done (f', r', out) →
  ∀ pair, pair ∈ out →
    Filename (psPath (Hardlinkable.Src pair)) = Filename (psPath (Hardlinkable.Dst pair)).
Proof.
  intros Hk Hrun. apply Forall_forall.
  unfold Hardlinkable.sendLinkedPairs in Hrun.
  eapply sendLoop_same_name; [exact Hrun|done|done].
Qed.

(** ** The planner's results *)

(** Linking the pair's destination path leaves its inode without
    links. *)
Definition removesInode (pair : Hardlinkable.PathInfoPair) : Prop :=
  wrap 32 (Nlink (psStat (Hardlinkable.Dst pair)) - 1) = 0.

#[global] Instance removesInode_dec pair : Decision (removesInode pair).
Proof. unfold removesInode. apply _. Defined.

Definition removedBytes (out : list Hardlinkable.PathInfoPair) : Z :=
  foldr Z.add 0 ((λ pair, Size (psStat (Hardlinkable.Dst pair))) <$> filter removesInode out).

Definition pairNames (E : Env) (pair : Hardlinkable.PathInfoPair) : string * string :=
  (Join E (psPath (Hardlinkable.Src pair)), Join E (psPath (Hardlinkable.Dst pair))).

(** [r] holds the results of planning the pairs [out]. *)
Definition planResults (E : Env) (storeNew : bool) (r : Hardlinkable.Results)
    (out : list Hardlinkable.PathInfoPair) : Prop :=
  Hardlinkable.newLinkStatsEnabled r = storeNew ∧
  Hardlinkable.NewLinkCount r = toInt64 (Z.of_nat (length out)) ∧
  Hardlinkable.InodeRemovedCount r = toInt64 (Z.of_nat (length (filter removesInode out))) ∧
  Hardlinkable.InodeRemovedByteAmount r = wrap 64 (removedBytes out) ∧
  if storeNew
  then Forall (λ g, (2 ≤ length g)%nat) (Hardlinkable.LinkPaths r) ∧
       headsDiffer (Hardlinkable.LinkPaths r) ∧
       linksOf (Hardlinkable.LinkPaths r) = pairNames E <$> out
  else Hardlinkable.LinkPaths r = [].

Lemma foundNewLink_planResults E sto r out srcPath srcSI dstPath dstSI r1 :
  planResults E sto r out →
  Hardlinkable.foundNewLink (Join E) r srcPath dstPath = Done r1 →
  let pair := {| Hardlinkable.Src := {| psPath := srcPath; psStat := srcSI |};
                 Hardlinkable.Dst := {| psPath := dstPath; psStat := dstSI |} |} in
  planResults E sto
    (if wrap 32 (Nlink dstSI - 1) =? 0
     then Hardlinkable.foundRemovedInode r1 (Size dstSI) else r1)
    (out ++ [pair]).
Proof.
  intros (Hsto & Hcount & Hrem & Hbytes & Hpaths) Hnew pair. subst sto.
  assert (Hr1 : Hardlinkable.NewLinkCount r1 = inc64 (Hardlinkable.NewLinkCount r) ∧
                Hardlinkable.InodeRemovedCount r1 = Hardlinkable.InodeRemovedCount r ∧
                Hardlinkable.InodeRemovedByteAmount r1 = Hardlinkable.InodeRemovedByteAmount r ∧
                Hardlinkable.newLinkStatsEnabled r1 = Hardlinkable.newLinkStatsEnabled r).
  { unfold Hardlinkable.foundNewLink in Hnew. bind_inv Hnew. by injection Hnew as <-. }
  destruct Hr1 as (Hc1 & Hrem1 & Hb1 & Hen1).
  assert (Hpaths1 :
    if Hardlinkable.newLinkStatsEnabled r
    then Forall (λ g, (2 ≤ length g)%nat) (Hardlinkable.LinkPaths r1) ∧
         headsDiffer (Hardlinkable.LinkPaths r1) ∧
         linksOf (Hardlinkable.LinkPaths r1) = pairNames E <$> (out ++ [pair])
    else Hardlinkable.LinkPaths r1 = []).
  { destruct (Hardlinkable.newLinkStatsEnabled r) eqn:Hen.
    - destruct Hpaths as (Hlen & Hd & Hlinks).
      destruct (foundNewLink_step (Join E) r srcPath dstPath Hen Hlen Hd)
        as (r1' & Hstep & _ & Hlen1 & Hd1 & Hlinks1).
      rewrite Hnew in Hstep. injection Hstep as <-.
      split_and!; [done|done|]. by rewrite Hlinks1, Hlinks, fmap_app.
    - unfold Hardlinkable.foundNewLink in Hnew. rewrite Hen in Hnew. cbn in Hnew.
      injection Hnew as <-. done. }
  assert (Hfilter : filter removesInode (out ++ [pair]) =
            filter removesInode out ++
              if wrap 32 (Nlink dstSI - 1) =? 0 then [pair] else []).
  { rewrite filter_app. f_equal.
    destruct (wrap 32 (Nlink dstSI - 1) =? 0) eqn:Hz.
    - apply Z.eqb_eq in Hz. by rewrite filter_cons_True.
    - apply Z.eqb_neq in Hz. by rewrite filter_cons_False. }
  unfold planResults, removedBytes. rewrite Hfilter, !length_app.
  destruct (wrap 32 (Nlink dstSI - 1) =? 0); cbn [length].
  - cbn. split_and!.
    + done.
    + rewrite Hc1, Hcount, inc64_toInt64. f_equal. lia.
    + rewrite Hrem1, Hrem, inc64_toInt64. f_equal. lia.
    + rewrite Hb1, Hbytes. unfold wrap, removedBytes.
      rewrite Zplus_mod_idemp_l. f_equal.
      rewrite fmap_app, foldr_app. cbn.
      generalize ((λ pair, Size (psStat (Hardlinkable.Dst pair))) <$>
                    filter removesInode out).
      intros l. induction l as [|x l IHl]; cbn; lia.
    + done.
  - rewrite app_nil_r. split_and!.
    + done.
    + rewrite Hc1, Hcount, inc64_toInt64. f_equal. lia.
    + rewrite Hrem1, Hrem. f_equal. lia.
    + by rewrite Hb1, Hbytes.
    + done.
Qed.

Lemma linkDstPaths_planResults E sto sn src dst todo :
  ∀ srcSI dstSI f r out f' r' out',
  Hardlinkable.linkDstPaths E sn src dst todo srcSI dstSI f r out = Done (f', r', out') →
  planResults E sto r out → planResults E sto r' out'.
Proof.
  induction todo as [|dstPath rest IH]; intros srcSI dstSI f r out f' r' out' Hrun Hres.
  - cbn in Hrun. by injection Hrun as _ <- <-.
  - cbn [Hardlinkable.linkDstPaths] in Hrun. bind_inv Hrun as choice Hchoice.
    destruct choice as [srcPath|]; [|by eapply IH].
    bind_inv Hrun as r1 Hr1.
    pose proof (foundNewLink_planResults E sto r out srcPath srcSI dstPath dstSI r1 Hres Hr1)
      as Hres1. cbn zeta in Hres1.
    destruct (if Nlink (Hardlinkable.setNlink dstSI _) =? 0 then _ else _)
      as [f2 r2] eqn:Hf2.
    eapply IH; [exact Hrun|].
    cbn [Hardlinkable.setNlink Nlink Size] in Hf2.
    destruct (wrap 32 (Nlink dstSI - 1) =? 0); by injection Hf2 as _ <-.
Qed.

Lemma dstLoop_planResults E sto sn fuel src :
  ∀ sorted remaining f r out sorted' remaining' f' r' out',
  Hardlinkable.dstLoop E sn fuel src sorted remaining f r out
    = Done (sorted', remaining', f', r', out') →
  planResults E sto r out → planResults E sto r' out'.
Proof.
  induction fuel as [|fuel IH];
    intros sorted remaining f r out sorted' remaining' f' r' out' Hrun Hres;
    cbn [Hardlinkable.dstLoop] in Hrun;
    destruct (popLast sorted) as [[sorted0 dst]|];
    try discriminate Hrun;
    try (by injection Hrun as _ _ _ <- <-).
  destruct (MaxNLinks f <? _); [by injection Hrun as _ _ _ <- <-|].
  bind_inv Hrun as [[f1 r1] out1] Hlink.
  apply (linkDstPaths_planResults E sto) in Hlink; [|done].
  by eapply IH.
Qed.

Lemma sendLoop_planResults E sto sn fuel :
  ∀ sorted remaining f r out f' r' out',
  Hardlinkable.sendLoop E sn fuel sorted remaining f r out = Done (f', r', out') →
  planResults E sto r out → planResults E sto r' out'.
Proof.
  induction fuel as [|fuel IH]; intros sorted remaining f r out f' r' out' Hrun Hres;
    cbn [Hardlinkable.sendLoop] in Hrun;
    destruct ((length sorted =? 0)%nat && (length remaining =? 0)%nat);
    try discriminate Hrun;
    try (by injection Hrun as _ <- <-).
  destruct (if (0 <? length remaining)%nat then _ else _) as [sorted1 remaining1].
  destruct sorted1 as [|src sorted2]; [done|].
  bind_inv Hrun as [[[[sorted3 remaining3] f3] r3] out3] Hdst.
  apply (dstLoop_planResults E sto) in Hdst; [|done].
  by eapply IH.
Qed.

(** The results of a planning run are a function of the pairs it
    emits: [NewLinkCount] counts them, [InodeRemovedCount] and
    [InodeRemovedByteAmount] count and add up the sizes of the destination
    inodes that lose their last link, and [LinkPaths], when new links are
    stored, lists the joined paths of the pairs in order, grouped by
    source. *)
Theorem planner_results_match_emitted_pairs E sameName storeNew f sortedInos f' r' out :
  Hardlinkable.sendLinkedPairs E sameName f (Hardlinkable.newResults storeNew) sortedInos
    = Done (f', r', out) →
  Hardlinkable.NewLinkCount r' = toInt64 (Z.of_nat (length out)) ∧
  Hardlinkable.InodeRemovedCount r' = toInt64 (Z.of_nat (length (filter removesInode out))) ∧
  Hardlinkable.InodeRemovedByteAmount r' = wrap 64 (removedBytes out) ∧
  if storeNew
  then Forall (λ g, (2 ≤ length g)%nat) (Hardlinkable.LinkPaths r') ∧
       linksOf (Hardlinkable.LinkPaths r') = pairNames E <$> out
  else Hardlinkable.LinkPaths r' = [].
Proof.
  intros Hrun. unfold Hardlinkable.sendLinkedPairs in Hrun.
  apply (sendLoop_planResults E storeNew) in Hrun as (_ & Hc & Hr & Hb & Hp).
  - split_and!; [done..|]. destruct storeNew; [|done]. naive_solver.
  - unfold planResults. cbn. split_and!; [done..|].
    destruct storeNew; [|done]. split_and!; [done| |done]. by intros [].
Qed.

(** ** The planner returns and conserves the recorded paths *)

(** [o] returns, with a result that satisfies [Q]. *)
Definition returnsWith {A} (o : Outcome A) (Q : A → Prop) : Prop :=
  match o with
  | Done a => Q a
  | _ => False
  end.

Lemma returnsWith_mono {A} (o : Outcome A) (Q Q' : A → Prop) :
  returnsWith o Q → (∀ a, Q a → Q' a) → returnsWith o Q'.
Proof. destruct o; cbn; auto. Qed.

Lemma returnsWith_bind {A B} (o : Outcome A) (k : A → Outcome B) (Q : B → Prop) :
  returnsWith o (λ a, returnsWith (k a) Q) → returnsWith (o ≫= k) Q.
Proof. by destruct o. Qed.

Lemma returnsWith_Done {A} (o : Outcome A) (Q : A → Prop) :
  returnsWith o Q ↔ ∃ a, o = Done a ∧ Q a.
Proof.
  destruct o; cbn; [|naive_solver..]. split; [eauto|]. by intros (a' & [= <-] & ?).
Qed.

(** No file name of any inode has an empty list of paths. *)
Definition listsNonempty (f : FSDev) : Prop :=
  ∀ x fn l, pathsAt f x !! fn = Some l → l ≠ [].

Definition hasPaths (f : FSDev) (x : Z) : Prop := pathsAt f x ≠ ∅.

(** The paths of the inodes [inos] were moved among them, and no other
    inode's paths were touched. *)
Definition conserved (inos : list Z) (f f' : FSDev) : Prop :=
  mjoin (allPaths f' <$> inos) ≡ₚ mjoin (allPaths f <$> inos) ∧
  ∀ x, x ∉ inos → pathsAt f' x = pathsAt f x.

Lemma conserved_refl inos f : conserved inos f f.
Proof. by split. Qed.

Lemma conserved_trans inos f1 f2 f3 :
  conserved inos f1 f2 → conserved inos f2 f3 → conserved inos f1 f3.
Proof.
  intros [Hp1 Ho1] [Hp2 Ho2]. split; [by rewrite Hp2|].
  intros x Hx. by rewrite Ho2, Ho1.
Qed.

Lemma conserved_two_inodes inos src dst f f' :
  NoDup inos → src ∈ inos → dst ∈ inos → src ≠ dst →
  allPaths f' src ++ allPaths f' dst ≡ₚ allPaths f src ++ allPaths f dst →
  (∀ x, x ≠ src → x ≠ dst → pathsAt f' x = pathsAt f x) →
  conserved inos f f'.
Proof.
  intros Hnd Hsrc Hdst Hne Hperm Hother. split; [|intros x Hx; apply Hother; set_solver].
  apply elem_of_Permutation in Hsrc as [l1 Hl1].
  assert (Hdst1 : dst ∈ l1).
  { rewrite Hl1 in Hdst. by apply elem_of_cons in Hdst as [?|?]. }
  apply elem_of_Permutation in Hdst1 as [l2 Hl2].
  rewrite Hl2 in Hl1. rewrite Hl1 in Hnd |- *.
  apply NoDup_cons in Hnd as [Hsrc Hnd]. apply NoDup_cons in Hnd as [Hdst2 _].
  cbn. rewrite !app_assoc, Hperm.
  assert (Heq : allPaths f' <$> l2 = allPaths f <$> l2).
  { apply list_fmap_ext. intros i x Hx. apply list_elem_of_lookup_2 in Hx.
    unfold allPaths. rewrite Hother; [done|set_solver..]. }
  by rewrite Heq.
Qed.

Lemma ArbitraryPath_hasPaths E f ino :
  listsNonempty f → hasPaths f ino → ∃ p, ArbitraryPath E f ino = Done p.
Proof.
  intros Hlists Hne. unfold ArbitraryPath.
  pose proof (rangeOf_perm (ranges E) _ (pathsAt f ino)) as Hperm.
  destruct (rangeOf (ranges E) (pathsAt f ino)) as [|[fn v] rest].
  - apply Permutation_nil_l in Hperm. symmetry in Hperm.
    by apply map_to_list_empty_iff in Hperm.
  - assert (Hv : pathsAt f ino !! fn = Some v).
    { apply elem_of_map_to_list. rewrite <- Hperm. by left. }
    apply Hlists in Hv. destruct v as [|p v]; [done|]. eauto.
Qed.

Lemma foundNewLink_returns E sto r out srcPath dstPath :
  planResults E sto r out →
  ∃ r1, Hardlinkable.foundNewLink (Join E) r srcPath dstPath = Done r1.
Proof.
  intros (Hsto & _ & _ & _ & Hpaths). subst sto.
  destruct (Hardlinkable.newLinkStatsEnabled r) eqn:Hen.
  - destruct Hpaths as (Hlen & Hd & _).
    destruct (foundNewLink_step (Join E) r srcPath dstPath Hen Hlen Hd) as (r1 & ? & _).
    eauto.
  - unfold Hardlinkable.foundNewLink. rewrite Hen. cbn. eauto.
Qed.

Lemma appended_perm (fp : gmap string (list Pathsplit)) p :
  mjoin (snd <$> map_to_list (<[Filename p := default [] (fp !! Filename p) ++ [p]]> fp))
    ≡ₚ mjoin (snd <$> map_to_list fp) ++ [p].
Proof.
  destruct (fp !! Filename p) as [l|] eqn:Hl; cbn.
  - destruct (allPaths_replace fp (Filename p) l (l ++ [p]) Hl) as [Hall Hins].
    rewrite Hins, Hall. solve_Permutation.
  - rewrite map_to_list_insert by done. cbn. solve_Permutation.
Qed.

(** One call of [moveLinkedPath] on a path recorded for [dst]. *)
Lemma moveLinkedPath_step f2 f p src dst :
  (∀ x, pathsAt f2 x = pathsAt f x) → src ≠ dst →
  keyedAll f → listsNonempty f → p ∈ allPaths f dst →
  let f3 := Hardlinkable.moveLinkedPath f2 p src dst in
  keyedAll f3 ∧ listsNonempty f3 ∧ hasPaths f3 src ∧
  allPaths f3 src ≡ₚ allPaths f src ++ [p] ∧
  allPaths f dst ≡ₚ p :: allPaths f3 dst ∧
  ∀ x, x ≠ src → x ≠ dst → pathsAt f3 x = pathsAt f x.
Proof.
  intros Hsame Hne Hk Hlists Hin f3.
  assert (Hpaths3 : ∀ x, pathsAt f3 x =
            if decide (x = src)
            then <[Filename p := default [] (pathsAt f src !! Filename p) ++ [p]]>
                   (pathsAt f src)
            else if decide (x = dst) then withoutPath (pathsAt f dst) p
            else pathsAt f x).
  { intros x. subst f3. rewrite moveLinkedPath_pathsAt by done. by rewrite !Hsame. }
  split_and!.
  - apply moveLinkedPath_keyedAll. intros x. rewrite Hsame. apply Hk.
  - intros x fn l. rewrite Hpaths3. repeat case_decide.
    + intros [[_ <-]|[_ Hl]]%lookup_insert_Some; [by destruct (default [] _)|].
      by eapply Hlists.
    + unfold withoutPath. destruct (length _ =? 0)%nat eqn:Hlen.
      * intros [_ Hl]%lookup_delete_Some. by eapply Hlists.
      * intros [[_ <-]|[_ Hl]]%lookup_insert_Some; [|by eapply Hlists].
        intros Hnil. rewrite Hnil in Hlen. done.
    + apply Hlists.
  - unfold hasPaths. rewrite Hpaths3, decide_True by done. apply insert_non_empty.
  - unfold allPaths at 1. rewrite Hpaths3, decide_True by done. apply appended_perm.
  - unfold allPaths at 2. rewrite Hpaths3, decide_False, decide_True by done.
    apply withoutPath_perm; [apply Hk|done].
  - intros x Hx1 Hx2. by rewrite Hpaths3, decide_False, decide_False.
Qed.

Lemma linkDstPaths_returns E sto sn prev src dst todo :
  ∀ srcSI dstSI f r out,
  src ≠ dst → keyedAll f → listsNonempty f → hasPaths f src →
  todo ⊆+ allPaths f dst → planResults E sto r (prev ++ out) →
  returnsWith
    (Hardlinkable.linkDstPaths E sn src dst todo srcSI dstSI f r out)
    (λ '(f', r', out'),
       keyedAll f' ∧ listsNonempty f' ∧ hasPaths f' src ∧
       planResults E sto r' (prev ++ out') ∧
       allPaths f' src ++ allPaths f' dst ≡ₚ allPaths f src ++ allPaths f dst ∧
       ∀ x, x ≠ src → x ≠ dst → pathsAt f' x = pathsAt f x).
Proof.
  induction todo as [|dstPath rest IH];
    intros srcSI dstSI f r out Hne Hk Hlists Hsrc Htodo Hres.
  - cbn. by split_and!.
  - cbn [Hardlinkable.linkDstPaths].
    assert (Hin : dstPath ∈ allPaths f dst).
    { eapply elem_of_submseteq; [|exact Htodo]. by left. }
    lazymatch goal with
    | |- returnsWith (?c ≫= ?k) ?Q =>
      assert (Hlink : ∀ srcPath, returnsWith (k (Some srcPath)) Q);
        [intros srcPath; cbn beta iota
        |assert (Hskip : returnsWith (k None) Q); [cbn beta iota|]]
    end.
    + destruct (foundNewLink_returns E sto r (prev ++ out) srcPath dstPath Hres)
        as [r1 Hr1].
      rewrite Hr1. cbn [mbind Outcome_bind].
      pose proof (foundNewLink_planResults E sto r (prev ++ out) srcPath srcSI dstPath
                    dstSI r1 Hres Hr1) as Hres1.
      cbn zeta in Hres1. rewrite <- app_assoc in Hres1.
      cbn [Hardlinkable.setNlink Nlink Size].
      destruct (wrap 32 (Nlink dstSI - 1) =? 0);
        (eapply returnsWith_mono;
         [ match goal with
           | |- returnsWith (Hardlinkable.linkDstPaths _ _ _ _ _ _ _
                               (Hardlinkable.moveLinkedPath ?f2 _ _ _) _ _) _ =>
             destruct (moveLinkedPath_step f2 f dstPath src dst)
               as (Hk3 & Hlists3 & Hsrc3 & Hps & Hpd & Hother3); [done..|];
             apply IH; [done|done|done|done| |exact Hres1];
             apply (submseteq_app_inv_l _ _ [dstPath]); cbn; by rewrite <- Hpd
           end
         | intros [[f' r'] out'] (Hk' & Hl' & Hs' & Hr' & Hp' & Ho');
           match goal with
           | Hp' : context [Hardlinkable.moveLinkedPath ?f2 _ _ _] |- _ =>
             destruct (moveLinkedPath_step f2 f dstPath src dst)
               as (_ & _ & _ & Hps & Hpd & Hother3); [done..|]
           end;
           split_and!; [done|done|done|done| |];
           [ rewrite Hp', Hps, Hpd; solve_Permutation
           | intros x Hx1 Hx2; rewrite Ho' by done; by apply Hother3 ] ]).
    + eapply returnsWith_mono; [apply IH; try done|by intros [[f' r'] out']].
      apply submseteq_cons_l in Htodo as (k' & -> & Hsub). by apply submseteq_cons.
    + apply returnsWith_bind. destruct sn.
      * destruct (pathsAt f src !! Filename dstPath) as [l|] eqn:Hl; [|done].
        unfold ArbitraryFilenamePath. rewrite Hl. cbn.
        destruct l as [|srcPath l]; [by apply Hlists in Hl|]. cbn. apply Hlink.
      * destruct (ArbitraryPath_hasPaths E f src Hlists Hsrc) as [srcPath ->]. cbn.
        apply Hlink.
Qed.

Lemma submseteq_NoDup {A} (l1 l2 : list A) : NoDup l2 → l1 ⊆+ l2 → NoDup l1.
Proof.
  intros Hnd [k Hk]%submseteq_Permutation. rewrite Hk in Hnd.
  by apply NoDup_app in Hnd as [? _].
Qed.

Lemma dstLoop_returns E sto sn prev inos fuel src :
  ∀ sorted remaining f r out,
  (length sorted ≤ fuel)%nat →
  NoDup (src :: sorted ++ remaining) → NoDup inos →
  (∀ x, x ∈ src :: sorted ++ remaining → x ∈ inos) →
  keyedAll f → listsNonempty f →
  (∀ x, x ∈ src :: sorted ++ remaining → hasPaths f x) →
  planResults E sto r (prev ++ out) →
  returnsWith
    (Hardlinkable.dstLoop E sn fuel src sorted remaining f r out)
    (λ '(sorted', remaining', f', r', out'),
       sorted' ++ remaining' ⊆+ sorted ++ remaining ∧
       keyedAll f' ∧ listsNonempty f' ∧
       (∀ x, x ∈ sorted' ++ remaining' → hasPaths f' x) ∧
       planResults E sto r' (prev ++ out') ∧ conserved inos f f').
Proof.
  induction fuel as [|fuel IH];
    intros sorted remaining f r out Hfuel Hnd Hinos Hsub Hk Hlists Hhas Hres;
    cbn [Hardlinkable.dstLoop];
    (destruct (popLast sorted) as [[sorted0 dst]|] eqn:Hpop;
     [ apply popLast_Some in Hpop; subst sorted
     | apply popLast_None in Hpop; subst sorted; cbn;
       split_and!; [done|done|done| |done|apply conserved_refl];
       intros x Hx; apply Hhas; by right ]).
  { rewrite length_app in Hfuel. cbn in Hfuel. lia. }
  rewrite length_app in Hfuel. cbn [length] in Hfuel.
  destruct (MaxNLinks f <? _).
  { cbn. split_and!; [|done|done| |done|apply conserved_refl].
    - apply Permutation_submseteq. unfold Hardlinkable.appendReversedInos.
      rewrite <- Permutation_rev. solve_Permutation.
    - intros x Hx. apply Hhas. right. unfold Hardlinkable.appendReversedInos in Hx.
      rewrite <- Permutation_rev in Hx. set_solver. }
  apply NoDup_cons in Hnd as [Hsrc Hnd].
  assert (Hne : src ≠ dst) by set_solver.
  apply returnsWith_bind.
  eapply returnsWith_mono.
  { apply (linkDstPaths_returns E sto sn prev); [done|done|done| | |done].
    - apply Hhas. by left.
    - by rewrite allInoPaths_perm. }
  intros [[f1 r1] out1] (Hk1 & Hlists1 & Hsrc1 & Hres1 & Hperm1 & Hother1).
  set (remaining1 := match InoPaths f1 !! dst with
                     | Some fp => if negb (Hardlinkable.IsEmpty fp)
                                  then remaining ++ [dst] else remaining
                     | None => remaining
                     end).
  assert (Hsub1 : sorted0 ++ remaining1 ⊆+ (sorted0 ++ [dst]) ++ remaining).
  { subst remaining1. rewrite <- app_assoc. apply submseteq_app; [done|].
    destruct (InoPaths f1 !! dst) as [fp|]; [destruct (negb _)|].
    - apply Permutation_submseteq. solve_Permutation.
    - by apply submseteq_cons.
    - by apply submseteq_cons. }
  assert (Hdst1 : dst ∈ remaining1 → hasPaths f1 dst).
  { subst remaining1. unfold hasPaths, pathsAt.
    destruct (InoPaths f1 !! dst) as [fp|] eqn:Hfp.
    - unfold Hardlinkable.IsEmpty. case_bool_decide; cbn; [|done].
      intros Hin. exfalso. rewrite <- app_assoc in Hnd.
      apply NoDup_app in Hnd as (_ & _ & Hnd). apply NoDup_cons in Hnd as [Hd _]. done.
    - intros Hin. exfalso. rewrite <- app_assoc in Hnd.
      apply NoDup_app in Hnd as (_ & _ & Hnd). apply NoDup_cons in Hnd as [Hd _]. done. }
  assert (Hin1 : ∀ x, x ∈ sorted0 ++ remaining1 → x ∈ (sorted0 ++ [dst]) ++ remaining).
  { intros x Hx. eapply elem_of_submseteq; [exact Hx|exact Hsub1]. }
  eapply returnsWith_mono.
  { apply (IH sorted0 remaining1 f1 r1 out1); [lia| |done| |done|done| |done].
    - apply NoDup_cons. split.
      + intros Hx. apply Hsrc, Hin1, Hx.
      + eapply submseteq_NoDup; [exact Hnd|exact Hsub1].
    - intros x [->|Hx]%elem_of_cons; apply Hsub; [by left|right; by apply Hin1].
    - intros x [->|Hx]%elem_of_cons; [done|].
      destruct (decide (x = dst)) as [->|Hxd].
      + apply Hdst1. apply elem_of_app in Hx as [Hx|Hx]; [|done].
        exfalso. rewrite <- app_assoc in Hnd. apply NoDup_app in Hnd as (_ & Hd & _).
        apply (Hd dst Hx). set_solver.
      + unfold hasPaths. rewrite Hother1; [|intros ->; apply Hsrc, Hin1, Hx|done].
        apply Hhas. right. by apply Hin1. }
  intros [[[[sorted' remaining'] f'] r'] out'] (Hsub' & Hk' & Hl' & Hh' & Hr' & Hc').
  split_and!; [by etrans|done|done|done|done|].
  eapply conserved_trans; [|exact Hc'].
  apply (conserved_two_inodes inos src dst); [done| | |done|done|done].
  - apply Hsub. by left.
  - apply Hsub. right. set_solver.
Qed.

Lemma sendLoop_returns E sto sn prev inos fuel :
  ∀ sorted remaining f r out,
  (length (sorted ++ remaining) ≤ fuel)%nat →
  NoDup (sorted ++ remaining) → NoDup inos →
  (∀ x, x ∈ sorted ++ remaining → x ∈ inos) →
  keyedAll f → listsNonempty f →
  (∀ x, x ∈ sorted ++ remaining → hasPaths f x) →
  planResults E sto r (prev ++ out) →
  returnsWith
    (Hardlinkable.sendLoop E sn fuel sorted remaining f r out)
    (λ '(f', r', out'),
       keyedAll f' ∧ listsNonempty f' ∧ planResults E sto r' (prev ++ out') ∧
       conserved inos f f').
Proof.
  induction fuel as [|fuel IH];
    intros sorted remaining f r out Hfuel Hnd Hinos Hsub Hk Hlists Hhas Hres;
    cbn [Hardlinkable.sendLoop];
    destruct ((length sorted =? 0)%nat && (length remaining =? 0)%nat) eqn:Hempty;
    try (cbn; split_and!; [done|done|done|apply conserved_refl]).
  { rewrite length_app in Hfuel.
    apply andb_false_iff in Hempty as [H0|H0]; apply Nat.eqb_neq in H0; lia. }
  destruct (if (0 <? length remaining)%nat
            then (Hardlinkable.appendReversedInos sorted remaining, [])
            else (sorted, remaining)) as [sorted1 remaining1] eqn:Hpair.
  assert (Hperm : sorted1 ++ remaining1 ≡ₚ sorted ++ remaining ∧ remaining1 = []).
  { destruct (0 <? length remaining)%nat eqn:Hlen; injection Hpair as <- <-.
    - split; [|done]. unfold Hardlinkable.appendReversedInos.
      rewrite app_nil_r. apply Permutation_app_head. symmetry. apply Permutation_rev.
    - apply Nat.ltb_ge in Hlen. destruct remaining; [done|cbn in Hlen; lia]. }
  destruct Hperm as [Hperm ->].
  rewrite app_nil_r in Hperm.
  destruct sorted1 as [|src sorted2].
  { exfalso. apply Permutation_nil_l in Hperm. symmetry in Hperm.
    apply app_eq_nil in Hperm as [-> ->]. done. }
  apply returnsWith_bind.
  assert (Hlen : length (sorted ++ remaining) = S (length sorted2)) by (by rewrite <- Hperm).
  eapply returnsWith_mono.
  { apply (dstLoop_returns E sto sn prev inos); [done| |done| |done|done| |done];
      rewrite app_nil_r.
    - by rewrite Hperm.
    - intros x Hx. apply Hsub. by rewrite <- Hperm.
    - intros x Hx. apply Hhas. by rewrite <- Hperm. }
  intros [[[[sorted3 remaining3] f3] r3] out3] (Hsub3 & Hk3 & Hl3 & Hh3 & Hr3 & Hc3).
  rewrite app_nil_r in Hsub3.
  assert (Hin3 : ∀ x, x ∈ sorted3 ++ remaining3 → x ∈ sorted ++ remaining).
  { intros x Hx. rewrite <- Hperm. right. by eapply elem_of_submseteq. }
  eapply returnsWith_mono.
  { apply (IH sorted3 remaining3 f3 r3 out3); [| |done| |done|done|done|done].
    - apply submseteq_length in Hsub3. lia.
    - eapply submseteq_NoDup; [|exact Hsub3].
      rewrite <- Hperm in Hnd. by apply NoDup_cons in Hnd as [_ ?].
    - intros x Hx. apply Hsub, Hin3, Hx. }
  intros [[f' r'] out'] (Hk' & Hl' & Hr' & Hc').
  split_and!; [done|done|done|]. by eapply conserved_trans.
Qed.

(** The planner's preconditions on a component: distinct inodes, each
    with at least one recorded path, every path filed under its own file
    name, no file name with an empty list. *)
Definition plannable (f : FSDev) (sortedInos : list Z) : Prop :=
  NoDup sortedInos ∧ keyedAll f ∧ listsNonempty f ∧
  ∀ x, x ∈ sortedInos → hasPaths f x.

Lemma newResults_planResults E storeNew :
  planResults E storeNew (Hardlinkable.newResults storeNew) [].
Proof.
  unfold planResults. cbn. split_and!; [done..|].
  destruct storeNew; [|done]. split_and!; [done| |done]. by intros [].
Qed.

Lemma sendLinkedPairs_plans E sameName storeNew f r prev sortedInos :
  plannable f sortedInos → planResults E storeNew r prev →
  returnsWith
    (Hardlinkable.sendLinkedPairs E sameName f r sortedInos)
    (λ '(f', r', out'),
       keyedAll f' ∧ listsNonempty f' ∧ planResults E storeNew r' (prev ++ out') ∧
       conserved sortedInos f f').
Proof.
  intros (Hnd & Hk & Hlists & Hhas) Hres. unfold Hardlinkable.sendLinkedPairs.
  apply (sendLoop_returns E storeNew sameName prev sortedInos);
    rewrite ?app_nil_r; done.
Qed.

Lemma sendLinkedPairs_returns E sameName storeNew f sortedInos :
  plannable f sortedInos →
  returnsWith
    (Hardlinkable.sendLinkedPairs E sameName f (Hardlinkable.newResults storeNew) sortedInos)
    (λ '(f', r', out'),
       keyedAll f' ∧ listsNonempty f' ∧ planResults E storeNew r' out' ∧
       conserved sortedInos f f').
Proof.
  intros Hplan.
  apply (sendLinkedPairs_plans E sameName storeNew f _ [] sortedInos Hplan).
  apply newResults_planResults.
Qed.

(** On a well-formed component the planner returns: it does not panic
    (no inode without a path is asked for one, no empty group is read)
    and its loops end within their bounds. *)
Theorem planner_returns_on_well_formed_component E sameName storeNew f sortedInos :
  plannable f sortedInos →
  ∃ f' r' out,
    Hardlinkable.sendLinkedPairs E sameName f (Hardlinkable.newResults storeNew) sortedInos
      = Done (f', r', out) ∧
    keyedAll f' ∧ listsNonempty f'.
Proof.
  intros Hplan.
  pose proof (sendLinkedPairs_returns E sameName storeNew f sortedInos Hplan) as Hret.
  apply returnsWith_Done in Hret as ([[f' r'] out] & Hrun & Hk & Hl & _).
  by exists f', r', out.
Qed.

(** Planning a well-formed component moves the recorded paths among
    the inodes of the component: taken together they are the same paths
    as before, each as often as before, and the paths of every other
    inode are untouched. *)
Theorem planner_conserves_recorded_paths E sameName storeNew f sortedInos f' r' out :
  plannable f sortedInos →
  Hardlinkable.sendLinkedPairs E sameName f (Hardlinkable.newResults storeNew) sortedInos
    = Done (f', r', out) →
  mjoin (allPaths f' <$> sortedInos) ≡ₚ mjoin (allPaths f <$> sortedInos) ∧
  ∀ x, x ∉ sortedInos → pathsAt f' x = pathsAt f x.
Proof.
  intros Hplan Hrun.
  pose proof (sendLinkedPairs_returns E sameName storeNew f sortedInos Hplan) as Hret.
  rewrite Hrun in Hret. by destruct Hret as (_ & _ & _ & Hc).
Qed.

(** ** The planner's link counts *)

(** The links of [x] that the walk did not find: its nlink less the
    number of its recorded paths. *)
Definition unwalked (f : FSDev) (x : Z) : Z :=
  Nlink (statAt f x) - Z.of_nat (length (allPaths f x)).

Lemma linkDstPaths_unwalked E sn src dst todo :
  ∀ srcSI dstSI f r out f' r' out',
  Hardlinkable.linkDstPaths E sn src dst todo srcSI dstSI f r out = Done (f', r', out') →
  src ≠ dst → nlinkInRange f → keyedAll f →
  todo ⊆+ allPaths f dst →
  Nlink (statAt f src) = Nlink srcSI → Nlink (statAt f dst) = Nlink dstSI →
  0 ≤ Nlink srcSI → Nlink srcSI + Z.of_nat (length todo) < 2 ^ 32 →
  Z.of_nat (length (allPaths f dst)) ≤ Nlink dstSI < 2 ^ 32 →
  unwalked f' src = unwalked f src ∧ unwalked f' dst = unwalked f dst.
Proof.
  induction todo as [|dstPath rest IH];
    intros srcSI dstSI f r out f' r' out' Hrun Hne Hrange Hkeyed Htodo Hsrc Hdst
           Hsrc0 Hcap Hlen.
  - cbn in Hrun. by injection Hrun as <- <- <-.
  - cbn [Hardlinkable.linkDstPaths] in Hrun. bind_inv Hrun as choice Hchoice.
    cbn [length] in Hcap.
    destruct choice as [srcPath|].
    2: { apply (IH srcSI dstSI f r out f' r' out' Hrun Hne Hrange Hkeyed);
           [|done|done|done|lia|done].
         apply submseteq_cons_l in Htodo as (k' & -> & Hsub).
         by apply submseteq_cons. }
    bind_inv Hrun as r1 Hr1.
    set (srcSI' := Hardlinkable.setNlink srcSI (wrap 32 (Nlink srcSI + 1))) in *.
    set (dstSI' := Hardlinkable.setNlink dstSI (wrap 32 (Nlink dstSI - 1))) in *.
    set (f1 := set_InoStatInfo (<[src := srcSI']> (InoStatInfo f)) f) in *.
    destruct (if Nlink dstSI' =? 0
              then (set_InoStatInfo (delete dst (InoStatInfo f1)) f1,
                    Hardlinkable.foundRemovedInode r1 (Size dstSI'))
              else (set_InoStatInfo (<[dst := dstSI']> (InoStatInfo f1)) f1, r1))
      as [f2 r2] eqn:Hf2.
    set (f3 := Hardlinkable.moveLinkedPath f2 dstPath src dst) in *.
    assert (Hin : dstPath ∈ allPaths f dst).
    { eapply elem_of_submseteq; [|exact Htodo]. by left. }
    assert (Hpaths2 : ∀ x, pathsAt f2 x = pathsAt f x).
    { intros x. destruct (Nlink dstSI' =? 0); by injection Hf2 as <- _. }
    assert (Hstat2 : InoStatInfo f2 =
              if Nlink dstSI' =? 0 then delete dst (<[src := srcSI']> (InoStatInfo f))
              else <[dst := dstSI']> (<[src := srcSI']> (InoStatInfo f))).
    { destruct (Nlink dstSI' =? 0); by injection Hf2 as <- _. }
    destruct (moveLinkedPath_tables f2 dstPath src dst) as [Hstat3 _].
    fold f3 in Hstat3.
    assert (Hpaths3 : ∀ x, pathsAt f3 x =
              if decide (x = src)
              then <[Filename dstPath :=
                       default [] (pathsAt f src !! Filename dstPath) ++ [dstPath]]>
                     (pathsAt f src)
              else if decide (x = dst) then withoutPath (pathsAt f dst) dstPath
              else pathsAt f x).
    { intros x. subst f3. rewrite moveLinkedPath_pathsAt by done.
      by rewrite !Hpaths2. }
    assert (Hperm_dst : allPaths f dst ≡ₚ dstPath :: allPaths f3 dst).
    { unfold allPaths at 2. rewrite Hpaths3.
      rewrite decide_False by done. rewrite decide_True by done.
      apply withoutPath_perm; [apply Hkeyed|done]. }
    assert (Hperm_src : allPaths f3 src ≡ₚ allPaths f src ++ [dstPath]).
    { unfold allPaths at 1. rewrite Hpaths3, decide_True by done. apply appended_perm. }
    assert (Hlen_dst : length (allPaths f dst) = S (length (allPaths f3 dst)))
      by (by rewrite Hperm_dst).
    assert (Hlen_src : length (allPaths f3 src) = S (length (allPaths f src))).
    { rewrite Hperm_src, length_app. cbn. lia. }
    assert (Hm : wrap 32 (Nlink dstSI - 1) = Nlink dstSI - 1)
      by (apply wrap_small; lia).
    assert (Hp : wrap 32 (Nlink srcSI + 1) = Nlink srcSI + 1)
      by (apply wrap_small; lia).
    assert (Hrange3 : nlinkInRange f3).
    { intros ino si. rewrite Hstat3, Hstat2.
      destruct (Nlink dstSI' =? 0).
      - intros [_ Hsi]%lookup_delete_Some.
        apply lookup_insert_Some in Hsi as [[_ <-]|[_ Hsi]]; [cbn; lia|by eapply Hrange].
      - intros [[_ <-]|[_ Hsi]]%lookup_insert_Some; [cbn; lia|].
        apply lookup_insert_Some in Hsi as [[_ <-]|[_ Hsi]]; [cbn; lia|by eapply Hrange]. }
    assert (Hstat_dst : Nlink (statAt f3 dst) = Nlink dstSI').
    { unfold statAt. rewrite Hstat3, Hstat2.
      destruct (Nlink dstSI' =? 0) eqn:Hz.
      - rewrite lookup_delete_eq. apply Z.eqb_eq in Hz. by rewrite Hz.
      - by rewrite lookup_insert_eq. }
    assert (Hstat_src : Nlink (statAt f3 src) = Nlink srcSI').
    { unfold statAt. rewrite Hstat3, Hstat2.
      destruct (Nlink dstSI' =? 0).
      - rewrite lookup_delete_ne, lookup_insert_eq by done. done.
      - rewrite lookup_insert_ne, lookup_insert_eq by done. done. }
    destruct (IH srcSI' dstSI' f3 r2 _ f' r' out' Hrun) as [Hus Hud]; try done.
    + intros x. rewrite Hpaths3. repeat case_decide.
      * apply appended_keyed, Hkeyed.
      * apply withoutPath_keyed, Hkeyed.
      * apply Hkeyed.
    + apply (submseteq_app_inv_l _ _ [dstPath]). cbn. by rewrite <- Hperm_dst.
    + cbn. lia.
    + cbn. lia.
    + cbn. rewrite Hm. lia.
    + rewrite Hus, Hud. unfold unwalked.
      rewrite Hstat_src, Hstat_dst, Hsrc, Hdst, Hlen_dst, Hlen_src. cbn. lia.
Qed.

Lemma dstLoop_unwalked E sn fuel src :
  ∀ sorted remaining f r out sorted' remaining' f' r' out',
  Hardlinkable.dstLoop E sn fuel src sorted remaining f r out
    = Done (sorted', remaining', f', r', out') →
  planInv f (sorted ++ remaining) → src ∉ sorted ++ remaining →
  MaxNLinks f < 2 ^ 32 → Forall (withinCap (MaxNLinks f)) out →
  ∀ x, unwalked f' x = unwalked f x.
Proof.
  induction fuel as [|fuel IH];
    intros sorted remaining f r out sorted' remaining' f' r' out' Hrun Hinv Hsrc Hmax
           Hout;
    cbn [Hardlinkable.dstLoop] in Hrun;
    destruct (popLast sorted) as [[sorted0 dst]|] eqn:Hpop;
    try discriminate Hrun;
    try (by injection Hrun as _ _ <- _ _).
  apply popLast_Some in Hpop. subst sorted.
  pose proof Hinv as (Hnd & Hrange & Hkeyed & Hwithin).
  assert (Hdst_in : dst ∈ (sorted0 ++ [dst]) ++ remaining) by set_solver.
  assert (Hne : src ≠ dst) by (intros ->; done).
  pose proof (statAt_range f src Hrange) as Hsrc_range.
  pose proof (statAt_range f dst Hrange) as Hdst_range.
  pose proof (Hwithin dst Hdst_in) as Hdst_within. unfold pathsWithinNlink in Hdst_within.
  rewrite !(wrap_small 64 (Nlink _)) in Hrun by lia.
  rewrite (wrap_small 64) in Hrun by lia.
  destruct (MaxNLinks f <? Nlink (statAt f src) + Nlink (statAt f dst)) eqn:Hsum;
    [by injection Hrun as _ _ <- _ _|].
  apply Z.ltb_ge in Hsum.
  bind_inv Hrun as [[f1 r1] out1] Hlink.
  pose proof Hlink as Hlink'.
  apply linkDstPaths_spec in Hlink'
    as (Hout1 & HM1 & Hrange1 & Hkeyed1 & Hwithin1 & Hother1); try done.
  2: { by rewrite allInoPaths_perm. }
  2: { rewrite allInoPaths_perm. lia. }
  2: { lia. }
  apply linkDstPaths_unwalked in Hlink as [Hus Hud]; try done.
  2: { by rewrite allInoPaths_perm. }
  2: { lia. }
  2: { rewrite allInoPaths_perm. lia. }
  2: { lia. }
  set (remaining1 := match InoPaths f1 !! dst with
                     | Some fp => if negb (Hardlinkable.IsEmpty fp)
                                  then remaining ++ [dst] else remaining
                     | None => remaining
                     end) in *.
  assert (Hsub : ∀ x, x ∈ sorted0 ++ remaining1 → x ∈ (sorted0 ++ [dst]) ++ remaining).
  { intros x. subst remaining1.
    destruct (InoPaths f1 !! dst) as [fp|]; [destruct (negb _)|]; set_solver. }
  assert (Hnd1 : NoDup (sorted0 ++ remaining1)).
  { rewrite <- app_assoc in Hnd. apply NoDup_app in Hnd as (Hnd0 & Hdisj & Hnd2).
    apply NoDup_app in Hnd2 as (_ & Hdisj2 & Hnd3).
    subst remaining1.
    destruct (InoPaths f1 !! dst) as [fp|]; [destruct (negb _)|];
      apply NoDup_app; split_and!; try done;
      try (intros x Hx Hx'; apply (Hdisj x Hx); set_solver).
    apply NoDup_app. split_and!; [done| |apply NoDup_singleton].
    intros x Hx ->%list_elem_of_singleton. apply (Hdisj2 dst); set_solver. }
  assert (Hstep1 : ∀ x, unwalked f1 x = unwalked f x).
  { intros x. destruct (decide (x = src)) as [->|Hxs]; [done|].
    destruct (decide (x = dst)) as [->|Hxd]; [done|].
    destruct (Hother1 x Hxs Hxd) as [Hp Hs]. unfold unwalked, allPaths. by rewrite Hp, Hs. }
  intros x. rewrite <- Hstep1.
  eapply IH; [exact Hrun| |set_solver|by rewrite HM1|by rewrite HM1].
  split_and!; [done|done|done|].
  intros y Hy. destruct (decide (y = dst)) as [->|Hyd]; [done|].
  assert (y ≠ src) by (intros ->; apply Hsrc, Hsub, Hy).
  destruct (Hother1 y) as [Hp Hs]; [done|done|].
  unfold pathsWithinNlink, allPaths. rewrite Hp, Hs. apply Hwithin, Hsub, Hy.
Qed.

Lemma sendLoop_unwalked E sn fuel :
  ∀ sorted remaining f r out f' r' out',
  Hardlinkable.sendLoop E sn fuel sorted remaining f r out = Done (f', r', out') →
  planInv f (sorted ++ remaining) → MaxNLinks f < 2 ^ 32 →
  Forall (withinCap (MaxNLinks f)) out →
  ∀ x, unwalked f' x = unwalked f x.
Proof.
  induction fuel as [|fuel IH];
    intros sorted remaining f r out f' r' out' Hrun Hinv Hmax Hout;
    cbn [Hardlinkable.sendLoop] in Hrun;
    destruct ((length sorted =? 0)%nat && (length remaining =? 0)%nat);
    try discriminate Hrun;
    try (by injection Hrun as <- _ _).
  destruct (if (0 <? length remaining)%nat
            then (Hardlinkable.appendReversedInos sorted remaining, [])
            else (sorted, remaining)) as [sorted1 remaining1] eqn:Hpair.
  assert (Hinv1 : planInv f (sorted1 ++ remaining1)).
  { destruct (0 <? length remaining)%nat; injection Hpair as <- <-; [|done].
    eapply planInv_perm; [|exact Hinv].
    unfold Hardlinkable.appendReversedInos. rewrite app_nil_r.
    by rewrite <- Permutation_rev. }
  destruct sorted1 as [|src sorted2]; [done|].
  bind_inv Hrun as [[[[sorted3 remaining3] f3] r3] out3] Hdst.
  destruct Hinv1 as (Hnd & Hr & Hk & Hw). cbn in Hnd.
  apply NoDup_cons in Hnd as [Hsrc Hnd].
  assert (Hinv2 : planInv f (sorted2 ++ remaining1)).
  { split_and!; [done|done|done|]. intros y Hy. apply Hw. by right. }
  pose proof (dstLoop_unwalked _ _ _ _ _ _ _ _ _ _ _ _ _ _ Hdst Hinv2 Hsrc Hmax Hout)
    as Hstep.
  apply dstLoop_spec in Hdst as (Hinv3 & HM3 & Hout3); [|done|done|done].
  intros x. rewrite <- Hstep.
  eapply IH; [exact Hrun|done|by rewrite HM3|by rewrite HM3].
Qed.

(** When the stat results are current (no inode has more recorded
    paths than links) and the cap fits an nlink field, planning changes
    the nlink of every inode by exactly the number of paths it gained or
    lost: the count of its links that the walk did not find stays the
    same. *)
Theorem planner_nlinks_follow_paths E sameName f r sortedInos f' r' out :
  NoDup sortedInos → nlinkInRange f → keyedAll f →
  (∀ ino, ino ∈ sortedInos → pathsWithinNlink f ino) →
  MaxNLinks f < 2 ^ 32 →
  Hardlinkable.sendLinkedPairs E sameName f r sortedInos = Done (f', r', out) →
  ∀ x, Nlink (statAt f' x) - Z.of_nat (length (allPaths f' x))
       = Nlink (statAt f x) - Z.of_nat (length (allPaths f x)).
Proof.
  intros Hnd Hr Hk Hw Hmax Hrun. unfold Hardlinkable.sendLinkedPairs in Hrun.
  apply (sendLoop_unwalked _ _ _ _ _ _ _ _ _ _ _ Hrun); [|done|done].
  rewrite app_nil_r. by split_and!.
Qed.

(** ** What planning leaves alone *)

(** The tables that only ingestion writes. *)
Definition sameIndex (f f' : FSDev) : Prop :=
  Dev f' = Dev f ∧ MaxNLinks f' = MaxNLinks f ∧ InoHashes f' = InoHashes f ∧
  LinkedInos f' = LinkedInos f ∧ DigestIno f' = DigestIno f ∧
  InosWithDigest f' = InosWithDigest f.

(** The entries of [x] in the two tables that planning writes. *)
Definition sameInode (f f' : FSDev) (x : Z) : Prop :=
  InoStatInfo f' !! x = InoStatInfo f !! x ∧ InoPaths f' !! x = InoPaths f !! x.

Lemma moveLinkedPath_frame fs p src dst :
  sameIndex fs (Hardlinkable.moveLinkedPath fs p src dst) ∧
  InoStatInfo (Hardlinkable.moveLinkedPath fs p src dst) = InoStatInfo fs ∧
  ∀ x, x ≠ src → x ≠ dst →
       InoPaths (Hardlinkable.moveLinkedPath fs p src dst) !! x = InoPaths fs !! x.
Proof.
  unfold Hardlinkable.moveLinkedPath, InoAppendPathname.
  destruct (length _ =? 0)%nat; cbn; (split_and!; [by repeat split|done|]);
    intros x Hx1 Hx2; by rewrite lookup_insert_ne, lookup_alter_ne.
Qed.

Lemma linkDstPaths_frame E sn src dst todo :
  ∀ srcSI dstSI f r out f' r' out',
  Hardlinkable.linkDstPaths E sn src dst todo srcSI dstSI f r out = Done (f', r', out') →
  sameIndex f f' ∧ ∀ x, x ≠ src → x ≠ dst → sameInode f f' x.
Proof.
  induction todo as [|dstPath rest IH]; intros srcSI dstSI f r out f' r' out' Hrun.
  - cbn in Hrun. injection Hrun as <- _ _. by repeat split.
  - cbn [Hardlinkable.linkDstPaths] in Hrun. bind_inv Hrun as choice Hchoice.
    destruct choice as [srcPath|]; [|by eapply IH].
    bind_inv Hrun as r1 Hr1.
    destruct (if _ =? 0 then _ else _) as [f2 r2] eqn:Hf2.
    apply IH in Hrun as [Hidx Hino].
    destruct (moveLinkedPath_frame f2 dstPath src dst) as (Hidx3 & Hstat3 & Hpaths3).
    assert (H2 : sameIndex f f2 ∧ InoPaths f2 = InoPaths f ∧
                 ∀ x, x ≠ src → x ≠ dst → InoStatInfo f2 !! x = InoStatInfo f !! x).
    { destruct (_ =? 0); injection Hf2 as <- _; cbn;
        (split_and!; [by repeat split|done|]); intros x Hx1 Hx2.
      - by rewrite lookup_delete_ne, lookup_insert_ne.
      - by rewrite !lookup_insert_ne. }
    destruct H2 as (Hidx2 & Hpaths2 & Hstat2).
    split.
    + unfold sameIndex in *. destruct Hidx as (?&?&?&?&?&?), Hidx3 as (?&?&?&?&?&?),
        Hidx2 as (?&?&?&?&?&?). split_and!; congruence.
    + intros x Hx1 Hx2. destruct (Hino x Hx1 Hx2) as [Hs Hp]. split.
      * rewrite Hs, Hstat3. by apply Hstat2.
      * rewrite Hp, Hpaths3 by done. by rewrite Hpaths2.
Qed.

Lemma sameIndex_trans f1 f2 f3 : sameIndex f1 f2 → sameIndex f2 f3 → sameIndex f1 f3.
Proof. unfold sameIndex. intros (?&?&?&?&?&?) (?&?&?&?&?&?). split_and!; congruence. Qed.

Lemma dstLoop_frame E sn fuel src :
  ∀ sorted remaining f r out sorted' remaining' f' r' out',
  Hardlinkable.dstLoop E sn fuel src sorted remaining f r out
    = Done (sorted', remaining', f', r', out') →
  sameIndex f f' ∧
  (∀ x, x ≠ src → x ∉ sorted → sameInode f f' x) ∧
  (∀ x, x ∈ sorted' ++ remaining' → x ∈ sorted ++ remaining).
Proof.
  induction fuel as [|fuel IH];
    intros sorted remaining f r out sorted' remaining' f' r' out' Hrun;
    cbn [Hardlinkable.dstLoop] in Hrun;
    destruct (popLast sorted) as [[sorted0 dst]|] eqn:Hpop;
    try discriminate Hrun;
    try (injection Hrun as <- <- <- _ _; by repeat split).
  apply popLast_Some in Hpop. subst sorted.
  destruct (MaxNLinks f <? _).
  { injection Hrun as <- <- <- _ _. split_and!; [by repeat split|done|].
    intros x. unfold Hardlinkable.appendReversedInos. rewrite <- Permutation_rev.
    set_solver. }
  bind_inv Hrun as [[f1 r1] out1] Hlink.
  apply linkDstPaths_frame in Hlink as [Hidx1 Hino1].
  apply IH in Hrun as (Hidx & Hino & Hsub).
  split_and!.
  - by eapply sameIndex_trans.
  - intros x Hx1 Hx2.
    destruct (Hino x Hx1) as [Hs Hp]; [set_solver|].
    destruct (Hino1 x Hx1) as [Hs1 Hp1]; [set_solver|].
    split; congruence.
  - intros x Hx. apply Hsub in Hx.
    destruct (InoPaths f1 !! dst) as [fp|]; [destruct (negb _)|]; set_solver.
Qed.

Lemma sendLoop_frame E sn fuel :
  ∀ sorted remaining f r out f' r' out',
  Hardlinkable.sendLoop E sn fuel sorted remaining f r out = Done (f', r', out') →
  sameIndex f f' ∧ ∀ x, x ∉ sorted ++ remaining → sameInode f f' x.
Proof.
  induction fuel as [|fuel IH]; intros sorted remaining f r out f' r' out' Hrun;
    cbn [Hardlinkable.sendLoop] in Hrun;
    destruct ((length sorted =? 0)%nat && (length remaining =? 0)%nat);
    try discriminate Hrun;
    try (injection Hrun as <- _ _; by repeat split).
  destruct (if (0 <? length remaining)%nat
            then (Hardlinkable.appendReversedInos sorted remaining, [])
            else (sorted, remaining)) as [sorted1 remaining1] eqn:Hpair.
  assert (Hsame : ∀ x, x ∈ sorted1 ++ remaining1 ↔ x ∈ sorted ++ remaining).
  { intros x. destruct (0 <? length remaining)%nat; injection Hpair as <- <-; [|done].
    unfold Hardlinkable.appendReversedInos. rewrite app_nil_r, <- Permutation_rev. done. }
  destruct sorted1 as [|src sorted2]; [done|].
  bind_inv Hrun as [[[[sorted3 remaining3] f3] r3] out3] Hdst.
  apply dstLoop_frame in Hdst as (Hidx3 & Hino3 & Hsub3).
  apply IH in Hrun as [Hidx Hino].
  split; [by eapply sameIndex_trans|].
  intros x Hx. rewrite <- Hsame in Hx.
  destruct (Hino3 x) as [Hs3 Hp3]; [set_solver..|].
  destruct (Hino x) as [Hs Hp].
  { intros Hin. apply Hx. apply Hsub3 in Hin. set_solver. }
  split; congruence.
Qed.

(** Planning writes nothing but the StatInfo and the paths of the
    inodes it was given: the device, the cap, the buckets, the linked
    adjacency and the digest index are as before, and so is every other
    inode's StatInfo and path table. *)
Theorem planner_touches_only_its_inodes E sameName f r sortedInos f' r' out :
  Hardlinkable.sendLinkedPairs E sameName f r sortedInos = Done (f', r', out) →
  Dev f' = Dev f ∧ MaxNLinks f' = MaxNLinks f ∧ InoHashes f' = InoHashes f ∧
  LinkedInos f' = LinkedInos f ∧ DigestIno f' = DigestIno f ∧
  InosWithDigest f' = InosWithDigest f ∧
  ∀ x, x ∉ sortedInos →
    InoStatInfo f' !! x = InoStatInfo f !! x ∧ InoPaths f' !! x = InoPaths f !! x.
Proof.
  intros Hrun. unfold Hardlinkable.sendLinkedPairs in Hrun.
  apply sendLoop_frame in Hrun as [(?&?&?&?&?&?) Hino].
  split_and!; [done..|]. intros x Hx. apply Hino. by rewrite app_nil_r.
Qed.

(** ** The paths the planner pairs *)

Lemma ArbitraryFilenamePath_elem f ino fn p :
  ArbitraryFilenamePath f ino fn = Done p → p ∈ allPaths f ino.
Proof.
  unfold ArbitraryFilenamePath.
  destruct (pathsAt f ino !! fn) as [l|] eqn:Hl; cbn; [|done].
  destruct l as [|q l]; [done|]. intros [= ->].
  apply elem_of_allPaths. exists fn, (p :: l). split; [done|by left].
Qed.

(** Moving a path gives no inode a path it did not have, but [p] to
    [src]. *)
Lemma moveLinkedPath_elem f p src dst x q :
  q ∈ allPaths (Hardlinkable.moveLinkedPath f p src dst) x →
  q ∈ allPaths f x ∨ (x = src ∧ q = p).
Proof.
  unfold Hardlinkable.moveLinkedPath.
  set (l0 := Hardlinkable.removeFirst p (default [] (pathsAt f dst !! Filename p))).
  set (g := if (length l0 =? 0)%nat
            then delete (Filename p) else <[Filename p := l0]>
         : gmap string (list Pathsplit) → gmap string (list Pathsplit)).
  set (f1 := if (length l0 =? 0)%nat
             then set_InoPaths (alter (delete (Filename p)) dst (InoPaths f)) f
             else set_InoPaths (alter (<[Filename p := l0]>) dst (InoPaths f)) f).
  assert (Hf1 : ∀ y, pathsAt f1 y = if decide (y = dst)
                                    then default ∅ (g <$> InoPaths f !! dst)
                                    else pathsAt f y).
  { intros y. subst f1 g. destruct (length l0 =? 0)%nat;
      rewrite pathsAt_set_InoPaths; case_decide as Hy; subst;
      by rewrite ?lookup_alter_eq, ?lookup_alter_ne. }
  assert (Hsub : ∀ y r, r ∈ allPaths f1 y → r ∈ allPaths f y).
  { intros y r. rewrite !elem_of_allPaths. intros (fn & l & Hl & Hr).
    rewrite Hf1 in Hl. case_decide as Hy; [subst y|by eauto].
    unfold pathsAt in *.
    destruct (InoPaths f !! dst) as [fp|] eqn:Hfp; cbn in *;
      [|by rewrite lookup_empty in Hl].
    subst g. destruct (length l0 =? 0)%nat.
    - apply lookup_delete_Some in Hl as [_ Hl]. eauto.
    - apply lookup_insert_Some in Hl as [[<- <-]|[_ Hl]]; [|by eauto].
      subst l0. apply removeFirst_subseteq in Hr.
      destruct (fp !! Filename p) as [l1|] eqn:Hl1; cbn in Hr; [by eauto|].
      by apply elem_of_nil in Hr. }
  rewrite elem_of_allPaths. intros (fn & l & Hl & Hq).
  rewrite InoAppendPathname_pathsAt in Hl. case_decide as Hx.
  - subst x. apply lookup_insert_Some in Hl as [[<- <-]|[_ Hl]].
    + apply elem_of_app in Hq as [Hq|Hq%list_elem_of_singleton]; [|by right].
      left. apply Hsub. apply elem_of_allPaths.
      destruct (pathsAt f1 src !! Filename p) as [l1|] eqn:Hl1; cbn in Hq; [by eauto|].
      by apply elem_of_nil in Hq.
    + left. apply Hsub. apply elem_of_allPaths. eauto.
  - left. apply Hsub. apply elem_of_allPaths. eauto.
Qed.

(** Both paths of the pair satisfy [P]. *)
Definition pairOf (P : Pathsplit → Prop) (pr : Hardlinkable.PathInfoPair) : Prop :=
  P (psPath (Hardlinkable.Src pr)) ∧ P (psPath (Hardlinkable.Dst pr)).

(** Every path recorded for an inode of [inos] satisfies [P]. *)
Definition pathsOf (P : Pathsplit → Prop) (inos : list Z) (f : FSDev) : Prop :=
  ∀ x q, x ∈ inos → q ∈ allPaths f x → P q.

Lemma linkDstPaths_within (P : Pathsplit → Prop) inos E sn src dst todo :
  src ∈ inos →
  ∀ srcSI dstSI f r out f' r' out',
  Hardlinkable.linkDstPaths E sn src dst todo srcSI dstSI f r out = Done (f', r', out') →
  Forall P todo → pathsOf P inos f → Forall (pairOf P) out →
  pathsOf P inos f' ∧ Forall (pairOf P) out'.
Proof.
  intros Hsrc.
  induction todo as [|dstPath rest IH];
    intros srcSI dstSI f r out f' r' out' Hrun Htodo Hin Hout.
  - cbn in Hrun. by injection Hrun as <- _ <-.
  - cbn [Hardlinkable.linkDstPaths] in Hrun. bind_inv Hrun as choice Hchoice.
    apply Forall_cons in Htodo as [Hdst Hrest].
    destruct choice as [srcPath|]; [|by eapply IH].
    assert (Hsp : srcPath ∈ allPaths f src).
    { destruct sn.
      - destruct (pathsAt f src !! Filename dstPath) as [l|]; [|done].
        bind_inv Hchoice as sp Hsp. injection Hchoice as ->.
        by eapply ArbitraryFilenamePath_elem.
      - bind_inv Hchoice as sp Hsp. injection Hchoice as ->.
        by eapply ArbitraryPath_elem. }
    bind_inv Hrun as r1 Hr1.
    destruct (if _ =? 0 then _ else _) as [f2 r2] eqn:Hf2.
    assert (Hp : ∀ x, allPaths f2 x = allPaths f x).
    { intros x. unfold allPaths, pathsAt. destruct (_ =? 0); by injection Hf2 as <- _. }
    eapply IH; [exact Hrun|done| |].
    + intros x q Hx [Hq|[-> ->]]%moveLinkedPath_elem; [|done].
      rewrite Hp in Hq. by eapply Hin.
    + apply Forall_app. split; [done|]. apply Forall_singleton.
      split; cbn; [by eapply Hin|done].
Qed.

Lemma dstLoop_within (P : Pathsplit → Prop) inos E sn fuel src :
  src ∈ inos →
  ∀ sorted remaining f r out sorted' remaining' f' r' out',
  Hardlinkable.dstLoop E sn fuel src sorted remaining f r out
    = Done (sorted', remaining', f', r', out') →
  sorted ⊆ inos → pathsOf P inos f → Forall (pairOf P) out →
  pathsOf P inos f' ∧ Forall (pairOf P) out'.
Proof.
  intros Hsrc.
  induction fuel as [|fuel IH];
    intros sorted remaining f r out sorted' remaining' f' r' out' Hrun Hsub Hin Hout;
    cbn [Hardlinkable.dstLoop] in Hrun;
    destruct (popLast sorted) as [[sorted0 dst]|] eqn:Hpop;
    try discriminate Hrun;
    try (by injection Hrun as _ _ <- _ <-).
  apply popLast_Some in Hpop. subst sorted.
  destruct (MaxNLinks f <? _); [by injection Hrun as _ _ <- _ <-|].
  bind_inv Hrun as [[f1 r1] out1] Hlink.
  eapply (linkDstPaths_within P inos) in Hlink as [Hin1 Hout1]; [|done| |done|done].
  - eapply IH; [exact Hrun|set_solver|done|done].
  - apply Forall_forall. intros q Hq.
    rewrite (allInoPaths_perm E f dst) in Hq. eapply Hin; [|exact Hq]. set_solver.
Qed.

Lemma sendLoop_within (P : Pathsplit → Prop) inos E sn fuel :
  ∀ sorted remaining f r out f' r' out',
  Hardlinkable.sendLoop E sn fuel sorted remaining f r out = Done (f', r', out') →
  sorted ++ remaining ⊆ inos → pathsOf P inos f → Forall (pairOf P) out →
  pathsOf P inos f' ∧ Forall (pairOf P) out'.
Proof.
  induction fuel as [|fuel IH]; intros sorted remaining f r out f' r' out' Hrun Hsub Hin Hout;
    cbn [Hardlinkable.sendLoop] in Hrun;
    destruct ((length sorted =? 0)%nat && (length remaining =? 0)%nat);
    try discriminate Hrun;
    try (by injection Hrun as <- _ <-).
  destruct (if (0 <? length remaining)%nat
            then (Hardlinkable.appendReversedInos sorted remaining, [])
            else (sorted, remaining)) as [sorted1 remaining1] eqn:Hpair.
  assert (Hsub1 : sorted1 ++ remaining1 ⊆ inos).
  { intros x Hx. apply Hsub.
    destruct (0 <? length remaining)%nat; injection Hpair as <- <-; [|done].
    unfold Hardlinkable.appendReversedInos in Hx.
    rewrite app_nil_r, <- Permutation_rev in Hx. done. }
  destruct sorted1 as [|src sorted2]; [done|].
  bind_inv Hrun as [[[[sorted3 remaining3] f3] r3] out3] Hdst.
  pose proof (dstLoop_frame _ _ _ _ _ _ _ _ _ _ _ _ _ _ Hdst) as (_ & _ & Hsub3).
  eapply (dstLoop_within P inos) in Hdst as [Hin3 Hout3];
    [|set_solver|set_solver|done|done].
  eapply IH; [exact Hrun| |done|done].
  intros x Hx. apply Hsub3 in Hx. set_solver.
Qed.

(** The planner pairs only paths that were recorded for inodes of the
    list it was given, and leaves those inodes with no other paths. *)
Theorem planner_pairs_recorded_paths E sameName f r sortedInos f' r' out :
  Hardlinkable.sendLinkedPairs E sameName f r sortedInos = Done (f', r', out) →
  let recorded q := ∃ a, a ∈ sortedInos ∧ q ∈ allPaths f a in
  (∀ pr, pr ∈ out →
     recorded (psPath (Hardlinkable.Src pr)) ∧ recorded (psPath (Hardlinkable.Dst pr))) ∧
  (∀ x q, x ∈ sortedInos → q ∈ allPaths f' x → recorded q).
Proof.
  intros Hrun recorded. unfold Hardlinkable.sendLinkedPairs in Hrun.
  destruct (sendLoop_within recorded sortedInos _ _ _ _ _ _ _ _ _ _ _ Hrun) as [Hin Hout].
  - by rewrite app_nil_r.
  - intros x q Hx Hq. by exists x.
  - apply Forall_nil_2.
  - split; [|exact Hin]. intros pr Hpr.
    by apply (proj1 (Forall_forall _ _) Hout).
Qed.

(** * The components of the linked graph: linkedInoSets *)

(** The worklist loop of [linkedInoSets] (lines 230-249).  It is the
    loop of [linkedInoSet], run on a [remainingInos] that the start
    inodes share: what remains is returned with the result set. *)
Fixpoint componentLoop (o : SliceOrder) (fuel : nat) (remainingInos : gmap Z (gset Z))
    (pending : list Z) (resultSet : gset Z) : Outcome (gmap Z (gset Z) * gset Z) :=
  match popLast pending with
  | None => Done (remainingInos, resultSet)
  | Some (pending, ino) =>
    match fuel with
    | O => OutOfFuel
    | S fuel =>
      let resultSet := resultSet ∪ {[ino]} in
      match remainingInos !! ino with
      | Some linkedInos =>
        componentLoop o fuel (delete ino remainingInos) (pending ++ o linkedInos) resultSet
      | None => componentLoop o fuel remainingInos pending resultSet
      end
    end
  end.

(** Lines 224-251: the loop over the start inodes. *)
Fixpoint startsLoop (o : SliceOrder) (starts : list Z) (remainingInos : gmap Z (gset Z))
  : Outcome (list (gset Z)) :=
  match starts with
  | [] => Done []
  | startIno :: starts =>
    match remainingInos !! startIno with
    | None => startsLoop o starts remainingInos
    | Some _ =>
      '(remainingInos, resultSet) ←
        componentLoop o (S (linkWork remainingInos)) remainingInos [startIno] ∅;
      sets ← startsLoop o starts remainingInos;
      Done (resultSet :: sets)
    end
  end.

(** [linkedInoSets]; the sets sent on the channel are returned in
    order.  [for startIno := range f.LinkedInos] enumerates the keys. *)
Definition linkedInoSets (E : Env) (f : FSDev) : Outcome (list (gset Z)) :=
  startsLoop (order E) (order E (dom (LinkedInos f))) (LinkedInos f).

Lemma componentLoop_spec (m0 : gmap Z (gset Z)) (R : Z → Prop) o fuel :
  (∀ x y, R x → linkedEdge m0 x y → R y) →
  ∀ rem pending res,
  (linkWork rem + length pending ≤ fuel)%nat →
  (∀ x, x ∉ res → rem !! x = m0 !! x) →
  (∀ x, x ∈ res → rem !! x = None) →
  (∀ x y, x ∈ res → linkedEdge m0 x y → y ∈ res ∨ y ∈ pending) →
  (∀ x, x ∈ res → R x) → (∀ x, x ∈ pending → R x) →
  returnsWith (componentLoop o fuel rem pending res)
    (λ '(rem', r),
       res ⊆ r ∧ (∀ x, x ∈ pending → x ∈ r) ∧
       (∀ x, x ∈ r → R x) ∧
       (∀ x y, x ∈ r → linkedEdge m0 x y → y ∈ r) ∧
       (∀ x, rem' !! x = if decide (x ∈ r) then None else m0 !! x)).
Proof.
  intros Hstep. induction fuel as [|fuel IH];
    intros rem pending res Hfuel HK HD HJ Hres Hpend;
    cbn [componentLoop];
    (destruct (popLast pending) as [[pending' ino]|] eqn:Hpop;
     [ apply popLast_Some in Hpop; subst pending
     | apply popLast_None in Hpop; subst pending; cbn;
       split_and!; [done|by intros x ?%elem_of_nil|done| |];
       [ intros x y Hx Hxy; destruct (HJ x y Hx Hxy) as [?|Hy]; [done|];
         by apply elem_of_nil in Hy
       | intros x; case_decide; [by apply HD|by apply HK] ] ]).
  { rewrite length_app in Hfuel. cbn in Hfuel. lia. }
  rewrite length_app in Hfuel. cbn [length] in Hfuel.
  assert (Hino : R ino) by (apply Hpend; set_solver).
  destruct (rem !! ino) as [s|] eqn:Hs.
  - assert (Hnew : ino ∉ res) by (intros Hin; apply HD in Hin; congruence).
    assert (Hm0 : m0 !! ino = Some s) by (by rewrite <- HK).
    eapply returnsWith_mono.
    { apply (IH (delete ino rem) (pending' ++ asSlice o s) (res ∪ {[ino]})).
      - rewrite length_app, asSlice_length.
        rewrite (linkWork_delete rem ino s Hs) in Hfuel. lia.
      - intros x Hx. rewrite lookup_delete_ne by set_solver. apply HK. set_solver.
      - intros x [Hx| ->%elem_of_singleton]%elem_of_union.
        + rewrite lookup_delete_ne by set_solver. by apply HD.
        + apply lookup_delete_eq.
      - intros x y [Hx| ->%elem_of_singleton]%elem_of_union Hxy.
        + destruct (HJ x y Hx Hxy) as [Hy|[Hy| ->%list_elem_of_singleton]%elem_of_app].
          * left; set_solver.
          * right. apply elem_of_app. by left.
          * left; set_solver.
        + right. apply elem_of_app. right. apply asSlice_elem_of.
          unfold linkedEdge, setAt in Hxy. by rewrite Hm0 in Hxy.
      - intros x [Hx| ->%elem_of_singleton]%elem_of_union; auto.
      - intros x [Hx|Hx]%elem_of_app; [apply Hpend; set_solver|].
        apply asSlice_elem_of in Hx. apply (Hstep ino); [done|].
        unfold linkedEdge, setAt. by rewrite Hm0. }
    intros [rem' r] (Hsub & Hp & HR & Hclosed & Hrem).
    split_and!; [set_solver| |done|done|done].
    intros x [Hx| ->%list_elem_of_singleton]%elem_of_app; [|set_solver].
    apply Hp. apply elem_of_app. by left.
  - eapply returnsWith_mono.
    { apply (IH rem pending' (res ∪ {[ino]})).
      - lia.
      - intros x Hx. apply HK. set_solver.
      - intros x [Hx| ->%elem_of_singleton]%elem_of_union; [by apply HD|done].
      - intros x y [Hx| ->%elem_of_singleton]%elem_of_union Hxy.
        + destruct (HJ x y Hx Hxy) as [Hy|[Hy| ->%list_elem_of_singleton]%elem_of_app].
          * left; set_solver.
          * by right.
          * left; set_solver.
        + destruct (decide (ino ∈ res)) as [Hin|Hnin].
          * destruct (HJ ino y Hin Hxy)
              as [Hy|[Hy| ->%list_elem_of_singleton]%elem_of_app].
            -- left; set_solver.
            -- by right.
            -- left; set_solver.
          * unfold linkedEdge, setAt in Hxy. rewrite <- (HK ino Hnin), Hs in Hxy.
            cbn in Hxy. set_solver.
      - intros x [Hx| ->%elem_of_singleton]%elem_of_union; auto.
      - intros x Hx. apply Hpend. set_solver. }
    intros [rem' r] (Hsub & Hp & HR & Hclosed & Hrem).
    split_and!; [set_solver| |done|done|done].
    intros x [Hx| ->%list_elem_of_singleton]%elem_of_app; [by apply Hp|set_solver].
Qed.

(** Each set is disjoint from every later one. *)
Fixpoint pairwiseDisjoint (sets : list (gset Z)) : Prop :=
  match sets with
  | [] => True
  | s :: rest => Forall (λ t, s ## t) rest ∧ pairwiseDisjoint rest
  end.

(** [s] is the set of the inodes connected to [start]. *)
Definition componentOf (m : gmap Z (gset Z)) (start : Z) (s : gset Z) : Prop :=
  ∀ x, x ∈ s ↔ rtc (linkedEdge m) start x.

Lemma startsLoop_spec o m :
  (∀ a b, linkedEdge m a b → linkedEdge m b a) →
  ∀ starts rem (U : gset Z),
  (∀ x, rem !! x = if decide (x ∈ U) then None else m !! x) →
  (∀ x y, x ∈ U → linkedEdge m x y → y ∈ U) →
  returnsWith (startsLoop o starts rem)
    (λ sets,
       Forall (λ s, s ## U ∧ ∃ start, is_Some (m !! start) ∧ componentOf m start s) sets ∧
       pairwiseDisjoint sets ∧
       ∀ x, x ∈ starts → is_Some (m !! x) → x ∈ U ∨ ∃ s, s ∈ sets ∧ x ∈ s).
Proof.
  intros Hsym. induction starts as [|start starts IH]; intros rem U Hrem Hclosed.
  - cbn. split_and!; [done|done|]. by intros x ?%elem_of_nil.
  - cbn [startsLoop]. destruct (rem !! start) as [s0|] eqn:Hstart.
    2: { eapply returnsWith_mono; [by apply IH|].
         intros sets (Hcomp & Hdisj & Hcover). split_and!; [done|done|].
         intros x [->|Hx]%elem_of_cons Hkey; [|by apply Hcover].
         left. rewrite Hrem in Hstart. case_decide; [done|].
         destruct Hkey as [? Hkey]. congruence. }
    assert (HstartU : start ∉ U).
    { intros Hin. rewrite Hrem, decide_True in Hstart by done. done. }
    assert (Hkey : is_Some (m !! start)).
    { rewrite Hrem, decide_False in Hstart by done. eauto. }
    assert (Hedge : ∀ x y, x ∉ U → linkedEdge rem x y ↔ linkedEdge m x y).
    { intros x y Hx. unfold linkedEdge, setAt. by rewrite Hrem, decide_False. }
    assert (Hout : ∀ x y, x ∉ U → linkedEdge m x y → y ∉ U).
    { intros x y Hx Hxy Hy. apply Hx. apply (Hclosed y x Hy). by apply Hsym. }
    apply returnsWith_bind. eapply returnsWith_mono.
    { apply (componentLoop_spec rem (λ x, (x ∉ U) ∧ rtc (linkedEdge m) start x) o).
      - intros x y [Hx Hreach] Hxy. apply Hedge in Hxy; [|done]. split.
        + by eapply Hout.
        + by eapply rtc_r.
      - cbn. lia.
      - done.
      - set_solver.
      - set_solver.
      - set_solver.
      - intros x ->%list_elem_of_singleton. done. }
    intros [rem' r] (_ & Hpend & HR & Hrclosed & Hrem').
    assert (Hcomp : componentOf m start r).
    { intros x. split; [by intros [_ ?]%HR|].
      intros [n Hreach]%rtc_nsteps. revert x Hreach.
      induction n as [|n IHn]; intros x Hreach.
      - inversion Hreach; subst. apply Hpend. by left.
      - apply nsteps_inv_r in Hreach as (y & Hy & Hyx).
        specialize (IHn y Hy). apply (Hrclosed y x IHn).
        apply Hedge; [|done]. by apply HR. }
    assert (HrU : r ## U) by (intros x Hx HxU; by apply HR in Hx as [? _]).
    apply returnsWith_bind. eapply returnsWith_mono.
    { apply (IH rem' (U ∪ r)).
      - intros x. rewrite Hrem', Hrem. repeat case_decide; set_solver.
      - intros x y [Hx|Hx]%elem_of_union Hxy.
        + apply elem_of_union. left. by eapply Hclosed.
        + apply elem_of_union. right. apply (Hrclosed x y Hx).
          apply Hedge; [|done]. by apply HR. }
    intros sets (Hcomps & Hdisj & Hcover). cbn. split_and!.
    + apply Forall_cons. split; [eauto|].
      eapply Forall_impl; [exact Hcomps|]. intros t [Ht Hstart']. split; [set_solver|done].
    + eapply Forall_impl; [exact Hcomps|]. intros t [Ht _]. set_solver.
    + done.
    + intros x [->|Hx]%elem_of_cons Hx'.
      * right. exists r. split; [by left|]. apply Hpend. by left.
      * destruct (Hcover x Hx Hx') as [[HxU|Hxr]%elem_of_union|(t & Ht & Hxt)].
        -- by left.
        -- right. exists r. split; [by left|done].
        -- right. exists t. split; [by right|done].
Qed.

(** When the linked adjacency is symmetric, [linkedInoSets] returns,
    and the sets it sends are the connected components of the linked
    inodes: each is the set of the inodes connected to one that has an
    entry, no two of them meet, and every inode with an entry is in
    one. *)
Theorem linkedInoSets_are_the_components E f :
  (∀ a b, b ∈ setAt (LinkedInos f) a → a ∈ setAt (LinkedInos f) b) →
  ∃ sets,
    linkedInoSets E f = Done sets ∧
    Forall (λ s, ∃ start, is_Some (LinkedInos f !! start) ∧
                          componentOf (LinkedInos f) start s) sets ∧
    pairwiseDisjoint sets ∧
    ∀ x, is_Some (LinkedInos f !! x) → ∃ s, s ∈ sets ∧ x ∈ s.
Proof.
  intros Hsym.
  pose proof (startsLoop_spec (order E) (LinkedInos f) Hsym
                (order E (dom (LinkedInos f))) (LinkedInos f) ∅) as Hspec.
  apply returnsWith_Done in Hspec as (sets & Hrun & Hcomp & Hdisj & Hcover);
    [|by intros x; rewrite decide_False by set_solver|set_solver].
  exists sets. split_and!; [done| |done|].
  - eapply Forall_impl; [exact Hcomp|]. by intros s [_ ?].
  - intros x Hx. destruct (Hcover x) as [?|?]; [|done|set_solver|done].
    apply asSlice_elem_of. by apply elem_of_dom.
Qed.

(** * Planning every component: SortedLinks *)

(** Lines 74-78 of [SortedLinks]: each set received is sorted and
    planned in turn, on the state the sets before it left. *)
Fixpoint planSets (E : Env) (sameName : bool) (sets : list (gset Z))
    (f : FSDev) (r : Hardlinkable.Results) (out : list Hardlinkable.PathInfoPair)
  : Outcome (FSDev * Hardlinkable.Results * list Hardlinkable.PathInfoPair) :=
  match sets with
  | [] => Done (f, r, out)
  | linkableSet :: sets =>
    let sortedInos := Hardlinkable.sortSetByNlink (order E) f linkableSet in
    '(f, r, sent) ← Hardlinkable.sendLinkedPairs E sameName f r sortedInos;
    planSets E sameName sets f r (out ++ sent)
  end.

(** [SortedLinks]; the pairs sent on [out] are returned in order.  The
    goroutine of [linkedInoSets] works on its own copy of [LinkedInos],
    which planning does not write, so the sets are those of the state at
    the call. *)
Definition SortedLinks (E : Env) (sameName : bool) (f : FSDev) (r : Hardlinkable.Results)
  : Outcome (FSDev * Hardlinkable.Results * list Hardlinkable.PathInfoPair) :=
  sets ← linkedInoSets E f; planSets E sameName sets f r [].

Lemma sortSetByNlink_perm o f inoSet :
  Hardlinkable.sortSetByNlink o f inoSet ≡ₚ elements inoSet.
Proof.
  unfold Hardlinkable.sortSetByNlink, Hardlinkable.sort_Sort.
  rewrite merge_sort_Permutation, <- list_fmap_compose.
  rewrite (asSlice_perm o). by rewrite list_fmap_id.
Qed.

Lemma conserved_weaken inos all f f' :
  NoDup inos → NoDup all → (∀ x, x ∈ inos → x ∈ all) →
  conserved inos f f' → conserved all f f'.
Proof.
  intros Hnd Hall Hsub [Hperm Hother].
  apply NoDup_submseteq in Hsub; [|done].
  apply submseteq_Permutation in Hsub as [rest Hrest].
  split; [|intros x Hx; apply Hother; intros Hin; apply Hx; rewrite Hrest; set_solver].
  rewrite Hrest in Hall |- *. rewrite !fmap_app, !join_app, Hperm.
  apply NoDup_app in Hall as (_ & Hdisj & _).
  assert (Heq : allPaths f' <$> rest = allPaths f <$> rest).
  { apply list_fmap_ext. intros i x Hx. apply list_elem_of_lookup_2 in Hx.
    unfold allPaths. rewrite Hother; [done|]. intros Hin. by apply (Hdisj x). }
  by rewrite Heq.
Qed.

Lemma planSets_returns E sameName storeNew all sets :
  ∀ f r out,
  pairwiseDisjoint sets →
  Forall (λ s : gset Z, ∀ x, x ∈ s → x ∈ all ∧ hasPaths f x) sets →
  NoDup all → keyedAll f → listsNonempty f → planResults E storeNew r out →
  returnsWith (planSets E sameName sets f r out)
    (λ '(f', r', out'),
       keyedAll f' ∧ listsNonempty f' ∧ planResults E storeNew r' out' ∧
       conserved all f f').
Proof.
  induction sets as [|s sets IH]; intros f r out Hdisj Hsets Hall Hk Hlists Hres.
  - cbn. split_and!; [done..|apply conserved_refl].
  - cbn [planSets]. destruct Hdisj as [Hs Hdisj].
    apply Forall_cons in Hsets as [Hmem Hsets].
    pose proof (sortSetByNlink_perm (order E) f s) as Hperm.
    set (sortedInos := Hardlinkable.sortSetByNlink (order E) f s) in *.
    assert (Hin : ∀ x, x ∈ sortedInos ↔ x ∈ s).
    { intros x. by rewrite Hperm, elem_of_elements. }
    assert (Hnd : NoDup sortedInos) by (rewrite Hperm; apply NoDup_elements).
    apply returnsWith_bind. eapply returnsWith_mono.
    { apply (sendLinkedPairs_plans E sameName storeNew f r out sortedInos); [|done].
      split_and!; [done|done|done|]. intros x Hx. by apply Hmem, Hin. }
    intros [[f1 r1] sent] (Hk1 & Hlists1 & Hres1 & Hcons1).
    eapply returnsWith_mono.
    { apply (IH f1 r1 (out ++ sent)); [done| |done|done|done|done].
      apply Forall_forall. intros t Ht x Hx.
      rewrite Forall_forall in Hsets, Hs.
      destruct (Hsets t Ht x Hx) as [Hxall Hxpaths]. split; [done|].
      unfold hasPaths. rewrite (proj2 Hcons1); [done|].
      rewrite Hin. intros Hxs. by apply (Hs t Ht x). }
    intros [[f' r'] out'] (Hk' & Hlists' & Hres' & Hcons').
    split_and!; [done..|]. eapply conserved_trans; [|exact Hcons'].
    apply (conserved_weaken sortedInos); [done|done| |done].
    intros x Hx. by apply Hmem, Hin.
Qed.

Lemma ingested_keyedAll E f st : ingested E f st → keyedAll f.
Proof.
  induction 1 as [dev maxNLinks|f st d p f' st' Hing IH Hrun].
  - intros x fn l q Hl. unfold pathsAt in Hl. cbn in Hl.
    rewrite lookup_empty in Hl. cbn in Hl. by rewrite lookup_empty in Hl.
  - apply findIdenticalFiles_effect in Hrun as (_ & _ & _ & _ & HP & _).
    intros x. unfold pathsAt. rewrite HP. unfold appendedPaths.
    destruct (decide (Ino (dsStat d) = x)) as [->|Hne].
    + rewrite lookup_insert_eq. cbn. apply appended_keyed, IH.
    + rewrite lookup_insert_ne by done. apply IH.
Qed.

Lemma tablesOK_paths f :
  tablesOK f →
  listsNonempty f ∧ ∀ x, is_Some (InoStatInfo f !! x) → hasPaths f x.
Proof.
  intros Hok. split.
  - intros x fn l Hl. unfold pathsAt in Hl.
    destruct (InoPaths f !! x) as [fp|] eqn:Hfp; cbn in Hl; [|by rewrite lookup_empty in Hl].
    by eapply (proj2 (ok_nonempty f Hok x fp Hfp)).
  - intros x [fp Hfp]%(ok_paths f Hok). unfold hasPaths, pathsAt. rewrite Hfp. cbn.
    by apply (ok_nonempty f Hok x fp Hfp).
Qed.

(** After any number of ingestions, planning every component returns:
    no panic, and every loop ends within its bound.  The results count
    the pairs sent, the paths recorded for the linked inodes are, taken
    together, the same as before, and the paths of the inodes that are
    not linked are untouched. *)
Theorem SortedLinks_returns_after_ingestion E sameName storeNew f st :
  ingested E f st →
  ∃ f' r' out,
    SortedLinks E sameName f (Hardlinkable.newResults storeNew) = Done (f', r', out) ∧
    Hardlinkable.NewLinkCount r' = toInt64 (Z.of_nat (length out)) ∧
    mjoin (allPaths f' <$> elements (dom (LinkedInos f)))
      ≡ₚ mjoin (allPaths f <$> elements (dom (LinkedInos f))) ∧
    ∀ x, LinkedInos f !! x = None → pathsAt f' x = pathsAt f x.
Proof.
  intros Hing.
  pose proof (ingested_linkGraphOK E f st Hing) as Hgraph.
  pose proof (ingested_tablesOK E f st Hing) as Hok.
  destruct (tablesOK_paths f Hok) as [Hlists Hhas].
  pose proof (startsLoop_spec (order E) (LinkedInos f)) as Hsets.
  specialize (Hsets ltac:(intros a b Hab; by destruct (Hgraph a b Hab) as [? _])
                (order E (dom (LinkedInos f))) (LinkedInos f) ∅).
  apply returnsWith_Done in Hsets as (sets & Hsets & Hcomp & Hdisj & _);
    [|by intros x; rewrite decide_False by set_solver|set_solver].
  unfold SortedLinks, linkedInoSets. rewrite Hsets. cbn [mbind Outcome_bind].
  pose proof (planSets_returns E sameName storeNew (elements (dom (LinkedInos f))) sets
                f (Hardlinkable.newResults storeNew) [] Hdisj) as Hplan.
  apply returnsWith_Done in Hplan
    as ([[f' r'] out] & Hrun & _ & _ & (_ & Hcount & _) & Hperm & Hother).
  - exists f', r', out. split_and!; [done|done|done|].
    intros x Hx. apply Hother. rewrite elem_of_elements. by apply not_elem_of_dom.
  - apply Forall_forall. intros s Hs x Hx.
    rewrite Forall_forall in Hcomp.
    destruct (Hcomp s Hs) as (_ & start & Hstart & Hcomponent).
    apply Hcomponent in Hx.
    assert (Hkey : is_Some (LinkedInos f !! x)).
    { apply rtc_inv_r in Hx as [->|(y & _ & Hyx)]; [done|].
      destruct (Hgraph y x Hyx) as (Hxy & _ & _).
      unfold linkedEdge, setAt in Hxy.
      destruct (LinkedInos f !! x); [eauto|set_solver]. }
    split; [by apply elem_of_elements, elem_of_dom|].
    by eapply Hhas, ingested_linked_known.
  - apply NoDup_elements.
  - by eapply ingested_keyedAll.
  - done.
  - apply newResults_planResults.
Qed.

(** * Results.foundExistingLink (results.go) *)

(** The fields of [Results] that [foundExistingLink] reads and writes,
    with the option ([Opts.existingLinkStatsEnabled]) that gates the
    storing of existing links. *)
Record ExistingLinkResults := mkExisting {
  existingLinkStatsEnabled : bool;
  ExistingLinks : gmap string (list string);
  ExistingLinkSizes : gmap string Z;
  PrevLinkCount : Z;
  PrevLinkedByteAmount : Z
}.

Definition newExistingLinkResults (existingLinkStats : bool) : ExistingLinkResults :=
  mkExisting existingLinkStats ∅ ∅ 0 0.

(** [panicIf(cond, msg)] is not among the sources; as its name and its
    use say, it panics with the message when [cond] holds. *)
Definition panicIf (cond : bool) (msg : string) : Outcome unit :=
  if cond then Panic msg else Done tt.

Definition foundExistingLink (join : Pathsplit → string) (r : ExistingLinkResults)
    (srcP dstP : Pathsplit) (size : Z) : Outcome ExistingLinkResults :=
  let count := inc64 (PrevLinkCount r) in
  let amount := wrap 64 (PrevLinkedByteAmount r + size) in
  if negb (existingLinkStatsEnabled r)
  then Done (mkExisting (existingLinkStatsEnabled r) (ExistingLinks r)
                        (ExistingLinkSizes r) count amount)
  else
    let src := join srcP in
    let dst := join dstP in
    let '(dests, sizes) :=
      match ExistingLinks r !! src with
      | None => ([dst], <[src := size]> (ExistingLinkSizes r))
      | Some dests => (dests ++ [dst], ExistingLinkSizes r)
      end in
    let links := <[src := dests]> (ExistingLinks r) in
    _ ← panicIf (negb (size =? default 0 (sizes !! src))) "Existing link size mismatch";
    Done (mkExisting (existingLinkStatsEnabled r) links sizes count amount).

(** A call of [foundExistingLink]: source, destination, size. *)
Definition ExistingCall : Type := Pathsplit * Pathsplit * Z.

(** Any sequence of [foundExistingLink] calls, in order. *)
Fixpoint recordExisting (join : Pathsplit → string) (r : ExistingLinkResults)
    (calls : list ExistingCall) : Outcome ExistingLinkResults :=
  match calls with
  | [] => Done r
  | (srcP, dstP, size) :: rest =>
    r ← foundExistingLink join r srcP dstP size; recordExisting join r rest
  end.

(** The destinations reported for the source [src], in order. *)
Definition destsOf (join : Pathsplit → string) (calls : list ExistingCall) (src : string)
  : list string :=
  omap (λ c : ExistingCall, if decide (join c.1.1 = src) then Some (join c.1.2) else None)
       calls.

(** The size first reported for the source [src]. *)
Definition sizeOf (join : Pathsplit → string) (calls : list ExistingCall) (src : string)
  : option Z :=
  head (omap (λ c : ExistingCall, if decide (join c.1.1 = src) then Some c.2 else None)
             calls).

Definition nonemptyList {A} (l : list A) : option (list A) :=
  match l with
  | [] => None
  | _ => Some l
  end.

(** Every call gives its source the size first reported for it. *)
Definition sizesAgree (join : Pathsplit → string) (calls : list ExistingCall) : Prop :=
  ∀ c, c ∈ calls → sizeOf join calls (join c.1.1) = Some c.2.

Definition totalSize (calls : list ExistingCall) : Z :=
  foldr Z.add 0 ((λ c : ExistingCall, c.2) <$> calls).

(** [r] holds the results of the calls [calls]. *)
Definition existingResults (join : Pathsplit → string) (enabled : bool)
    (r : ExistingLinkResults) (calls : list ExistingCall) : Prop :=
  existingLinkStatsEnabled r = enabled ∧
  PrevLinkCount r = toInt64 (Z.of_nat (length calls)) ∧
  PrevLinkedByteAmount r = wrap 64 (totalSize calls) ∧
  if enabled
  then (∀ src, ExistingLinks r !! src = nonemptyList (destsOf join calls src)) ∧
       (∀ src, ExistingLinkSizes r !! src = sizeOf join calls src)
  else ExistingLinks r = ∅ ∧ ExistingLinkSizes r = ∅.

Lemma sizeOf_app join l1 l2 src :
  sizeOf join (l1 ++ l2) src =
    match sizeOf join l1 src with
    | Some z => Some z
    | None => sizeOf join l2 src
    end.
Proof.
  unfold sizeOf. rewrite omap_app.
  by destruct (omap _ l1).
Qed.

Lemma sizeOf_is_Some join calls c : c ∈ calls → is_Some (sizeOf join calls (join c.1.1)).
Proof.
  intros Hc. unfold sizeOf.
  assert (Hin : c.2 ∈ omap (λ c' : ExistingCall,
                              if decide (join c'.1.1 = join c.1.1) then Some c'.2 else None)
                           calls).
  { apply list_elem_of_omap. exists c. split; [done|]. by rewrite decide_True. }
  destruct (omap _ calls); [by apply elem_of_nil in Hin|]. cbn. eauto.
Qed.

Lemma sizeOf_destsOf join calls src :
  sizeOf join calls src = None ↔ destsOf join calls src = [].
Proof.
  unfold sizeOf, destsOf. induction calls as [|c calls IH]; [done|]. cbn.
  case_decide; cbn; [done|]. exact IH.
Qed.

Lemma totalSize_snoc calls c : totalSize (calls ++ [c]) = totalSize calls + c.2.
Proof.
  unfold totalSize. rewrite fmap_app, foldr_app. cbn.
  induction ((λ c0 : ExistingCall, c0.2) <$> calls) as [|x l IH]; cbn; lia.
Qed.

Lemma foundExistingLink_step join enabled r prior srcP dstP size :
  existingResults join enabled r prior →
  match foundExistingLink join r srcP dstP size with
  | Done r' =>
    existingResults join enabled r' (prior ++ [(srcP, dstP, size)]) ∧
    (enabled = true →
       sizeOf join prior (join srcP) = None ∨ sizeOf join prior (join srcP) = Some size)
  | Panic _ =>
    enabled = true ∧ ∃ z, sizeOf join prior (join srcP) = Some z ∧ z ≠ size
  | OutOfFuel => False
  end.
Proof.
  intros (Hen & Hcount & Hamount & Hmaps). unfold foundExistingLink. rewrite Hen.
  assert (Hcount' : inc64 (PrevLinkCount r)
                    = toInt64 (Z.of_nat (length (prior ++ [(srcP, dstP, size)])))).
  { rewrite Hcount, inc64_toInt64, length_app. f_equal. cbn. lia. }
  assert (Hamount' : wrap 64 (PrevLinkedByteAmount r + size)
                     = wrap 64 (totalSize (prior ++ [(srcP, dstP, size)]))).
  { rewrite Hamount, totalSize_snoc. unfold wrap. by rewrite Zplus_mod_idemp_l. }
  destruct enabled; cbn [negb].
  2: { cbn. split; [|done]. unfold existingResults. cbn.
       destruct Hmaps. by split_and!. }
  destruct Hmaps as [Hlinks Hsizes].
  assert (Hdests : ∀ src, destsOf join (prior ++ [(srcP, dstP, size)]) src =
                          destsOf join prior src ++
                            if decide (join srcP = src) then [join dstP] else []).
  { intros src. unfold destsOf. rewrite omap_app. f_equal. cbn. by case_decide. }
  assert (Hsizes' : ∀ src, sizeOf join (prior ++ [(srcP, dstP, size)]) src =
                           match sizeOf join prior src with
                           | Some z => Some z
                           | None => if decide (join srcP = src) then Some size else None
                           end).
  { intros src. rewrite sizeOf_app. destruct (sizeOf join prior src); [done|].
    unfold sizeOf. cbn. by case_decide. }
  pose proof (Hlinks (join srcP)) as Hl. pose proof (Hsizes (join srcP)) as Hs.
  pose proof (sizeOf_destsOf join prior (join srcP)) as Hnone.
  destruct (ExistingLinks r !! join srcP) as [dests|] eqn:Hd.
  - (* the source was reported before *)
    assert (Hdest : destsOf join prior (join srcP) = dests).
    { destruct (destsOf join prior (join srcP)); cbn in Hl; congruence. }
    destruct (sizeOf join prior (join srcP)) as [z|] eqn:Hz.
    2: { rewrite (proj1 Hnone eq_refl) in Hl. done. }
    rewrite Hs. cbn [default].
    destruct (size =? z) eqn:Heq; cbn; rewrite ?Heq; cbn.
    + apply Z.eqb_eq in Heq. subst z. split; [|auto].
      unfold existingResults; cbn; split_and!; [done|done|done| |].
      * intros src. rewrite Hdests. destruct (decide (join srcP = src)) as [<-|Hne].
        -- rewrite lookup_insert_eq, Hdest. by destruct dests.
        -- rewrite lookup_insert_ne, app_nil_r by done. apply Hlinks.
      * intros src. rewrite Hsizes', Hsizes.
        destruct (sizeOf join prior src) eqn:Hsrc; [done|].
        case_decide; [congruence|done].
    + apply Z.eqb_neq in Heq. split; [done|]. exists z. split; [done|congruence].
  - (* a new source *)
    assert (Hempty : destsOf join prior (join srcP) = []).
    { destruct (destsOf join prior (join srcP)); cbn in Hl; congruence. }
    apply Hnone in Hempty. rewrite lookup_insert_eq. cbn [default].
    rewrite Z.eqb_refl. cbn. split; [|auto].
    unfold existingResults; cbn; split_and!; [done|done|done| |].
    + intros src. rewrite Hdests. destruct (decide (join srcP = src)) as [<-|Hne].
      * rewrite lookup_insert_eq. apply sizeOf_destsOf in Hempty. by rewrite Hempty.
      * rewrite lookup_insert_ne, app_nil_r by done. apply Hlinks.
    + intros src. rewrite Hsizes'. destruct (decide (join srcP = src)) as [<-|Hne].
      * by rewrite lookup_insert_eq, Hempty.
      * rewrite lookup_insert_ne by done. rewrite Hsizes.
        by destruct (sizeOf join prior src).
Qed.

Lemma recordExisting_spec join enabled calls :
  ∀ r prior,
  existingResults join enabled r prior →
  (enabled = true → sizesAgree join prior) →
  match recordExisting join r calls with
  | Done r' =>
    existingResults join enabled r' (prior ++ calls) ∧
    (enabled = true → sizesAgree join (prior ++ calls))
  | Panic _ => enabled = true ∧ ¬ sizesAgree join (prior ++ calls)
  | OutOfFuel => False
  end.
Proof.
  induction calls as [|[[srcP dstP] size] rest IH]; intros r prior Hres Hagree.
  - cbn. rewrite app_nil_r. auto.
  - cbn [recordExisting].
    pose proof (foundExistingLink_step join enabled r prior srcP dstP size Hres) as Hstep.
    change (prior ++ (srcP, dstP, size) :: rest)
      with (prior ++ [(srcP, dstP, size)] ++ rest).
    rewrite !(app_assoc prior).
    destruct (foundExistingLink join r srcP dstP size) as [r1|msg|]; [|..|done].
    + cbn [mbind Outcome_bind]. destruct Hstep as [Hres1 Hsize].
      apply IH; [done|]. intros Hen.
      intros c [Hc| ->%list_elem_of_singleton]%elem_of_app; rewrite sizeOf_app.
      * by rewrite (Hagree Hen c Hc).
      * cbn. destruct (Hsize Hen) as [->| ->]; [|done].
        unfold sizeOf. cbn. by rewrite decide_True.
    + cbn [mbind Outcome_bind]. destruct Hstep as [Hen (z & Hz & Hne)].
      split; [done|]. intros Hall.
      specialize (Hall (srcP, dstP, size)). rewrite !sizeOf_app in Hall. cbn in Hall.
      rewrite Hz in Hall. injection Hall; [congruence|]. set_solver.
Qed.

(** Recording existing links, from empty results: the run panics
    exactly when storing is enabled and some source is reported with a
    size other than the one first reported for it.  Otherwise
    [PrevLinkCount] and [PrevLinkedByteAmount] count the calls and add up
    their sizes, and, when storing is enabled, [ExistingLinks] holds for
    each source its destinations in order and [ExistingLinkSizes] its
    size; when it is not, both stay empty. *)
Theorem foundExistingLink_panics_on_size_mismatch join enabled calls :
  match recordExisting join (newExistingLinkResults enabled) calls with
  | Done r =>
    (enabled = true → sizesAgree join calls) ∧
    PrevLinkCount r = toInt64 (Z.of_nat (length calls)) ∧
    PrevLinkedByteAmount r = wrap 64 (totalSize calls) ∧
    if enabled
    then (∀ src, ExistingLinks r !! src = nonemptyList (destsOf join calls src)) ∧
         (∀ src, ExistingLinkSizes r !! src = sizeOf join calls src)
    else ExistingLinks r = ∅ ∧ ExistingLinkSizes r = ∅
  | Panic _ => enabled = true ∧ ¬ sizesAgree join calls
  | OutOfFuel => False
  end.
Proof.
  pose proof (recordExisting_spec join enabled calls (newExistingLinkResults enabled) [])
    as Hspec.
  cbn [app] in Hspec.
  destruct (recordExisting join (newExistingLinkResults enabled) calls) as [r|msg|].
  - destruct Hspec as [(_ & Hc & Ha & Hm) Hagree].
    + unfold existingResults. cbn. split_and!; [done..|]. by destruct enabled.
    + by intros _ c ?%elem_of_nil.
    + by split_and!.
  - apply Hspec.
    + unfold existingResults. cbn. split_and!; [done..|]. by destruct enabled.
    + by intros _ c ?%elem_of_nil.
  - apply Hspec.
    + unfold existingResults. cbn. split_and!; [done..|]. by destruct enabled.
    + by intros _ c ?%elem_of_nil.
Qed.

(** * Setting up the options (options.go) *)

(** The setup functions of package hardlinkable.  Each writes its
    fields of the options it is applied to. *)
Module Setup.

Definition SameName (o : Hardlinkable.Options) : Hardlinkable.Options :=
  let 'Hardlinkable.mkOptions sn it ip io ix le mn mx dl un fi fe de se sl sx sr iw il cq th := o in
  Hardlinkable.mkOptions true it ip io ix le mn mx dl un fi fe de se sl sx sr iw il cq th.

Definition IgnoreTime (o : Hardlinkable.Options) : Hardlinkable.Options :=
  let 'Hardlinkable.mkOptions sn it ip io ix le mn mx dl un fi fe de se sl sx sr iw il cq th := o in
  Hardlinkable.mkOptions sn true ip io ix le mn mx dl un fi fe de se sl sx sr iw il cq th.

Definition IgnorePerm (o : Hardlinkable.Options) : Hardlinkable.Options :=
  let 'Hardlinkable.mkOptions sn it ip io ix le mn mx dl un fi fe de se sl sx sr iw il cq th := o in
  Hardlinkable.mkOptions sn it true io ix le mn mx dl un fi fe de se sl sx sr iw il cq th.

Definition IgnoreOwner (o : Hardlinkable.Options) : Hardlinkable.Options :=
  let 'Hardlinkable.mkOptions sn it ip io ix le mn mx dl un fi fe de se sl sx sr iw il cq th := o in
  Hardlinkable.mkOptions sn it ip true ix le mn mx dl un fi fe de se sl sx sr iw il cq th.

Definition IgnoreXAttr (o : Hardlinkable.Options) : Hardlinkable.Options :=
  let 'Hardlinkable.mkOptions sn it ip io ix le mn mx dl un fi fe de se sl sx sr iw il cq th := o in
  Hardlinkable.mkOptions sn it ip io true le mn mx dl un fi fe de se sl sx sr iw il cq th.

Definition ContentOnly (o : Hardlinkable.Options) : Hardlinkable.Options :=
  let 'Hardlinkable.mkOptions sn it ip io ix le mn mx dl un fi fe de se sl sx sr iw il cq th := o in
  Hardlinkable.mkOptions sn true true true true le mn mx dl un fi fe de se sl sx sr iw il cq th.

Definition LinkingEnabled (o : Hardlinkable.Options) : Hardlinkable.Options :=
  let 'Hardlinkable.mkOptions sn it ip io ix le mn mx dl un fi fe de se sl sx sr iw il cq th := o in
  Hardlinkable.mkOptions sn it ip io ix true mn mx dl un fi fe de se sl sx sr iw il cq th.

Definition LinkingDisabled (o : Hardlinkable.Options) : Hardlinkable.Options :=
  let 'Hardlinkable.mkOptions sn it ip io ix le mn mx dl un fi fe de se sl sx sr iw il cq th := o in
  Hardlinkable.mkOptions sn it ip io ix false mn mx dl un fi fe de se sl sx sr iw il cq th.

Definition MinFileSize (size : Z) (o : Hardlinkable.Options) : Hardlinkable.Options :=
  let 'Hardlinkable.mkOptions sn it ip io ix le mn mx dl un fi fe de se sl sx sr iw il cq th := o in
  Hardlinkable.mkOptions sn it ip io ix le size mx dl un fi fe de se sl sx sr iw il cq th.

Definition MaxFileSize (size : Z) (o : Hardlinkable.Options) : Hardlinkable.Options :=
  let 'Hardlinkable.mkOptions sn it ip io ix le mn mx dl un fi fe de se sl sx sr iw il cq th := o in
  Hardlinkable.mkOptions sn it ip io ix le mn size dl un fi fe de se sl sx sr iw il cq th.

Definition DebugLevel (debugLevel : Z) (o : Hardlinkable.Options) : Hardlinkable.Options :=
  let 'Hardlinkable.mkOptions sn it ip io ix le mn mx dl un fi fe de se sl sx sr iw il cq th := o in
  Hardlinkable.mkOptions sn it ip io ix le mn mx debugLevel un fi fe de se sl sx sr iw il cq th.

Definition ShowExtendedRunStats (o : Hardlinkable.Options) : Hardlinkable.Options :=
  let 'Hardlinkable.mkOptions sn it ip io ix le mn mx dl un fi fe de se sl sx sr iw il cq th := o in
  Hardlinkable.mkOptions sn it ip io ix le mn mx dl un fi fe de se sl true sr iw il cq th.

Definition IgnoreWalkErrors (o : Hardlinkable.Options) : Hardlinkable.Options :=
  let 'Hardlinkable.mkOptions sn it ip io ix le mn mx dl un fi fe de se sl sx sr iw il cq th := o in
  Hardlinkable.mkOptions sn it ip io ix le mn mx dl un fi fe de se sl sx sr true il cq th.

Definition IgnoreLinkErrors (o : Hardlinkable.Options) : Hardlinkable.Options :=
  let 'Hardlinkable.mkOptions sn it ip io ix le mn mx dl un fi fe de se sl sx sr iw il cq th := o in
  Hardlinkable.mkOptions sn it ip io ix le mn mx dl un fi fe de se sl sx sr iw true cq th.

Definition CheckQuiescence (o : Hardlinkable.Options) : Hardlinkable.Options :=
  let 'Hardlinkable.mkOptions sn it ip io ix le mn mx dl un fi fe de se sl sx sr iw il cq th := o in
  Hardlinkable.mkOptions sn it ip io ix le mn mx dl un fi fe de se sl sx sr iw il true th.

(** [SetupOptions]: the defaults, then the setup functions in order. *)
Definition SetupOptions (args : list (Hardlinkable.Options → Hardlinkable.Options))
  : Hardlinkable.Options :=
  let o := Hardlinkable.mkOptions false false false false false false 1 0 0 true
             [] [] [] true true false true false false false 1 in
  foldl (λ o fn, fn o) o args.

End Setup.

(** The setup functions that package hardlinkable exports, as data. *)
Inductive Setter :=
| sSameName | sIgnoreTime | sIgnorePerm | sIgnoreOwner | sIgnoreXAttr | sContentOnly
| sLinkingEnabled | sLinkingDisabled
| sMinFileSize (size : Z) | sMaxFileSize (size : Z) | sDebugLevel (debugLevel : Z)
| sShowExtendedRunStats | sIgnoreWalkErrors | sIgnoreLinkErrors | sCheckQuiescence.

#[global] Instance Setter_eq_dec : EqDecision Setter.
Proof. solve_decision. Defined.

Definition setterFn (s : Setter) : Hardlinkable.Options → Hardlinkable.Options :=
  match s with
  | sSameName => Setup.SameName
  | sIgnoreTime => Setup.IgnoreTime
  | sIgnorePerm => Setup.IgnorePerm
  | sIgnoreOwner => Setup.IgnoreOwner
  | sIgnoreXAttr => Setup.IgnoreXAttr
  | sContentOnly => Setup.ContentOnly
  | sLinkingEnabled => Setup.LinkingEnabled
  | sLinkingDisabled => Setup.LinkingDisabled
  | sMinFileSize size => Setup.MinFileSize size
  | sMaxFileSize size => Setup.MaxFileSize size
  | sDebugLevel debugLevel => Setup.DebugLevel debugLevel
  | sShowExtendedRunStats => Setup.ShowExtendedRunStats
  | sIgnoreWalkErrors => Setup.IgnoreWalkErrors
  | sIgnoreLinkErrors => Setup.IgnoreLinkErrors
  | sCheckQuiescence => Setup.CheckQuiescence
  end.

(** [s] is among the setup functions applied. *)
Definition applied (s : Setter) (ss : list Setter) : bool := bool_decide (s ∈ ss).

(** The value the last setup function of a kind gave, [d] when none of
    that kind was applied. *)
Definition lastOf {A} (pick : Setter → option A) (d : A) (ss : list Setter) : A :=
  default d (last (omap pick ss)).

Definition pickMin (s : Setter) : option Z :=
  match s with sMinFileSize size => Some size | _ => None end.

Definition pickMax (s : Setter) : option Z :=
  match s with sMaxFileSize size => Some size | _ => None end.

Definition pickDebug (s : Setter) : option Z :=
  match s with sDebugLevel l => Some l | _ => None end.

Definition pickLinking (s : Setter) : option bool :=
  match s with
  | sLinkingEnabled => Some true
  | sLinkingDisabled => Some false
  | _ => None
  end.

Lemma applied_snoc s ss x : applied s (ss ++ [x]) = applied s ss || bool_decide (s = x).
Proof.
  unfold applied. apply eq_true_iff_eq.
  rewrite orb_true_iff, !bool_decide_eq_true, elem_of_app, list_elem_of_singleton. done.
Qed.

Lemma lastOf_snoc {A} (pick : Setter → option A) d ss x :
  lastOf pick d (ss ++ [x]) =
    match pick x with
    | Some v => v
    | None => lastOf pick d ss
    end.
Proof.
  unfold lastOf. rewrite omap_app. cbn. destruct (pick x) as [v|]; cbn.
  - by rewrite last_snoc.
  - by rewrite app_nil_r.
Qed.

(** The options that a sequence of setup functions describes. *)
Definition describedOptions (ss : list Setter) : Hardlinkable.Options :=
  Hardlinkable.mkOptions
    (applied sSameName ss)
    (applied sIgnoreTime ss || applied sContentOnly ss)
    (applied sIgnorePerm ss || applied sContentOnly ss)
    (applied sIgnoreOwner ss || applied sContentOnly ss)
    (applied sIgnoreXAttr ss || applied sContentOnly ss)
    (lastOf pickLinking false ss)
    (lastOf pickMin 1 ss) (lastOf pickMax 0 ss) (lastOf pickDebug 0 ss)
    true [] [] [] true true
    (applied sShowExtendedRunStats ss)
    true
    (applied sIgnoreWalkErrors ss) (applied sIgnoreLinkErrors ss)
    (applied sCheckQuiescence ss)
    1.

Lemma SetupOptions_described ss :
  Setup.SetupOptions (setterFn <$> ss) = describedOptions ss.
Proof.
  induction ss as [|x ss IH] using rev_ind; [done|].
  unfold Setup.SetupOptions in *. rewrite fmap_app, foldl_app. cbn [fmap list_fmap foldl].
  rewrite IH. unfold describedOptions.
  rewrite !applied_snoc, !lastOf_snoc.
  destruct x; cbn; rewrite ?orb_false_r, ?orb_true_r; reflexivity.
Qed.

(** [LinkingEnabled] is on when, after the last [LinkingEnabled]
    applied, no [LinkingDisabled] was. *)
Lemma lastOf_pickLinking ss :
  lastOf pickLinking false ss = true ↔
  ∃ before after, ss = before ++ sLinkingEnabled :: after ∧ sLinkingDisabled ∉ after.
Proof.
  induction ss as [|x ss IH] using rev_ind.
  - split; [done|]. intros (before & after & Heq & _). by destruct before.
  - rewrite lastOf_snoc.
    assert (Hlast : ∀ before after,
              ss ++ [x] = before ++ sLinkingEnabled :: after →
              (after = [] ∧ x = sLinkingEnabled ∧ ss = before) ∨
              ∃ after', after = after' ++ [x] ∧ ss = before ++ sLinkingEnabled :: after').
    { intros before after Heq. destruct after as [|y after' _] using rev_ind.
      - left. apply app_inj_tail in Heq as [-> ->]. done.
      - right. rewrite app_comm_cons, app_assoc in Heq.
        apply app_inj_tail in Heq as [-> ->]. by exists after'. }
    destruct (pickLinking x) as [[]|] eqn:Hpick.
    + split; [intros _|done]. exists ss, []. split; [|by intros ?%elem_of_nil].
      by destruct x.
    + split; [done|]. intros (before & after & Heq & Hnot).
      destruct (Hlast _ _ Heq) as [(_ & -> & _)|(after' & -> & _)]; [done|].
      exfalso. apply Hnot. apply elem_of_app. right.
      apply list_elem_of_singleton. by destruct x.
    + rewrite IH. split; intros (before & after & Heq & Hnot).
      * exists before, (after ++ [x]). subst ss. split; [by rewrite <- app_assoc|].
        intros [?| <-%list_elem_of_singleton]%elem_of_app; done.
      * destruct (Hlast _ _ Heq) as [(_ & -> & _)|(after' & -> & ->)]; [done|].
        exists before, after'. split; [done|].
        intros Hin. apply Hnot. apply elem_of_app. by left.
Qed.

(** Options set up with the exported setup functions.  [SameName],
    [ShowExtendedRunStats], [IgnoreWalkErrors], [IgnoreLinkErrors] and
    [CheckQuiescence] are on exactly when their function was applied, and
    an ignore flag exactly when its own function or [ContentOnly] was.
    [LinkingEnabled] goes by the last of [LinkingEnabled] and
    [LinkingDisabled] applied: it is on exactly when [LinkingEnabled] was
    applied with no [LinkingDisabled] after it.  A size or level is the
    one given last, and the remaining fields keep their defaults.
    [Validate] rejects the result exactly when the last [MaxFileSize]
    given is positive and below the last [MinFileSize] given (1 when none
    was). *)
Theorem SetupOptions_accumulates_and_validates (ss : list Setter) :
  let o := Setup.SetupOptions (setterFn <$> ss) in
  o = describedOptions ss ∧
  (Hardlinkable.LinkingEnabled o = true ↔
     ∃ before after, ss = before ++ sLinkingEnabled :: after ∧ sLinkingDisabled ∉ after) ∧
  (is_Some (Hardlinkable.Validate o).1 ↔
     0 < lastOf pickMax 0 ss < lastOf pickMin 1 ss) ∧
  (Hardlinkable.IgnoreTime o && Hardlinkable.IgnorePerm o &&
   Hardlinkable.IgnoreOwner o && Hardlinkable.IgnoreXAttr o = true ↔
     sContentOnly ∈ ss ∨
     (sIgnoreTime ∈ ss ∧ sIgnorePerm ∈ ss ∧ sIgnoreOwner ∈ ss ∧ sIgnoreXAttr ∈ ss)).
Proof.
  intros o. subst o. rewrite SetupOptions_described. split_and!; [done| | |].
  - apply lastOf_pickLinking.
  - unfold Hardlinkable.Validate. cbn [describedOptions Hardlinkable.MaxFileSize
      Hardlinkable.MinFileSize].
    destruct (0 <? lastOf pickMax 0 ss) eqn:Hpos;
      destruct (lastOf pickMax 0 ss <? lastOf pickMin 1 ss) eqn:Hlt; cbn;
      try apply Z.ltb_lt in Hpos; try apply Z.ltb_ge in Hpos;
      try apply Z.ltb_lt in Hlt; try apply Z.ltb_ge in Hlt;
      (split; [first [intros _; lia | intros [? [=]]] | first [intros ?; lia | eauto]]).
  - cbn. rewrite !andb_true_iff, !orb_true_iff. unfold applied.
    rewrite !bool_decide_eq_true. naive_solver.
Qed.

(** * The listing of new links: OutputLinkedPaths (results.go) *)

From Stdlib Require Import Ascii.

(** The inner loop of [OutputLinkedPaths]: one line a path, the first
    of a group marked [from:] and the others [to:]. *)
Definition groupLines (paths : list string) : list string :=
  imap (λ i path, if (i =? 0)%nat then "from: " +:+ path else "  to: " +:+ path) paths.

(** The slice [s] that [OutputLinkedPaths] builds; [linkingEnabled] is
    [r.Opts.LinkingEnabled]. *)
Definition linkedPathsLines (linkingEnabled : bool) (r : Hardlinkable.Results)
  : list string :=
  let s := [] in
  let s := if linkingEnabled
           then (s ++ ["Files that were hardlinked this run"])
                  ++ ["-----------------------------------"]
           else (s ++ ["Files that are hardlinkable"])
                  ++ ["---------------------------"] in
  foldl (λ s paths, s ++ groupLines paths) s (Hardlinkable.LinkPaths r).

Definition newline : ascii := "010"%char.

(** [strings.Join(s, sep)]. *)
Fixpoint strings_Join (s : list string) (sep : string) : string :=
  match s with
  | [] => ""
  | [x] => x
  | x :: rest => x +:+ sep +:+ strings_Join rest sep
  end.

(** What [OutputLinkedPaths] writes to the standard output:
    [fmt.Println(strings.Join(s, "\n"))]. *)
Definition OutputLinkedPaths (linkingEnabled : bool) (r : Hardlinkable.Results) : string :=
  strings_Join (linkedPathsLines linkingEnabled r) (String newline "") +:+ String newline "".

(** ** Reading the listing back *)

Fixpoint noNewline (s : string) : bool :=
  match s with
  | EmptyString => true
  | String c s => negb (Ascii.eqb c newline) && noNewline s
  end.

Fixpoint splitLines (s : string) : list string :=
  match s with
  | EmptyString => [""]
  | String c s =>
    if Ascii.eqb c newline then "" :: splitLines s
    else match splitLines s with
         | l :: rest => String c l :: rest
         | [] => [String c ""]
         end
  end.

Inductive Line :=
| FromLine (path : string)
| ToLine (path : string)
| OtherLine.

Definition readLine (s : string) : Line :=
  match s with
  | String "f" (String "r" (String "o" (String "m" (String ":" (String " " p))))) =>
    FromLine p
  | String " " (String " " (String "t" (String "o" (String ":" (String " " p))))) =>
    ToLine p
  | _ => OtherLine
  end.

Definition readStep (groups : list (list string)) (line : string) : list (list string) :=
  match readLine line with
  | FromLine p => groups ++ [[p]]
  | ToLine p =>
    match popLast groups with
    | Some (init, g) => init ++ [g ++ [p]]
    | None => groups
    end
  | OtherLine => groups
  end.

Definition readBack (s : string) : list (list string) :=
  foldl readStep [] (splitLines s).

(** A listing can be read back when no group is empty and no path
    holds a newline. *)
Definition listable (r : Hardlinkable.Results) : Prop :=
  Forall (λ g, g ≠ [] ∧ Forall (λ p, noNewline p = true) g) (Hardlinkable.LinkPaths r).

Lemma string_app_nil (b : string) : "" +:+ b = b.
Proof. done. Qed.

Lemma string_app_cons c (a b : string) : String c a +:+ b = String c (a +:+ b).
Proof. done. Qed.

Lemma string_app_assoc (a b c : string) : (a +:+ b) +:+ c = a +:+ (b +:+ c).
Proof. induction a as [|x a IH]; [done|]. by rewrite !string_app_cons, IH. Qed.

Lemma splitLines_line a s :
  noNewline a = true →
  splitLines (a +:+ String newline s) = a :: splitLines s.
Proof.
  induction a as [|c a IH]; [done|]. cbn [noNewline].
  intros [Hc Ha]%andb_true_iff. apply negb_true_iff in Hc.
  rewrite string_app_cons. cbn [splitLines]. by rewrite Hc, (IH Ha).
Qed.

Lemma splitLines_Join x l :
  Forall (λ p, noNewline p = true) (x :: l) →
  splitLines (strings_Join (x :: l) (String newline "") +:+ String newline "")
    = (x :: l) ++ [""].
Proof.
  revert x. induction l as [|y l IH]; intros x [Hx Hl]%Forall_cons.
  - cbn [strings_Join]. by rewrite splitLines_line.
  - change (strings_Join (x :: y :: l) (String newline ""))
      with (x +:+ String newline "" +:+ strings_Join (y :: l) (String newline "")).
    rewrite !string_app_assoc, string_app_cons.
    rewrite splitLines_line, string_app_nil by done. by rewrite IH.
Qed.

Lemma groupLines_cons p rest :
  groupLines (p :: rest) = ("from: " +:+ p) :: ((λ q, "  to: " +:+ q) <$> rest).
Proof.
  unfold groupLines. rewrite imap_cons. f_equal.
  rewrite <- imap_const. by apply imap_ext.
Qed.

Lemma linkedPathsLines_eq le r :
  ∃ h1 h2, readLine h1 = OtherLine ∧ readLine h2 = OtherLine ∧
    noNewline h1 = true ∧ noNewline h2 = true ∧
    linkedPathsLines le r = [h1; h2] ++ mjoin (groupLines <$> Hardlinkable.LinkPaths r).
Proof.
  unfold linkedPathsLines.
  assert (Hfold : ∀ groups s,
            foldl (λ s paths, s ++ groupLines paths) s groups
            = s ++ mjoin (groupLines <$> groups)).
  { induction groups as [|g groups IH]; intros s; cbn; [by rewrite app_nil_r|].
    by rewrite IH, app_assoc. }
  destruct le; rewrite Hfold;
    [exists "Files that were hardlinked this run", "-----------------------------------"
    |exists "Files that are hardlinkable", "---------------------------"];
    split_and!; done.
Qed.

Lemma readStep_other groups line : readLine line = OtherLine → readStep groups line = groups.
Proof. unfold readStep. by intros ->. Qed.

Lemma readStep_from groups p : readStep groups ("from: " +:+ p) = groups ++ [[p]].
Proof. done. Qed.

Lemma readStep_to init g q :
  readStep (init ++ [g]) ("  to: " +:+ q) = init ++ [g ++ [q]].
Proof.
  unfold readStep. change (readLine _) with (ToLine q). by rewrite popLast_snoc.
Qed.

Lemma readStep_group groups p rest :
  foldl readStep groups (groupLines (p :: rest)) = groups ++ [p :: rest].
Proof.
  rewrite groupLines_cons. cbn [foldl]. rewrite readStep_from.
  change (p :: rest) with ([p] ++ rest). generalize [p] as g.
  induction rest as [|q rest IH]; intros g; cbn [fmap list_fmap foldl].
  - by rewrite app_nil_r.
  - rewrite readStep_to, IH, <- app_assoc. done.
Qed.

Lemma readStep_groups groups acc :
  Forall (λ g, g ≠ []) groups →
  foldl readStep acc (mjoin (groupLines <$> groups)) = acc ++ groups.
Proof.
  revert acc. induction groups as [|g groups IH]; intros acc Hne; cbn.
  - by rewrite app_nil_r.
  - apply Forall_cons in Hne as [Hg Hne]. destruct g as [|p rest]; [done|].
    rewrite foldl_app, readStep_group, IH by done. by rewrite <- app_assoc.
Qed.

Lemma noNewline_app a b : noNewline a = true → noNewline b = true → noNewline (a +:+ b) = true.
Proof.
  intros Ha Hb. induction a as [|c a IH]; [done|].
  rewrite string_app_cons. cbn [noNewline] in *.
  apply andb_true_iff in Ha as [Hc Ha]. by rewrite Hc, IH.
Qed.

Lemma groupLines_noNewline g :
  Forall (λ p, noNewline p = true) g → Forall (λ p, noNewline p = true) (groupLines g).
Proof.
  destruct g as [|p rest]; [done|]. rewrite groupLines_cons.
  intros [Hp Hrest]%Forall_cons. apply Forall_cons. split.
  - by apply noNewline_app.
  - apply Forall_fmap. eapply Forall_impl; [exact Hrest|].
    intros q Hq. by apply noNewline_app.
Qed.

(** Reading back what [OutputLinkedPaths] printed gives the groups it
    printed. *)
Lemma readBack_OutputLinkedPaths le r :
  listable r → readBack (OutputLinkedPaths le r) = Hardlinkable.LinkPaths r.
Proof.
  intros Hl. unfold readBack, OutputLinkedPaths.
  destruct (linkedPathsLines_eq le r) as (h1 & h2 & Hr1 & Hr2 & Hn1 & Hn2 & ->).
  cbn [app]. rewrite splitLines_Join.
  - rewrite foldl_app. cbn [foldl]. rewrite (readStep_other _ h1), (readStep_other _ h2) by done.
    rewrite readStep_groups.
    + by rewrite readStep_other.
    + eapply Forall_impl; [exact Hl|]. by intros g [Hg _].
  - repeat (apply Forall_cons; split; [done|]).
    apply Forall_forall. intros line (lines & Hline & Hin)%list_elem_of_join.
    apply list_elem_of_fmap in Hin as (g & -> & Hg).
    apply (proj1 (Forall_forall _ _) Hl) in Hg as [_ Hg].
    apply groupLines_noNewline in Hg.
    by apply (proj1 (Forall_forall _ _) Hg).
Qed.

(** The listing printed by [OutputLinkedPaths] determines the recorded
    groups of links: two results whose groups are nonempty and whose
    paths hold no newline print the same text only if they recorded
    the same groups. *)
Theorem OutputLinkedPaths_determines_links le r1 r2 :
  listable r1 → listable r2 →
  OutputLinkedPaths le r1 = OutputLinkedPaths le r2 →
  Hardlinkable.LinkPaths r1 = Hardlinkable.LinkPaths r2.
Proof.
  intros H1 H2 Heq.
  rewrite <- (readBack_OutputLinkedPaths le r1 H1).
  rewrite <- (readBack_OutputLinkedPaths le r2 H2).
  by rewrite Heq.
Qed.

(** * Examples for the further properties *)

Definition statsOf (o : Outcome (FSDev * LinkingStats)) : LinkingStats :=
  match o with
  | Done (_, st) => st
  | _ => NewLinkingStats
  end.

Lemma run_ingested E dev maxNLinks files :
  isDone (ingestAll E (NewFSDev dev maxNLinks) NewLinkingStats files) = true →
  ingested E (stateOf (ingestAll E (NewFSDev dev maxNLinks) NewLinkingStats files))
             (statsOf (ingestAll E (NewFSDev dev maxNLinks) NewLinkingStats files)).
Proof.
  destruct (ingestAll _ _ _ _) as [[f st]| |] eqn:Hrun; [|done..]. intros _.
  eapply ingestAll_ingested; [apply ingested_new|exact Hrun].
Qed.

Lemma run_Done (o : Outcome (FSDev * LinkingStats)) :
  isDone o = true → o = Done (stateOf o, statsOf o).
Proof. by destruct o as [[f st]| |]. Qed.

Lemma twoFiles_ingested : ingested (demoEnv 1) (stateOf twoFiles) (statsOf twoFiles).
Proof. apply run_ingested. vm_compute. reflexivity. Qed.

Lemma linked_inodes_form_undirected_graph_witness :
  let f := stateOf twoFiles in
  1 ∈ setAt (LinkedInos f) 2 ∧ 1 ≠ 2 ∧
  is_Some (InoStatInfo f !! 1) ∧ is_Some (InoStatInfo f !! 2).
Proof.
  intros f.
  apply (linked_inodes_form_undirected_graph (demoEnv 1) f (statsOf twoFiles)
           twoFiles_ingested 1 2).
  vm_compute. reflexivity.
Defined.

Lemma digest_index_is_a_partition_witness :
  let f := stateOf twoFiles in
  (∀ ino, ino ∈ InosWithDigest f ↔ ∃ d, ino ∈ setAt (DigestIno f) d) ∧
  (∀ ino d1 d2,
     ino ∈ setAt (DigestIno f) d1 → ino ∈ setAt (DigestIno f) d2 → d1 = d2).
Proof.
  intros f.
  exact (digest_index_is_a_partition (demoEnv 1) f (statsOf twoFiles) twoFiles_ingested).
Defined.

Lemma ingestion_panics_only_on_device_mismatch_witness :
  let f := stateOf twoFiles in
  findIdenticalFiles (demoEnv 1) f (statsOf twoFiles)
    {| dsDev := 8; dsStat := dsStat (demoStat 3) |} "/c" = Panic "Mismatched Dev".
Proof.
  intros f.
  exact (ingestion_panics_only_on_device_mismatch (demoEnv 1) f (statsOf twoFiles)
           {| dsDev := 8; dsStat := dsStat (demoStat 3) |} "/c" twoFiles_ingested).
Defined.

Lemma ingestion_records_paths_in_walk_order_witness :
  pathsNamed (stateOf twoFiles) 2 "/b" = [{| Dirname := ""; Filename := "/b" |}].
Proof.
  apply (ingestion_records_paths_in_walk_order (demoEnv 1)
           [(demoStat 1, "/a"); (demoStat 2, "/b")]
           (NewFSDev 7 100) NewLinkingStats (stateOf twoFiles) (statsOf twoFiles)).
  apply run_Done. vm_compute. reflexivity.
Defined.

Lemma ingest_counters_match_tables_witness :
  numInodes (statsOf twoFiles) = 2 ∧ numMissedHashes (statsOf twoFiles) = 1 ∧
  toInt64 (numMissedHashes (statsOf twoFiles) + numFoundHashes (statsOf twoFiles)) = 2.
Proof.
  assert (Hsize : size (InoStatInfo (stateOf twoFiles)) = 2%nat
                  ∧ size (InoHashes (stateOf twoFiles)) = 1%nat)
    by (vm_compute; done).
  destruct Hsize as [Hs Hh].
  destruct (ingest_counters_match_tables (demoEnv 1) 7 100
              [(demoStat 1, "/a"); (demoStat 2, "/b")]
              (stateOf twoFiles) (statsOf twoFiles)) as (H1 & H2 & H3).
  { apply run_Done. vm_compute. reflexivity. }
  rewrite Hs in H1. rewrite Hh in H2. split_and!; [exact H1|exact H2|exact H3].
Defined.

(** A world like [demoEnv] where the first two characters of a
    pathname are its directory. *)
Definition dirEnv (thresh : Z) : Env :=
  {| MyOptions := demoOptions thresh;
     order := canonicalSlice;
     ranges := canonicalRange;
     os_Open := λ _, Some [Byte.x61];
     areFileContentsEqual := λ _ _, true;
     equalXAttrs := λ _ _, (true, false);
     SplitPathname := λ p, {| Dirname := String.substring 0 2 p;
                              Filename := String.substring 2 (String.length p - 2) p |};
     Join := λ ps, Dirname ps +:+ Filename ps |}.

(** Two identical files with the same name, [a/x] (inode 1) and [b/x]
    (inode 2). *)
Definition sameNameFiles : Outcome (FSDev * LinkingStats) :=
  ingestAll (dirEnv 1) (NewFSDev 7 100) NewLinkingStats
    [(demoStat 1, "a/x"); (demoStat 2, "b/x")].

(** The planner's further preconditions, computed. *)
Definition listsNonemptyb (f : FSDev) : bool :=
  forallb (λ kv : Z * gmap string (list Pathsplit),
             forallb (λ kl : string * list Pathsplit, negb (length kl.2 =? 0)%nat)
               (map_to_list kv.2))
    (map_to_list (InoPaths f)).

Definition hasPathsb (f : FSDev) (x : Z) : bool :=
  negb (length (map_to_list (pathsAt f x)) =? 0)%nat.

Lemma listsNonemptyb_spec f : listsNonemptyb f = true → listsNonempty f.
Proof.
  unfold listsNonemptyb. rewrite forallb_forall.
  intros H x fn l Hl. unfold pathsAt in Hl.
  destruct (InoPaths f !! x) as [fp|] eqn:Hfp; cbn in Hl; [|by rewrite lookup_empty in Hl].
  specialize (H (x, fp)). cbn in H. rewrite forallb_forall in H.
  specialize (H ltac:(by apply list_elem_of_In, elem_of_map_to_list) (fn, l)).
  cbn in H. intros ->. cbn in H. discriminate H.
  by apply list_elem_of_In, elem_of_map_to_list.
Qed.

Lemma hasPathsb_spec f x : hasPathsb f x = true → hasPaths f x.
Proof.
  unfold hasPathsb, hasPaths. intros H Hempty. rewrite Hempty in H.
  by rewrite map_to_list_empty in H.
Qed.

Lemma plannable_computed f sortedInos :
  bool_decide (NoDup sortedInos) && keyedAllb f && listsNonemptyb f
    && forallb (hasPathsb f) sortedInos = true →
  plannable f sortedInos.
Proof.
  rewrite !andb_true_iff, forallb_forall.
  intros [[[Hnd%bool_decide_eq_true Hk] Hl] Hh]. split_and!.
  - done.
  - by apply keyedAllb_spec.
  - by apply listsNonemptyb_spec.
  - intros x Hx. by apply hasPathsb_spec, Hh, list_elem_of_In.
Qed.

(** The result of a planning run, for the examples. *)
Definition planOf (o : Outcome (FSDev * Hardlinkable.Results * list Hardlinkable.PathInfoPair))
  : FSDev * Hardlinkable.Results * list Hardlinkable.PathInfoPair :=
  match o with
  | Done res => res
  | _ => (NewFSDev 0 0, Hardlinkable.newResults false, [])
  end.

Lemma plan_Done (o : Outcome (FSDev * Hardlinkable.Results * list Hardlinkable.PathInfoPair)) :
  isDone o = true → o = Done ((planOf o).1.1, (planOf o).1.2, (planOf o).2).
Proof. by destruct o as [[[f r] out]| |]. Qed.

Definition sameNamePlan :=
  Hardlinkable.sendLinkedPairs (dirEnv 1) true (stateOf sameNameFiles)
    (Hardlinkable.newResults true) [1; 2].

Lemma same_name_planner_links_equal_filenames_witness :
  length (planOf sameNamePlan).2 = 1%nat ∧
  ∀ pair, pair ∈ (planOf sameNamePlan).2 →
    Filename (psPath (Hardlinkable.Src pair)) = Filename (psPath (Hardlinkable.Dst pair)).
Proof.
  split; [vm_compute; reflexivity|].
  apply (same_name_planner_links_equal_filenames (dirEnv 1) (stateOf sameNameFiles)
           (Hardlinkable.newResults true) [1; 2]
           (planOf sameNamePlan).1.1 (planOf sameNamePlan).1.2).
  - apply keyedAllb_spec. vm_compute. reflexivity.
  - apply plan_Done. vm_compute. reflexivity.
Defined.

Definition twoFilesPlan :=
  Hardlinkable.sendLinkedPairs (demoEnv 1) false (stateOf twoFiles)
    (Hardlinkable.newResults true) [1; 2].

Lemma planner_results_match_emitted_pairs_witness :
  let r' := (planOf twoFilesPlan).1.2 in
  let out := (planOf twoFilesPlan).2 in
  Hardlinkable.NewLinkCount r' = toInt64 (Z.of_nat (length out)) ∧
  Hardlinkable.InodeRemovedCount r' = toInt64 (Z.of_nat (length (filter removesInode out))) ∧
  Hardlinkable.InodeRemovedByteAmount r' = wrap 64 (removedBytes out) ∧
  Forall (λ g, (2 ≤ length g)%nat) (Hardlinkable.LinkPaths r') ∧
  linksOf (Hardlinkable.LinkPaths r') = pairNames (demoEnv 1) <$> out.
Proof.
  intros r' out.
  apply (planner_results_match_emitted_pairs (demoEnv 1) false true (stateOf twoFiles)
           [1; 2] (planOf twoFilesPlan).1.1 r' out).
  apply plan_Done. vm_compute. reflexivity.
Defined.

Lemma planner_returns_on_well_formed_component_witness :
  ∃ f' r' out,
    Hardlinkable.sendLinkedPairs (demoEnv 1) false (stateOf twoFiles)
      (Hardlinkable.newResults true) [1; 2] = Done (f', r', out) ∧
    keyedAll f' ∧ listsNonempty f'.
Proof.
  apply (planner_returns_on_well_formed_component (demoEnv 1) false true
           (stateOf twoFiles) [1; 2]).
  apply plannable_computed. vm_compute. reflexivity.
Defined.

Lemma planner_conserves_recorded_paths_witness :
  mjoin (allPaths (planOf twoFilesPlan).1.1 <$> [1; 2])
    ≡ₚ mjoin (allPaths (stateOf twoFiles) <$> [1; 2]) ∧
  ∀ x, x ∉ [1; 2] → pathsAt (planOf twoFilesPlan).1.1 x = pathsAt (stateOf twoFiles) x.
Proof.
  apply (planner_conserves_recorded_paths (demoEnv 1) false true (stateOf twoFiles) [1; 2]
           (planOf twoFilesPlan).1.1 (planOf twoFilesPlan).1.2 (planOf twoFilesPlan).2).
  - apply plannable_computed. vm_compute. reflexivity.
  - apply plan_Done. vm_compute. reflexivity.
Defined.

Lemma known_inode_is_linked_to_a_bucket_witness :
  ∃ linked b,
    linkedInoSet (demoEnv 1) (stateOf twoFiles) 2 = Done linked ∧
    b ∈ linked ∧ inBucket (stateOf twoFiles) b.
Proof.
  apply (known_inode_is_linked_to_a_bucket (demoEnv 1) (stateOf twoFiles) (statsOf twoFiles)
           twoFiles_ingested 2).
  vm_compute. eauto.
Defined.

Lemma linkedInoSets_are_the_components_witness :
  ∃ sets,
    linkedInoSets (demoEnv 1) (stateOf twoFiles) = Done sets ∧
    Forall (λ s, ∃ start, is_Some (LinkedInos (stateOf twoFiles) !! start) ∧
                          componentOf (LinkedInos (stateOf twoFiles)) start s) sets ∧
    pairwiseDisjoint sets ∧
    ∀ x, is_Some (LinkedInos (stateOf twoFiles) !! x) → ∃ s, s ∈ sets ∧ x ∈ s.
Proof.
  apply (linkedInoSets_are_the_components (demoEnv 1) (stateOf twoFiles)).
  intros a b Hab.
  by destruct (ingested_linkGraphOK _ _ _ twoFiles_ingested a b Hab) as [? _].
Defined.

Lemma SortedLinks_returns_after_ingestion_witness :
  let f := stateOf twoFiles in
  ∃ f' r' out,
    SortedLinks (demoEnv 1) false f (Hardlinkable.newResults true) = Done (f', r', out) ∧
    Hardlinkable.NewLinkCount r' = toInt64 (Z.of_nat (length out)) ∧
    mjoin (allPaths f' <$> elements (dom (LinkedInos f)))
      ≡ₚ mjoin (allPaths f <$> elements (dom (LinkedInos f))) ∧
    ∀ x, LinkedInos f !! x = None → pathsAt f' x = pathsAt f x.
Proof.
  exact (SortedLinks_returns_after_ingestion (demoEnv 1) false true
           (stateOf twoFiles) (statsOf twoFiles) twoFiles_ingested).
Defined.

Lemma planner_nlinks_follow_paths_witness :
  let f := stateOf twoFiles in
  let f' := (planOf twoFilesPlan).1.1 in
  Nlink (statAt f' 1) - Z.of_nat (length (allPaths f' 1))
    = Nlink (statAt f 1) - Z.of_nat (length (allPaths f 1)).
Proof.
  intros f f'.
  apply (planner_nlinks_follow_paths (demoEnv 1) false f (Hardlinkable.newResults true)
           [1; 2] f' (planOf twoFilesPlan).1.2 (planOf twoFilesPlan).2).
  - repeat (apply NoDup_cons_2; [rewrite ?elem_of_cons, elem_of_nil; lia|]).
    apply NoDup_nil_2.
  - apply nlinkInRangeb_spec. vm_compute. reflexivity.
  - apply keyedAllb_spec. vm_compute. reflexivity.
  - intros ino Hino. apply pathsWithinNlinkb_spec.
    repeat (apply elem_of_cons in Hino as [->|Hino]; [vm_compute; reflexivity|]).
    apply elem_of_nil in Hino. destruct Hino.
  - vm_compute. reflexivity.
  - apply plan_Done. vm_compute. reflexivity.
Defined.

Lemma planner_touches_only_its_inodes_witness :
  let f := stateOf twoFiles in
  let f' := (planOf twoFilesPlan).1.1 in
  Dev f' = Dev f ∧ MaxNLinks f' = MaxNLinks f ∧ InoHashes f' = InoHashes f ∧
  LinkedInos f' = LinkedInos f ∧ DigestIno f' = DigestIno f ∧
  InosWithDigest f' = InosWithDigest f ∧
  ∀ x, x ∉ [1; 2] →
    InoStatInfo f' !! x = InoStatInfo f !! x ∧ InoPaths f' !! x = InoPaths f !! x.
Proof.
  intros f f'.
  apply (planner_touches_only_its_inodes (demoEnv 1) false f (Hardlinkable.newResults true)
           [1; 2] f' (planOf twoFilesPlan).1.2 (planOf twoFilesPlan).2).
  apply plan_Done. vm_compute. reflexivity.
Defined.

Lemma linked_inodes_compared_equal_witness :
  let E := demoEnv 1 in
  let f := stateOf twoFiles in
  ∃ pa pb, pa ∈ allPaths f 2 ∧ pb ∈ allPaths f 1 ∧
    (areFileContentsEqual E (Join E pa) (Join E pb) = true ∨
     areFileContentsEqual E (Join E pb) (Join E pa) = true).
Proof.
  intros E f.
  apply (linked_inodes_compared_equal E f (statsOf twoFiles) twoFiles_ingested 2 1).
  vm_compute. reflexivity.
Defined.

Lemma planner_pairs_recorded_paths_witness :
  let f := stateOf twoFiles in
  let f' := (planOf twoFilesPlan).1.1 in
  let out := (planOf twoFilesPlan).2 in
  let recorded q := ∃ a, a ∈ [1; 2] ∧ q ∈ allPaths f a in
  (∀ pr, pr ∈ out →
     recorded (psPath (Hardlinkable.Src pr)) ∧ recorded (psPath (Hardlinkable.Dst pr))) ∧
  (∀ x q, x ∈ [1; 2] → q ∈ allPaths f' x → recorded q).
Proof.
  intros f f' out.
  apply (planner_pairs_recorded_paths (demoEnv 1) false f (Hardlinkable.newResults true)
           [1; 2] f' (planOf twoFilesPlan).1.2 out).
  apply plan_Done. vm_compute. reflexivity.
Defined.

Lemma OutputLinkedPaths_determines_links_witness :
  let r1 := (planOf twoFilesPlan).1.2 in
  let r2 := Hardlinkable.mkResults false [["/a"; "/b"]] 0 0 0 in
  Hardlinkable.LinkPaths r1 = Hardlinkable.LinkPaths r2.
Proof.
  intros r1 r2.
  apply (OutputLinkedPaths_determines_links false r1 r2).
  - unfold listable.
    replace (Hardlinkable.LinkPaths r1) with [["/a"; "/b"]] by (vm_compute; reflexivity).
    repeat (apply Forall_cons; split_and?); done.
  - unfold listable. cbn. repeat (apply Forall_cons; split_and?); done.
  - vm_compute. reflexivity.
Defined.

(** A path that the walk reached twice: "/b" is ingested again, on a
    device whose cap is 2. *)
Definition repeatedPathCap2 : Outcome (FSDev * LinkingStats) :=
  ingestAll (demoEnv 1) (NewFSDev 7 2) NewLinkingStats
    [(demoStat 1, "/a"); (demoStat 2, "/b"); (demoStat 2, "/b")].

(** C5 as the spec words it, for every emitted pair, fails on a state
    that ingestion reaches: "/b" was ingested twice, so inode 2 has two
    recorded paths and one link.  The guard of [sendLinkedPairs] compares
    the two nlinks once, 1 + 1 against the cap 2, and the loop over the
    two recorded paths then emits two pairs; the second carries the
    source with nlink 2, and one more link exceeds the cap. *)
Lemma repeated_path_exceeds_max_nlink :
  let E := demoEnv 1 in
  let f := stateOf repeatedPathCap2 in
  ingested E f (statsOf repeatedPathCap2) ∧
  MaxNLinks f = 2 ∧
  allPaths f 2 = [SplitPathname E "/b"; SplitPathname E "/b"] ∧
  Nlink (statAt f 2) = 1 ∧
  ∃ f' r' pair1 pair2,
    SortedLinks E false f (Hardlinkable.newResults true) = Done (f', r', [pair1; pair2]) ∧
    Hardlinkable.sendLinkedPairs E false f (Hardlinkable.newResults true) [1; 2]
      = Done (f', r', [pair1; pair2]) ∧
    Nlink (psStat (Hardlinkable.Src pair1)) = 1 ∧
    Nlink (psStat (Hardlinkable.Src pair2)) = 2 ∧
    ¬ (Nlink (psStat (Hardlinkable.Src pair2)) + 1 ≤ MaxNLinks f).
Proof.
  intros E f. split_and!.
  - apply run_ingested. vm_compute. reflexivity.
  - vm_compute. reflexivity.
  - vm_compute. reflexivity.
  - vm_compute. reflexivity.
  - eexists _, _, _, _. split_and!.
    + vm_compute. reflexivity.
    + vm_compute. reflexivity.
    + vm_compute. reflexivity.
    + vm_compute. reflexivity.
    + vm_compute. intros H. by apply H.
Qed.
